(** * Tetragon bugtool: BPF map inventory ([pkg/bugtool/maps.go])

    A shallow embedding of the map enumerator, the pinned-tree walkers, the
    fdinfo parser, the generic set algebra and the name aggregation of
    [pkg/bugtool/maps.go], together with the properties proved about them.

    Conventions of the embedding.
    - Go [int] is 64 bits wide: values are [Z], and every addition the code
      performs on an [int] is written with its wrap-around ([int_add]).
    - Go [map[int]T] is [gmap Z T], [map[string]T] is [gmap string T], a set
      [map[int]bool] whose values are all [true] is [gset Z].
    - A Go function returning [(v, error)] returns the pair
      [(v, option error)]: [return nil, err] is [([], Some err)].
    - The calls into [github.com/cilium/ebpf] and into the operating system
      are the fields of the record [Kernel]: each theorem holds for every
      kernel, or names the one it is evaluated on. *)

From Stdlib Require Import ZArith Lia.
From Stdlib Require Import Ascii String DecimalString.
From Stdlib Require DecimalPos.
From stdpp Require Import base gmap strings list fin_maps sorting.

Local Open Scope Z_scope.

(** ** Go values *)

Module Go.

(** [error]: a [syscall.Errno], an error made by [errors.New] or by
    [fmt.Errorf] without [%w], or an error wrapping another one
    ([fmt.Errorf("...: %w", err)]; the message keeps the format string). *)
Inductive error : Type :=
| Errno (n : Z)
| errorString (s : string)
| wrapError (format : string) (e : error).

#[global] Instance error_eq_dec : EqDecision error.
Proof. solve_decision. Defined.

Definition ENOENT : error := Errno 2.
Definition EIO : error := Errno 5.
Definition EINVAL : error := Errno 22.

(** [errors.Is(err, target)]: [target] occurs on the unwrap chain of [err]. *)
Fixpoint errors_Is (err target : error) : bool :=
  bool_decide (err = target) ||
  match err with
  | wrapError _ e => errors_Is e target
  | _ => false
  end.

(** The result of a call into a library: a value or an error. *)
Inductive result (A : Type) : Type :=
| Ok (a : A)
| Err (e : error).
Arguments Ok {A} a.
Arguments Err {A} e.

(** Go [int] (64 bits, two's complement). *)
Definition wrap_int (z : Z) : Z := (z + 2 ^ 63) mod 2 ^ 64 - 2 ^ 63.
Definition int_add (a b : Z) : Z := wrap_int (a + b).
Definition min_int : Z := - 2 ^ 63.
Definition max_int : Z := 2 ^ 63 - 1.

(** [uint32(x)] *)
Definition to_uint32 (z : Z) : Z := z mod 2 ^ 32.

(** [fmt.Sprintf] with the verb [%d] *)
Definition Sprintd (n : Z) : string := NilEmpty.string_of_int (Z.to_int n).

End Go.
Import Go.

(** ** Set algebra ([inter], [diff], [exter], [union])

    Each [for i := range m] loop runs its body once per key of [m]. The body
    writes [ret[i]] only, so distinct iterations write distinct keys and the
    order of the iterations, which Go leaves unspecified, cannot be observed
    (lemma [range_any_order]). *)

Section SetAlgebra.
Context {T : Type}.

(** [if _, exists := m[i]; exists] *)
Definition exists_in (m : gmap Z T) (i : Z) : bool :=
  bool_decide (is_Some (m !! i)).

Definition inter (m1 m2 : gmap Z T) : gmap Z T :=
  map_fold (λ i v ret, if exists_in m2 i then <[i := v]> ret else ret) ∅ m1.

Definition diff (m1 m2 : gmap Z T) : gmap Z T :=
  map_fold (λ i v ret, if negb (exists_in m2 i) then <[i := v]> ret else ret) ∅ m1.

Definition exter (m1 m2 : gmap Z T) : gmap Z T :=
  let ret := map_fold (λ i v ret,
               if negb (exists_in m2 i) then <[i := v]> ret else ret) ∅ m1 in
  map_fold (λ i v ret,
    if negb (exists_in m1 i) then <[i := v]> ret else ret) ret m2.

Definition union (m1 m2 : gmap Z T) : gmap Z T :=
  let ret := map_fold (λ i v ret, <[i := v]> ret) ∅ m1 in
  map_fold (λ i v ret, <[i := v]> ret) ret m2.

End SetAlgebra.

(** ** Library text functions used by the fdinfo parser

    Go strings are byte strings: [string] with one [ascii] per byte. *)

Module Text.

Definition byte_val (c : ascii) : Z := Z.of_N (N_of_ascii c).

(** [unicode/utf8]: the rune that starts at byte [s0], followed by the
    bytes [rest], and its width in bytes. An invalid or truncated encoding
    is the rune U+FFFD of width 1. *)
Definition RuneError : Z := 0xFFFD.

Definition is_cont (b : Z) : bool := (0x80 <=? b) && (b <=? 0xBF).

Definition DecodeRune (s0 : Z) (rest : list Z) : Z * nat :=
  if s0 <? 0x80 then (s0, 1%nat)
  else if (s0 <? 0xC2) || (0xF4 <? s0) then (RuneError, 1%nat)
  else
    let sz := if s0 <? 0xE0 then 2 else if s0 <? 0xF0 then 3 else 4 in
    let lo := if s0 =? 0xE0 then 0xA0 else if s0 =? 0xF0 then 0x90 else 0x80 in
    let hi := if s0 =? 0xED then 0x9F else if s0 =? 0xF4 then 0x8F else 0xBF in
    match rest with
    | [] => (RuneError, 1%nat)
    | s1 :: rest1 =>
      if (s1 <? lo) || (hi <? s1) then (RuneError, 1%nat)
      else if sz <=? 2 then
        (Z.lor (Z.shiftl (Z.land s0 0x1F) 6) (Z.land s1 0x3F), 2%nat)
      else
        match rest1 with
        | [] => (RuneError, 1%nat)
        | s2 :: rest2 =>
          if negb (is_cont s2) then (RuneError, 1%nat)
          else if sz <=? 3 then
            (Z.lor (Z.lor (Z.shiftl (Z.land s0 0x0F) 12)
                          (Z.shiftl (Z.land s1 0x3F) 6))
                   (Z.land s2 0x3F), 3%nat)
          else
            match rest2 with
            | [] => (RuneError, 1%nat)
            | s3 :: _ =>
              if negb (is_cont s3) then (RuneError, 1%nat)
              else
                (Z.lor (Z.lor (Z.lor (Z.shiftl (Z.land s0 0x07) 18)
                                     (Z.shiftl (Z.land s1 0x3F) 12))
                              (Z.shiftl (Z.land s2 0x3F) 6))
                       (Z.land s3 0x3F), 4%nat)
            end
        end
    end.

(** [unicode.IsSpace]: the Latin-1 cases, then the [White_Space] table. *)
Definition IsSpace (r : Z) : bool :=
  if r <=? 0xFF then
    bool_decide (r ∈ [0x09; 0x0A; 0x0B; 0x0C; 0x0D; 0x20; 0x85; 0xA0])
  else
    (r =? 0x1680) || ((0x2000 <=? r) && (r <=? 0x200A)) ||
    (r =? 0x2028) || (r =? 0x2029) || (r =? 0x202F) ||
    (r =? 0x205F) || (r =? 0x3000).

Fixpoint bytes_of (s : string) : list Z :=
  match s with
  | EmptyString => []
  | String c s' => byte_val c :: bytes_of s'
  end.

Definition snoc (f : string) (c : ascii) : string := f +:+ String c EmptyString.

(** [strings.Fields]: the maximal runs of bytes whose runes are not spaces.
    [skip] counts the bytes still to come of the rune decoded last, [space]
    tells whether that rune was a space, [cur] is the field being read.
    (For a string of ASCII bytes only, Go takes a fast path with the same
    result.) *)
Fixpoint FieldsFrom (s : string) (skip : nat) (space : bool)
    (cur : option string) : list string :=
  match s with
  | EmptyString => match cur with Some f => [f] | None => [] end
  | String c s' =>
    match skip with
    | S skip' =>
      if space then FieldsFrom s' skip' space cur
      else FieldsFrom s' skip' space (Some (snoc (default EmptyString cur) c))
    | O =>
      let '(r, w) := DecodeRune (byte_val c) (bytes_of s') in
      if IsSpace r then
        match cur with
        | Some f => f :: FieldsFrom s' (Nat.pred w) true None
        | None => FieldsFrom s' (Nat.pred w) true None
        end
      else FieldsFrom s' (Nat.pred w) false (Some (snoc (default EmptyString cur) c))
    end
  end.

Definition Fields (s : string) : list string := FieldsFrom s 0 false None.

(** [strconv.Atoi] on a 64-bit platform: an optional sign and decimal
    digits. The digits are read left to right into an unsigned 64-bit
    number, so a number that is too large is a range error even when a
    later byte is not a digit. *)
Definition ErrSyntax : error := errorString "invalid syntax".
Definition ErrRange : error := errorString "value out of range".
Definition NumError (e : error) : error := wrapError "strconv.Atoi: parsing %q: %w" e.

Fixpoint ParseUint_loop (s : string) (n : Z) : Z * option error :=
  match s with
  | EmptyString => (n, None)
  | String c s' =>
    let d := byte_val c - 48 in
    if (d <? 0) || (9 <? d) then (0, Some ErrSyntax)
    else if 2 ^ 64 `div` 10 + 1 <=? n then (2 ^ 64 - 1, Some ErrRange)
    else
      let n1 := n * 10 + d in
      if 2 ^ 64 - 1 <? n1 then (2 ^ 64 - 1, Some ErrRange)
      else ParseUint_loop s' n1
  end.

Definition ParseUint (s : string) : Z * option error :=
  match s with
  | EmptyString => (0, Some ErrSyntax)
  | _ => ParseUint_loop s 0
  end.

Definition Atoi (s : string) : Z * option error :=
  match s with
  | EmptyString => (0, Some (NumError ErrSyntax))
  | String c s' =>
    let neg := bool_decide (c = "-"%char) in
    let digits := if neg || bool_decide (c = "+"%char) then s' else s in
    match ParseUint digits with
    | (un, Some e) =>
      if bool_decide (e = ErrRange)
      then ((if neg then min_int else max_int), Some (NumError ErrRange))
      else (0, Some (NumError e))
    | (un, None) =>
      if negb neg && (2 ^ 63 <=? un) then (max_int, Some (NumError ErrRange))
      else if neg && (2 ^ 63 <? un) then (min_int, Some (NumError ErrRange))
      else ((if neg then - un else un), None)
    end
  end.

(** [bufio.Scanner] with the default split function [bufio.ScanLines].

    A reader is the bytes it delivers and the way it ends: end of file
    ([None]) or a read error. *)
Record Reader : Type := {
  r_data : string;
  r_err : option error;
}.

(** The lines of the data, without their newline; a last line that has no
    newline counts when it is not empty. *)
Fixpoint split_lines (s : string) (cur : string) : list string :=
  match s with
  | EmptyString => match cur with EmptyString => [] | _ => [cur] end
  | String c s' =>
    if bool_decide (c = "010"%char) then cur :: split_lines s' EmptyString
    else split_lines s' (snoc cur c)
  end.

(** [dropCR] *)
Fixpoint dropCR (s : string) : string :=
  match s with
  | EmptyString => EmptyString
  | String c EmptyString =>
    if bool_decide (c = "013"%char) then EmptyString else s
  | String c s' => String c (dropCR s')
  end.

(** A scanner: the raw lines it has yet to split off, and the error of the
    reader behind it. [Scan] returns [false] when no line is left, and then
    [Err] is the reader's error; it also returns [false], with [Err] being
    [ErrTooLong], at a line that does not fit the buffer. *)
Record Scanner : Type := {
  sc_lines : list string;
  sc_readErr : option error;
}.

Definition NewScanner (r : Reader) : Scanner :=
  {| sc_lines := split_lines (r_data r) EmptyString; sc_readErr := r_err r |}.

Definition MaxScanTokenSize : Z := 64 * 1024.
Definition ErrTooLong : error := errorString "bufio.Scanner: token too long".

(** The token ([Text]) that [Scan] makes of the raw line [l], if it fits. *)
Definition token (l : string) : option string :=
  if MaxScanTokenSize <=? Z.of_nat (String.length l) then None
  else Some (dropCR l).

(** What a scanner delivers when [Scan] is called until it returns [false]:
    the tokens, and then [Err]. *)
Fixpoint scanned (lines : list string) (readErr : option error)
    : list string * option error :=
  match lines with
  | [] => ([], readErr)
  | l :: lines' =>
    match token l with
    | None => ([], Some ErrTooLong)
    | Some text =>
      let '(texts, err) := scanned lines' readErr in (text :: texts, err)
    end
  end.

End Text.
Import Text.

(** ** The fdinfo parser *)

(** A function of this file that can stop with a run-time panic (an index
    out of range, a nil dereference) returns an [option]: [None] is the
    panic. *)
Definition index {A} (l : list A) (i : nat) : option A := l !! i.

(** [parseMemlockFromFDInfoReader], the [for scanner.Scan()] loop and what
    follows it. [lines] and [readErr] are the state of the scanner. *)
Fixpoint parseMemlock_scan (lines : list string) (readErr : option error)
    : option (Z * option error) :=
  match lines with
  | [] =>
    match readErr with
    | Some err => Some (0, Some (wrapError "failed to scan: %w" err))
    | None => Some (0, Some (errorString "didn't find memlock field"))
    end
  | l :: lines' =>
    match token l with
    | None => Some (0, Some (wrapError "failed to scan: %w" ErrTooLong))
    | Some text =>
      let fields := Fields text in
      if bool_decide (1 < length fields)%nat then
        f0 ← index fields 0;
        if bool_decide (f0 = "memlock:") then
          f1 ← index fields 1;
          match Atoi f1 with
          | (_, Some err) =>
            Some (0, Some (wrapError "failed converting memlock to int: %w" err))
          | (memlock, None) => Some (memlock, None)
          end
        else parseMemlock_scan lines' readErr
      else parseMemlock_scan lines' readErr
    end
  end.

Definition parseMemlockFromFDInfoReader (r : Reader) : option (Z * option error) :=
  let scanner := NewScanner r in
  parseMemlock_scan (sc_lines scanner) (sc_readErr scanner).

(** A reader over the text [s] that ends with the end of the file. *)
Definition text (s : string) : Reader := {| r_data := s; r_err := None |}.

(** The lines at which the loop stops: at least two fields, the first of
    which is [memlock:]. *)
Definition selected (line : string) : bool :=
  bool_decide (1 < length (Fields line))%nat &&
  bool_decide (Fields line !! 0%nat = Some "memlock:").

(** What the loop returns at such a line. *)
Definition converted (line : string) : Z * option error :=
  match Atoi (nth 1 (Fields line) EmptyString) with
  | (_, Some err) => (0, Some (wrapError "failed converting memlock to int: %w" err))
  | (memlock, None) => (memlock, None)
  end.

(** What the function returns when the loop ends without such a line. *)
Definition not_found (err : option error) : Z * option error :=
  match err with
  | Some err => (0, Some (wrapError "failed to scan: %w" err))
  | None => (0, Some (errorString "didn't find memlock field"))
  end.

(** ** The kernel objects and the calls that reach them *)

Module ebpf.

(** [ebpf.MapType]: the kernel's numbering. *)
Definition Hash : Z := 1.
Definition Array : Z := 2.
Definition ProgramArray : Z := 3.

Record MapInfo : Type := {
  Type_ : Z;
  id : Z;
  KeySize : Z;
  ValueSize : Z;
  MaxEntries : Z;
  Flags : Z;
  Name : string;
}.

(** The method [ID] of [MapInfo]: the ID, and whether the kernel reported one. *)
Definition MapInfo_ID (mi : MapInfo) : Z * bool := (id mi, bool_decide (0 < id mi)).

(** [ProgramInfo.MapIDs]: the IDs, and whether the kernel reported them. *)
Record ProgramInfo : Type := {
  maps : option (list Z);
}.

Definition ProgramInfo_MapIDs (pi : ProgramInfo) : list Z * bool :=
  match maps pi with
  | Some ids => (ids, true)
  | None => ([], false)
  end.

(** An open map: its file descriptor, its type, what [Info] answers, and
    what iterating over it delivers: the (key, value) pairs that are read,
    then the end of the map ([None]) or a failure. *)
Record Map : Type := {
  Map_FD : Z;
  Map_Type : Z;
  Map_Info : result MapInfo;
  Map_entries : list (Z * Z);
  Map_iterFail : option error;
}.

(** An open program. *)
Record Program : Type := {
  Program_FD : Z;
  Program_Info : result ProgramInfo;
}.

(** [ebpf.MapIterator]. [Next] returns [false] once the iterator has met an
    error or the end of the map; [Err] is the error met, if any. *)
Record MapIterator : Type := {
  mi_entries : list (Z * Z);
  mi_fail : option error;
  mi_err : option error;
  mi_done : bool;
}.

Definition Map_Iterate (m : Map) : MapIterator :=
  {| mi_entries := Map_entries m; mi_fail := Map_iterFail m;
     mi_err := None; mi_done := false |}.

(** [Next(&key, &value)]: the pair written to [key] and [value] when the
    result is [true], and the iterator afterwards. *)
Definition MapIterator_Next (mi : MapIterator) : option (Z * Z) * MapIterator :=
  if bool_decide (is_Some (mi_err mi)) || mi_done mi then (None, mi)
  else
    match mi_entries mi with
    | kv :: rest =>
      (Some kv, {| mi_entries := rest; mi_fail := mi_fail mi;
                   mi_err := None; mi_done := false |})
    | [] =>
      match mi_fail mi with
      | Some e => (None, {| mi_entries := []; mi_fail := mi_fail mi;
                            mi_err := Some e; mi_done := false |})
      | None => (None, {| mi_entries := []; mi_fail := None;
                          mi_err := None; mi_done := true |})
      end
    end.

Definition MapIterator_Err (mi : MapIterator) : option error := mi_err mi.

End ebpf.
Import ebpf.

(** What the library and the operating system answer. [WalkDir root] is the
    sequence of calls that [filepath.WalkDir] makes to its callback when the
    callback never fails: the path and [d.IsDir()], or [None] for the [nil]
    entry that the callback is given when the root cannot be examined. *)
Record Kernel : Type := {
  MapGetNextID : Z → result Z;
  NewMapFromID : Z → result Map;
  NewProgramFromID : Z → result Program;
  LoadPinnedMap : string → result Map;
  LoadPinnedProgram : string → result Program;
  os_Readlink : string → result string;
  os_Open : string → result Reader;
  os_Stat : string → option error;
  WalkDir : string → list (string * option bool);
}.

Record ExtendedMapInfo : Type := {
  MapInfo_ : MapInfo;
  Memlock : Z;
}.

(** [TotalByteMemlock] *)
Definition TotalByteMemlock (infos : list ExtendedMapInfo) : Z :=
  foldl (λ sum info, int_add sum (Memlock info)) 0 infos.

Section WithKernel.
Variable k : Kernel.

Definition parseMemlockFromFDInfo (fd : Z) : option (Z * option error) :=
  let path := "/proc/self/fdinfo/" +:+ Sprintd fd in
  match os_Open k path with
  | Err err => Some (0, Some (wrapError "failed to open file %q: %w" err))
  | Ok file => parseMemlockFromFDInfoReader file
  end.

Definition isBPFObject (object : string) (fd : Z) : bool * option error :=
  match os_Readlink k ("/proc/self/fd/" +:+ Sprintd fd) with
  | Err err => (false, Some (wrapError "failed to readlink the fd (%d): %w" err))
  | Ok readlink => (bool_decide (readlink = "anon_inode:bpf-" +:+ object), None)
  end.

Definition isProg (fd : Z) : bool * option error := isBPFObject "prog" fd.
Definition isMap (fd : Z) : bool * option error := isBPFObject "map" fd.

(** *** [FindAllMaps]

    The events of one run: the cursor is asked for the ID after [prev], the
    [h]-th handle is opened (on map [id]), the [h]-th handle is closed. *)
Inductive Event : Type :=
| EvNextID (prev : Z)
| EvOpen (h : nat) (id : Z)
| EvClose (h : nat).

(** A [return]: the deferred calls run, last registered first. *)
Definition return_ {A} (v : A) (defers : list nat) (trace : list Event)
    : option (A * list Event) :=
  Some (v, trace ++ (EvClose <$> defers)).

(** The [for] loop of [FindAllMaps]. [defers] is the stack of the handles
    whose [Close] has been deferred, [trace] the events so far. [None]: the
    loop did not return within [fuel] iterations (or panicked). *)
Fixpoint FindAllMaps_loop (fuel : nat) (mapID : Z)
    (mapInfos : list ExtendedMapInfo) (defers : list nat) (trace : list Event)
    : option ((list ExtendedMapInfo * option error) * list Event) :=
  match fuel with
  | O => None
  | S fuel' =>
    let trace := trace ++ [EvNextID mapID] in
    match MapGetNextID k mapID with
    | Err err =>
      if errors_Is err ENOENT then return_ (mapInfos, None) defers trace
      else return_ ([], Some (wrapError
             "didn't receive ENOENT at the end of iteration: %w" err)) defers trace
    | Ok mapID =>
      match NewMapFromID k mapID with
      | Err err =>
        return_ ([], Some (wrapError "failed to retrieve map from ID: %w" err))
                defers trace
      | Ok m =>
        let h := length defers in
        let trace := trace ++ [EvOpen h mapID] in
        let defers := h :: defers in
        match Map_Info m with
        | Err err =>
          return_ ([], Some (wrapError "failed to retrieve map info: %w" err))
                  defers trace
        | Ok info =>
          '(memlock, err) ← parseMemlockFromFDInfo (Map_FD m);
          match err with
          | Some err =>
            return_ ([], Some (wrapError
              "failed parsing fdinfo to retrieve memlock: %w" err)) defers trace
          | None =>
            FindAllMaps_loop fuel' mapID
              (mapInfos ++ [{| MapInfo_ := info; Memlock := memlock |}])
              defers trace
          end
        end
      end
    end
  end.

Definition FindAllMaps_run (fuel : nat)
    : option ((list ExtendedMapInfo * option error) * list Event) :=
  FindAllMaps_loop fuel 0 [] [] [].

Definition FindAllMaps (fuel : nat) : option (list ExtendedMapInfo * option error) :=
  fst <$> FindAllMaps_run fuel.

(** *** [FindPinnedMaps] *)

(** [filepath.WalkDir]: the callback [fn] is called on the entries in turn,
    with the state [st] that it updates; its first error ends the walk and
    is the result. *)
Fixpoint walk {S} (fn : string → option bool → S → option (S * option error))
    (entries : list (string * option bool)) (st : S) : option (S * option error) :=
  match entries with
  | [] => Some (st, None)
  | (path, d) :: entries' =>
    '(st, err) ← fn path d st;
    match err with
    | Some err => Some (st, Some err)
    | None => walk fn entries' st
    end
  end.

(** The callback of [FindPinnedMaps]; [m.Close()] is deferred to its
    return. *)
Definition FindPinnedMaps_fn (path : string) (d : option bool)
    (infos : list ExtendedMapInfo) : option (list ExtendedMapInfo * option error) :=
  isDir ← d;
  if isDir : bool then Some (infos, None)
  else
    match LoadPinnedMap k path with
    | Err err => Some (infos, Some (wrapError "failed to load pinned map %q: %w" err))
    | Ok m =>
      match isMap (Map_FD m) with
      | (_, Some err) => Some (infos, Some err)
      | (false, None) => Some (infos, None)
      | (true, None) =>
        match Map_Info m with
        | Err err => Some (infos, Some (wrapError "failed to retrieve map info: %w" err))
        | Ok info =>
          '(memlock, err) ← parseMemlockFromFDInfo (Map_FD m);
          match err with
          | Some err =>
            Some (infos, Some (wrapError
              "failed to parse memlock from fd (%d) info: %w" err))
          | None =>
            Some (infos ++ [{| MapInfo_ := info; Memlock := memlock |}], None)
          end
        end
      end
    end.

Definition FindPinnedMaps (path : string)
    : option (list ExtendedMapInfo * option error) :=
  '(infos, err) ← walk FindPinnedMaps_fn (WalkDir k path) [];
  match err with
  | Some err => Some ([], Some err)
  | None => Some (infos, None)
  end.

(** *** [mapIDsFromProgs], [mapIDsFromPinnedProgs] *)

(** [maps.Keys] of a [map[int]bool]: the keys, each once, in some order. *)
Definition Keys (mapSet : gset Z) : list Z := elements mapSet.

(** [for _, id := range ids { mapSet[id] = true }] *)
Definition add_ids (mapSet : gset Z) (ids : list Z) : gset Z :=
  foldl (λ mapSet id, {[ id ]} ∪ mapSet) mapSet ids.

Definition mapIDsFromProgs (prog : option Program) : list Z * option error :=
  match prog with
  | None => ([], Some (errorString "prog is nil"))
  | Some prog =>
    match Program_Info prog with
    | Err err => ([], Some (wrapError "failed to retrieve prog info: %w" err))
    | Ok progInfo =>
      let '(ids, available) := ProgramInfo_MapIDs progInfo in
      if negb available then
        ([], Some (errorString "can't link prog to map IDs, field available from 4.15"))
      else (Keys (add_ids ∅ ids), None)
    end
  end.

(** The callback of the walk; the state is [mapSet] and [progArrays]. *)
Definition mapIDsFromPinnedProgs_fn (path : string) (d : option bool)
    (st : gset Z * list (option Map))
    : option ((gset Z * list (option Map)) * option error) :=
  let '(mapSet, progArrays) := st in
  isDir ← d;
  if isDir : bool then Some (st, None)
  else
    match LoadPinnedProgram k path with
    | Err err => Some (st, Some (wrapError "failed to load pinned object %q: %w" err))
    | Ok prog =>
      match isProg (Program_FD prog) with
      | (_, Some err) => Some (st, Some err)
      | (false, None) =>
        match isMap (Program_FD prog) with
        | (_, Some err) => Some (st, Some err)
        | (true, None) =>
          match LoadPinnedMap k path with
          | Err err =>
            Some (st, Some (wrapError "failed to load pinned map %q: %w" err))
          | Ok m =>
            if bool_decide (Map_Type m = ProgramArray)
            then Some ((mapSet, progArrays ++ [Some m]), None)
            else Some (st, None)
          end
        | (false, None) => Some (st, None)
        end
      | (true, None) =>
        match mapIDsFromProgs (Some prog) with
        | (_, Some err) =>
          Some (st, Some (wrapError "failed to retrieve map IDs from prog: %w" err))
        | (newIDs, None) => Some ((add_ids mapSet newIDs, progArrays), None)
        end
      end
    end.

(** [for progArrayIterator.Next(&key, &value) { ... }]. An error in the
    result is the [return nil, err] of the body. [None]: the loop did not
    end within [fuel] iterations. *)
Fixpoint progArray_loop (fuel : nat) (progArrayIterator : MapIterator)
    (progIDs : list Z) : option (list Z * option error) :=
  match fuel with
  | O => None
  | S fuel' =>
    match MapIterator_Next progArrayIterator with
    | (None, _) => Some (progIDs, None)
    | (Some (key, value), progArrayIterator) =>
      let progIDs := progIDs ++ [value] in
      match MapIterator_Err progArrayIterator with
      | Some err =>
        Some ([], Some (wrapError "failed to iterate over prog array map: %w" err))
      | None => progArray_loop fuel' progArrayIterator progIDs
      end
    end
  end.

(** [for _, progArray := range progArrays { ... }] *)
Fixpoint progIDs_loop (progArrays : list (option Map)) (progIDs : list Z)
    : option (list Z * option error) :=
  match progArrays with
  | [] => Some (progIDs, None)
  | None :: _ => Some ([], Some (errorString "prog array reference is nil"))
  | Some progArray :: progArrays' =>
    '(progIDs, err) ← progArray_loop (S (length (Map_entries progArray)))
                        (Map_Iterate progArray) progIDs;
    match err with
    | Some err => Some ([], Some err)
    | None => progIDs_loop progArrays' progIDs
    end
  end.

(** [for _, progID := range progIDs { ... }] *)
Fixpoint tailCalls_loop (progIDs : list Z) (mapSet : gset Z)
    : gset Z * option error :=
  match progIDs with
  | [] => (mapSet, None)
  | progID :: progIDs' =>
    match NewProgramFromID k (to_uint32 progID) with
    | Err err =>
      (mapSet, Some (wrapError "failed to create new program from id %d: %w" err))
    | Ok prog =>
      match mapIDsFromProgs (Some prog) with
      | (_, Some err) =>
        (mapSet, Some (wrapError "failed to retrieve map IDs from prog: %w" err))
      | (newIDs, None) => tailCalls_loop progIDs' (add_ids mapSet newIDs)
      end
    end
  end.

Definition mapIDsFromPinnedProgs (path : string) : option (list Z * option error) :=
  '((mapSet, progArrays), err) ← walk mapIDsFromPinnedProgs_fn (WalkDir k path) (∅, []);
  match err with
  | Some err => Some ([], Some (wrapError "failed walking the path %q: %w" err))
  | None =>
    '(progIDs, err) ← progIDs_loop progArrays [];
    match err with
    | Some err => Some ([], Some err)
    | None =>
      match tailCalls_loop progIDs mapSet with
      | (_, Some err) => Some ([], Some err)
      | (mapSet, None) => Some (Keys mapSet, None)
      end
    end
  end.

(** *** [memlockInfoFromMapID], [FindMapsUsedByPinnedProgs] *)

Definition zeroExtendedMapInfo : ExtendedMapInfo :=
  {| MapInfo_ := {| Type_ := 0; id := 0; KeySize := 0; ValueSize := 0;
                    MaxEntries := 0; Flags := 0; Name := EmptyString |};
     Memlock := 0 |}.

Definition memlockInfoFromMapID (id : Z) : option (ExtendedMapInfo * option error) :=
  match NewMapFromID k (to_uint32 id) with
  | Err err =>
    Some (zeroExtendedMapInfo, Some (wrapError "failed creating a map FD from ID: %w" err))
  | Ok m =>
    '(memlock, err) ← parseMemlockFromFDInfo (Map_FD m);
    match err with
    | Some err =>
      Some (zeroExtendedMapInfo, Some (wrapError "failed parsing fdinfo for memlock: %w" err))
    | None =>
      match Map_Info m with
      | Err err =>
        Some (zeroExtendedMapInfo, Some (wrapError "failed retrieving info from map: %w" err))
      | Ok info => Some ({| MapInfo_ := info; Memlock := memlock |}, None)
      end
    end
  end.

Fixpoint memlockInfos_loop (mapIDs : list Z) (mapInfos : list ExtendedMapInfo)
    : option (list ExtendedMapInfo * option error) :=
  match mapIDs with
  | [] => Some (mapInfos, None)
  | mapID :: mapIDs' =>
    '(memlockInfo, err) ← memlockInfoFromMapID mapID;
    match err with
    | Some err =>
      Some ([], Some (wrapError "failed retrieving map memlock from ID: %w" err))
    | None => memlockInfos_loop mapIDs' (mapInfos ++ [memlockInfo])
    end
  end.

Definition FindMapsUsedByPinnedProgs (path : string)
    : option (list ExtendedMapInfo * option error) :=
  '(mapIDs, err) ← mapIDsFromPinnedProgs path;
  match err with
  | Some err => Some ([], Some (wrapError "failed retrieving map IDs: %w" err))
  | None => memlockInfos_loop mapIDs []
  end.

End WithKernel.

(** ** The report ([RunMapsChecks]) *)

Definition TetragonBPFFS : string := "/sys/fs/bpf/tetragon".

Record DiffMap : Type := {
  dm_ID : Z;
  dm_Name : string;
  dm_Type : string;
  dm_KeySize : Z;
  dm_ValueSize : Z;
  dm_MaxEntries : Z;
  dm_Memlock : Z;
}.

(** [PercentOfTotal], a [float64], is not part of the embedding. *)
Record AggregatedMap : Type := {
  am_Name : string;
  am_Type : string;
  am_KeySize : Z;
  am_ValueSize : Z;
  am_MaxEntries : Z;
  Count : Z;
  TotalMemlock : Z;
}.

Record MapsChecksOutput : Type := {
  TotalByteMemlock_AllMaps : Z;
  TotalByteMemlock_PinnedProgsMaps : Z;
  TotalByteMemlock_PinnedMaps : Z;
  MapsStats_PinnedProgsMaps : Z;
  MapsStats_PinnedMaps : Z;
  MapsStats_Inter : Z;
  MapsStats_Exter : Z;
  MapsStats_Union : Z;
  MapsStats_Diff : Z;
  DiffMaps : list DiffMap;
  AggregatedMaps : list AggregatedMap;
}.

(** [for _, v := range m]: the values of [m], in the order of one
    iteration. Go does not fix that order; the properties below are stated
    for every order. *)
Definition range_values {K} `{Countable K} {V} (m : gmap K V) : list V :=
  (map_to_list m).*2.

(** [len(m)] *)
Definition len {K} `{Countable K} {V} (m : gmap K V) : Z := Z.of_nat (size m).

(** The loops that key a list of records by map ID. *)
Fixpoint keyByID (msg : string) (infos : list ExtendedMapInfo)
    (set : gmap Z ExtendedMapInfo) : gmap Z ExtendedMapInfo * option error :=
  match infos with
  | [] => (set, None)
  | info :: infos' =>
    let '(id, ok) := MapInfo_ID (MapInfo_ info) in
    if negb ok then (set, Some (errorString msg))
    else keyByID msg infos' (<[id := info]> set)
  end.

(** The elements of [aggregatedMapsSet]: a record and a count. *)
Definition aggregated : Type := ExtendedMapInfo * Z.

(** The body of [for _, m := range union], on [aggregatedMapsSet] and
    [total]. *)
Definition aggregate_step (st : gmap string aggregated * Z) (m : ExtendedMapInfo)
    : gmap string aggregated * Z :=
  let '(aggregatedMapsSet, total) := st in
  let total := int_add total (Memlock m) in
  match aggregatedMapsSet !! Name (MapInfo_ m) with
  | Some (e, count) =>
    let e := {| MapInfo_ := MapInfo_ e; Memlock := int_add (Memlock e) (Memlock m) |} in
    let count := int_add count 1 in
    (<[Name (MapInfo_ m) := (e, count)]> aggregatedMapsSet, total)
  | None => (<[Name (MapInfo_ m) := (m, 1)]> aggregatedMapsSet, total)
  end.

(** The loop, run over the records of the union in the order [records]. *)
Definition aggregate (records : list ExtendedMapInfo) : gmap string aggregated * Z :=
  foldl aggregate_step (∅, 0) records.

(** The order that [sort.Slice] establishes: descending [Memlock]. *)
Definition by_memlock (a b : aggregated) : Prop := Memlock b.1 ≤ Memlock a.1.

#[global] Instance by_memlock_dec : RelDecision by_memlock.
Proof. intros a b. unfold by_memlock. apply _. Defined.

Section Report.
Variable TypeString : Z → string.

Definition toDiffMap (id : Z) (d : ExtendedMapInfo) : DiffMap :=
  {| dm_ID := id;
     dm_Name := Name (MapInfo_ d);
     dm_Type := TypeString (Type_ (MapInfo_ d));
     dm_KeySize := KeySize (MapInfo_ d);
     dm_ValueSize := ValueSize (MapInfo_ d);
     dm_MaxEntries := MaxEntries (MapInfo_ d);
     dm_Memlock := Memlock d |}.

Fixpoint diffMaps_loop (ds : list ExtendedMapInfo) (out : list DiffMap)
    : list DiffMap * option error :=
  match ds with
  | [] => (out, None)
  | d :: ds' =>
    let '(id, ok) := MapInfo_ID (MapInfo_ d) in
    if negb ok then
      (out, Some (errorString "failed retrieving map ID, need >= 4.13, kernel is too old"))
    else diffMaps_loop ds' (out ++ [toDiffMap id d])
  end.

Definition toAggregatedMap (m : aggregated) : AggregatedMap :=
  {| am_Name := Name (MapInfo_ m.1);
     am_Type := TypeString (Type_ (MapInfo_ m.1));
     am_KeySize := KeySize (MapInfo_ m.1);
     am_ValueSize := ValueSize (MapInfo_ m.1);
     am_MaxEntries := MaxEntries (MapInfo_ m.1);
     Count := m.2;
     TotalMemlock := Memlock m.1 |}.

(** The last loop: [out.AggregatedMaps], from the sorted [aggregatedMaps]. *)
Definition aggregatedMaps (sorted : list aggregated) : list AggregatedMap :=
  toAggregatedMap <$> sorted.

(** [RunMapsChecks] after the three collections have been retrieved. The
    iterations over maps take the order of [range_values], and [sort.Slice]
    is a merge sort. *)
Definition report (allMaps pinnedProgsMaps pinnedMaps : list ExtendedMapInfo)
    : option MapsChecksOutput * option error :=
  match keyByID "failed retrieving progs ID, need >= 4.13, kernel is too old"
          pinnedProgsMaps ∅ with
  | (_, Some err) => (None, Some err)
  | (pinnedProgsMapsSet, None) =>
    match keyByID "failed retrieving map ID, need >= 4.13, kernel is too old"
            pinnedMaps ∅ with
    | (_, Some err) => (None, Some err)
    | (pinnedMapsSet, None) =>
      let diff := diff pinnedMapsSet pinnedProgsMapsSet in
      let union := union pinnedMapsSet pinnedProgsMapsSet in
      match diffMaps_loop (range_values diff) [] with
      | (_, Some err) => (None, Some err)
      | (diffMaps, None) =>
        let '(aggregatedMapsSet, total) := aggregate (range_values union) in
        let sorted := merge_sort by_memlock (range_values aggregatedMapsSet) in
        (Some {| TotalByteMemlock_AllMaps := TotalByteMemlock allMaps;
                 TotalByteMemlock_PinnedProgsMaps := TotalByteMemlock pinnedProgsMaps;
                 TotalByteMemlock_PinnedMaps := TotalByteMemlock pinnedMaps;
                 MapsStats_PinnedProgsMaps := len pinnedProgsMapsSet;
                 MapsStats_PinnedMaps := Z.of_nat (length pinnedMaps);
                 MapsStats_Inter := len (inter pinnedMapsSet pinnedProgsMapsSet);
                 MapsStats_Exter := len (exter pinnedMapsSet pinnedProgsMapsSet);
                 MapsStats_Union := len union;
                 MapsStats_Diff := len diff;
                 DiffMaps := diffMaps;
                 AggregatedMaps := aggregatedMaps sorted |}, None)
      end
    end
  end.

Definition RunMapsChecks (k : Kernel) (fuel : nat)
    : option (option MapsChecksOutput * option error) :=
  match os_Stat k TetragonBPFFS with
  | Some err =>
    Some (None, Some (wrapError
      "make sure tetragon is running and you have enough permissions: %w" err))
  | None =>
    '(allMaps, err) ← FindAllMaps k fuel;
    match err with
    | Some err => Some (None, Some (wrapError "failed to retrieve all maps: %w" err))
    | None =>
      '(pinnedProgsMaps, err) ← FindMapsUsedByPinnedProgs k TetragonBPFFS;
      match err with
      | Some err =>
        Some (None, Some (wrapError "failed to retrieve maps used by pinned progs: %w" err))
      | None =>
        '(pinnedMaps, err) ← FindPinnedMaps k TetragonBPFFS;
        match err with
        | Some err =>
          Some (None, Some (wrapError "failed to retrieve pinned maps: %w" err))
        | None => Some (report allMaps pinnedProgsMaps pinnedMaps)
        end
      end
    end
  end.

End Report.

(** ** Simulated kernels

    The kernels on which the examples are evaluated are built from tables:
    the objects by ID, the pinned objects by path, and for each file
    descriptor the target of [/proc/self/fd/<fd>] and the text of
    [/proc/self/fdinfo/<fd>]. *)

Module Sim.

Fixpoint assoc {K A} `{EqDecision K} (tbl : list (K * A)) (key : K) : option A :=
  match tbl with
  | [] => None
  | (k', a) :: tbl' => if decide (k' = key) then Some a else assoc tbl' key
  end.

(** The cursor over the IDs [ids], in this order: the ID after [prev], and
    the wrapped [ENOENT] after the last one. *)
Fixpoint cursor (ids : list Z) (prev : Z) : result Z :=
  match ids with
  | [] => Err (wrapError "get next id: %w" ENOENT)
  | id :: ids' => if prev <? id then Ok id else cursor ids' prev
  end.

Record Tables : Type := {
  next : Z → result Z;
  mapsByID : list (Z * result Map);
  progsByID : list (Z * result Program);
  pinnedAsMap : list (string * result Map);
  pinnedAsProg : list (string * result Program);
  fds : list (Z * (string * Reader));
  tree : list (string * list (string * option bool));
}.

Definition fd_path (dir : string) (path : string) (tbl : list (Z * (string * Reader)))
    : option (string * Reader) :=
  snd <$> List.find (λ e, bool_decide (path = dir +:+ Sprintd e.1)) tbl.

Definition kernel (t : Tables) : Kernel :=
  {| MapGetNextID := next t;
     NewMapFromID := λ id, default (Err ENOENT) (assoc (mapsByID t) id);
     NewProgramFromID := λ id, default (Err ENOENT) (assoc (progsByID t) id);
     LoadPinnedMap := λ path, default (Err ENOENT) (assoc (pinnedAsMap t) path);
     LoadPinnedProgram := λ path, default (Err ENOENT) (assoc (pinnedAsProg t) path);
     os_Readlink := λ path,
       match fd_path "/proc/self/fd/" path (fds t) with
       | Some (link, _) => Ok link
       | None => Err ENOENT
       end;
     os_Open := λ path,
       match fd_path "/proc/self/fdinfo/" path (fds t) with
       | Some (_, fdinfo) => Ok fdinfo
       | None => Err ENOENT
       end;
     os_Stat := λ path,
       match assoc (tree t) path with Some _ => None | None => Some ENOENT end;
     WalkDir := λ root, default [(root, None)] (assoc (tree t) root) |}.

(** The text of [/proc/self/fdinfo/<fd>] for a map. *)
Definition fdinfo (memlock : string) : Reader :=
  text ("pos:	0
flags:	02000002
mnt_id:	15
ino:	1057
map_type:	1
key_size:	4
value_size:	8
max_entries:	1024
memlock:	" +:+ memlock +:+ "
map_id:	7
frozen:	0
").

Definition info (typ id : Z) (name : string) : MapInfo :=
  {| Type_ := typ; id := id; KeySize := 4; ValueSize := 8; MaxEntries := 1024;
     Flags := 0; Name := name |}.

(** An open map of type [typ] with ID [id], on the descriptor [fd]. *)
Definition map (fd typ id : Z) (name : string) (entries : list (Z * Z))
    (iterFail : option error) : Map :=
  {| Map_FD := fd; Map_Type := typ; Map_Info := Ok (info typ id name);
     Map_entries := entries; Map_iterFail := iterFail |}.

(** An open program that refers to the maps [ids], on the descriptor [fd]. *)
Definition prog (fd : Z) (ids : list Z) : Program :=
  {| Program_FD := fd; Program_Info := Ok {| maps := Some ids |} |}.

(** What [LoadPinnedProgram] returns on a pinned map and [LoadPinnedMap] on
    a pinned program: a handle on the descriptor, with no usable content. *)
Definition garbage_prog (fd : Z) : Program :=
  {| Program_FD := fd; Program_Info := Err EINVAL |}.

Definition garbage_map (fd : Z) : Map :=
  {| Map_FD := fd; Map_Type := 0; Map_Info := Err EINVAL;
     Map_entries := []; Map_iterFail := None |}.

(** [MapType.String], for the types used here. *)
Definition TypeString (typ : Z) : string :=
  if typ =? Hash then "Hash"
  else if typ =? Array then "Array"
  else if typ =? ProgramArray then "ProgramArray"
  else "MapType(" +:+ Sprintd typ +:+ ")".

(** The record that the enumerators make of such a map. *)
Definition record (typ id : Z) (name : string) (memlock : Z) : ExtendedMapInfo :=
  {| MapInfo_ := info typ id name; Memlock := memlock |}.

End Sim.

(** Three maps, with the IDs 1, 2 and 3. *)
Definition three_maps : Kernel :=
  Sim.kernel
    {| Sim.next := Sim.cursor [1; 2; 3];
       Sim.mapsByID := [(1, Ok (Sim.map 11 Hash 1 "execve_map" [] None));
                        (2, Ok (Sim.map 12 Array 2 "tg_conf_map" [] None));
                        (3, Ok (Sim.map 13 Hash 3 "execve_map" [] None))];
       Sim.progsByID := [];
       Sim.pinnedAsMap := [];
       Sim.pinnedAsProg := [];
       Sim.fds := [(11, ("anon_inode:bpf-map", Sim.fdinfo "4096"));
                   (12, ("anon_inode:bpf-map", Sim.fdinfo "8192"));
                   (13, ("anon_inode:bpf-map", Sim.fdinfo "12288"))];
       Sim.tree := [] |}.

(** The same, with a cursor that fails on its second call. *)
Definition failing_cursor : Kernel :=
  Sim.kernel
    {| Sim.next := λ prev, if prev =? 0 then Ok 1 else Err EIO;
       Sim.mapsByID := [(1, Ok (Sim.map 11 Hash 1 "execve_map" [] None))];
       Sim.progsByID := [];
       Sim.pinnedAsMap := [];
       Sim.pinnedAsProg := [];
       Sim.fds := [(11, ("anon_inode:bpf-map", Sim.fdinfo "4096"))];
       Sim.tree := [] |}.

(** A directory with a pinned program and a pinned map, on a library whose
    [LoadPinnedMap] refuses an object that is not a map. *)
Definition refusing_load : Kernel :=
  Sim.kernel
    {| Sim.next := Sim.cursor [];
       Sim.mapsByID := [];
       Sim.progsByID := [];
       Sim.pinnedAsMap :=
         [("/sys/fs/bpf/tetragon/event_execve", Err (errorString "%s is not a Map"));
          ("/sys/fs/bpf/tetragon/execve_map", Ok (Sim.map 21 Hash 7 "execve_map" [] None))];
       Sim.pinnedAsProg := [];
       Sim.fds := [(21, ("anon_inode:bpf-map", Sim.fdinfo "4096"))];
       Sim.tree :=
         [("/sys/fs/bpf/tetragon",
           [("/sys/fs/bpf/tetragon", Some true);
            ("/sys/fs/bpf/tetragon/event_execve", Some false);
            ("/sys/fs/bpf/tetragon/execve_map", Some false)])] |}.

(** The same directory, on a library whose [LoadPinnedMap] returns a handle
    for any pinned object. *)
Definition garbage_load : Kernel :=
  Sim.kernel
    {| Sim.next := Sim.cursor [];
       Sim.mapsByID := [];
       Sim.progsByID := [];
       Sim.pinnedAsMap :=
         [("/sys/fs/bpf/tetragon/event_execve", Ok (Sim.garbage_map 20));
          ("/sys/fs/bpf/tetragon/execve_map", Ok (Sim.map 21 Hash 7 "execve_map" [] None))];
       Sim.pinnedAsProg := [];
       Sim.fds := [(20, ("anon_inode:bpf-prog", text EmptyString));
                   (21, ("anon_inode:bpf-map", Sim.fdinfo "4096"))];
       Sim.tree :=
         [("/sys/fs/bpf/tetragon",
           [("/sys/fs/bpf/tetragon", Some true);
            ("/sys/fs/bpf/tetragon/event_execve", Some false);
            ("/sys/fs/bpf/tetragon/execve_map", Some false)])] |}.

(** A directory with a pinned program that refers to map 5 and a pinned
    program array whose slot 0 holds program 42, which refers to map 7.
    Iterating over the array delivers that slot and then ends as
    [iterFail] tells. *)
Definition tail_calls (iterFail : option error) : Kernel :=
  Sim.kernel
    {| Sim.next := Sim.cursor [];
       Sim.mapsByID := [];
       Sim.progsByID := [(42, Ok (Sim.prog 33 [7]))];
       Sim.pinnedAsMap :=
         [("/sys/fs/bpf/tetragon/execve_calls",
           Ok (Sim.map 32 ProgramArray 9 "execve_calls" [(0, 42)] iterFail))];
       Sim.pinnedAsProg :=
         [("/sys/fs/bpf/tetragon/event_execve", Ok (Sim.prog 30 [5]));
          ("/sys/fs/bpf/tetragon/execve_calls", Ok (Sim.garbage_prog 31))];
       Sim.fds := [(30, ("anon_inode:bpf-prog", text EmptyString));
                   (31, ("anon_inode:bpf-map", Sim.fdinfo "4096"));
                   (32, ("anon_inode:bpf-map", Sim.fdinfo "4096"));
                   (33, ("anon_inode:bpf-prog", text EmptyString))];
       Sim.tree :=
         [("/sys/fs/bpf/tetragon",
           [("/sys/fs/bpf/tetragon", Some true);
            ("/sys/fs/bpf/tetragon/event_execve", Some false);
            ("/sys/fs/bpf/tetragon/execve_calls", Some false)])] |}.

(** ** Vocabulary of the statements *)

(** From [prev] on, the cursor yields the IDs [ids], in this order. *)
Fixpoint cursor_yields (k : Kernel) (prev : Z) (ids : list Z) : Prop :=
  match ids with
  | [] => True
  | id :: ids' => MapGetNextID k prev = Ok id ∧ cursor_yields k id ids'
  end.

(** The map [id] can be opened and its metadata and memlock read; [record]
    is the record made of them. *)
Definition inspected (k : Kernel) (id : Z) (record : ExtendedMapInfo) : Prop :=
  ∃ m, NewMapFromID k id = Ok m
       ∧ Map_Info m = Ok (MapInfo_ record)
       ∧ parseMemlockFromFDInfo k (Map_FD m) = Some (Memlock record, None).

(** Opening the map [id], reading its metadata or reading its memlock
    fails, with the error [err] that [FindAllMaps] makes of the failure. *)
Definition inspection_fails (k : Kernel) (id : Z) (err : error) : Prop :=
  (∃ e, NewMapFromID k id = Err e
        ∧ err = wrapError "failed to retrieve map from ID: %w" e)
  ∨ (∃ m e, NewMapFromID k id = Ok m ∧ Map_Info m = Err e
            ∧ err = wrapError "failed to retrieve map info: %w" e)
  ∨ (∃ m info n e, NewMapFromID k id = Ok m ∧ Map_Info m = Ok info
       ∧ parseMemlockFromFDInfo k (Map_FD m) = Some (n, Some e)
       ∧ err = wrapError "failed parsing fdinfo to retrieve memlock: %w" e).

(** The events of enumerating the IDs [ids] from [prev] on, when [h]
    handles have been opened before. *)
Fixpoint steps (prev : Z) (ids : list Z) (h : nat) : list Event :=
  match ids with
  | [] => []
  | id :: ids' => EvNextID prev :: EvOpen h id :: steps id ids' (S h)
  end.

(** The handles that a trace opens, and the handles that it closes. *)
Definition opened (trace : list Event) : list nat :=
  omap (λ ev, match ev with EvOpen h _ => Some h | _ => None end) trace.

Definition closed (trace : list Event) : list nat :=
  omap (λ ev, match ev with EvClose h => Some h | _ => None end) trace.

(** Every handle that the trace opens is closed before the cursor is asked
    again. *)
Fixpoint closed_before_next_step (h : nat) (trace : list Event) : bool :=
  match trace with
  | [] => false
  | EvClose h' :: trace' =>
    if decide (h = h') then true else closed_before_next_step h trace'
  | EvNextID _ :: _ => false
  | EvOpen _ _ :: trace' => closed_before_next_step h trace'
  end.

Fixpoint released_promptly (trace : list Event) : bool :=
  match trace with
  | [] => true
  | EvOpen h _ :: trace' => closed_before_next_step h trace' && released_promptly trace'
  | _ :: trace' => released_promptly trace'
  end.

(** The sum of a list of [int], as a Go loop computes it, and in [Z]. *)
Definition sum_int (l : list Z) : Z := foldl int_add 0 l.

Definition Zsum (l : list Z) : Z := foldr Z.add 0 l.

(** The sum in [Z] of the [Memlock] of the elements of [aggregatedMapsSet]. *)
Definition aggregated_memlock (set : gmap string aggregated) : Z :=
  Zsum ((λ e : aggregated, Memlock e.1) <$> range_values set).

(** Three records under two names. *)
Definition two_names : gmap Z ExtendedMapInfo :=
  {[ 1 := Sim.record Hash 1 "execve_map" 4096;
     2 := Sim.record Array 2 "tg_conf_map" 8192;
     3 := Sim.record Hash 3 "execve_map" 12288 ]}.

(** What the callback of [FindPinnedMaps] meets at an entry that it passes:
    a directory, a pinned object that is not a map (no record), or a pinned
    map and its record. *)
Inductive visited (k : Kernel) : string * option bool → option ExtendedMapInfo → Prop :=
| visited_dir path :
    visited k (path, Some true) None
| visited_not_map path m :
    LoadPinnedMap k path = Ok m →
    isMap k (Map_FD m) = (false, None) →
    visited k (path, Some false) None
| visited_map path m record :
    LoadPinnedMap k path = Ok m →
    isMap k (Map_FD m) = (true, None) →
    Map_Info m = Ok (MapInfo_ record) →
    parseMemlockFromFDInfo k (Map_FD m) = Some (Memlock record, None) →
    visited k (path, Some false) (Some record).

(** The failures of that callback at a non-directory entry, with the error
    that it returns. *)
Inductive visit_fails (k : Kernel) : string * option bool → error → Prop :=
| fails_load path e :
    LoadPinnedMap k path = Err e →
    visit_fails k (path, Some false) (wrapError "failed to load pinned map %q: %w" e)
| fails_classify path m b e :
    LoadPinnedMap k path = Ok m →
    isMap k (Map_FD m) = (b, Some e) →
    visit_fails k (path, Some false) e
| fails_info path m e :
    LoadPinnedMap k path = Ok m →
    isMap k (Map_FD m) = (true, None) →
    Map_Info m = Err e →
    visit_fails k (path, Some false) (wrapError "failed to retrieve map info: %w" e)
| fails_memlock path m info n e :
    LoadPinnedMap k path = Ok m →
    isMap k (Map_FD m) = (true, None) →
    Map_Info m = Ok info →
    parseMemlockFromFDInfo k (Map_FD m) = Some (n, Some e) →
    visit_fails k (path, Some false)
      (wrapError "failed to parse memlock from fd (%d) info: %w" e).

(** What the callback of [mapIDsFromPinnedProgs] meets at an entry that it
    passes, with the map IDs and the program arrays that the entry adds: a
    directory, a pinned program, a pinned program array, a pinned map of
    another type, a pinned object that is neither. *)
Inductive resolved (k : Kernel) : string * option bool → list Z * list Map → Prop :=
| resolved_dir path :
    resolved k (path, Some true) ([], [])
| resolved_prog path prog ids :
    LoadPinnedProgram k path = Ok prog →
    isProg k (Program_FD prog) = (true, None) →
    Program_Info prog = Ok {| maps := Some ids |} →
    resolved k (path, Some false) (ids, [])
| resolved_array path handle progArray :
    LoadPinnedProgram k path = Ok handle →
    isProg k (Program_FD handle) = (false, None) →
    isMap k (Program_FD handle) = (true, None) →
    LoadPinnedMap k path = Ok progArray →
    Map_Type progArray = ProgramArray →
    resolved k (path, Some false) ([], [progArray])
| resolved_other_map path handle m :
    LoadPinnedProgram k path = Ok handle →
    isProg k (Program_FD handle) = (false, None) →
    isMap k (Program_FD handle) = (true, None) →
    LoadPinnedMap k path = Ok m →
    Map_Type m ≠ ProgramArray →
    resolved k (path, Some false) ([], [])
| resolved_other path handle :
    LoadPinnedProgram k path = Ok handle →
    isProg k (Program_FD handle) = (false, None) →
    isMap k (Program_FD handle) = (false, None) →
    resolved k (path, Some false) ([], []).

(** The program with the ID [progID] can be opened and refers to the maps
    [ids]. *)
Definition tail_call (k : Kernel) (progID : Z) (ids : list Z) : Prop :=
  ∃ prog, NewProgramFromID k (to_uint32 progID) = Ok prog
          ∧ Program_Info prog = Ok {| maps := Some ids |}.

(** The program IDs that the program arrays [progArrays] deliver. *)
Definition delivered (progArrays : list Map) : list Z :=
  concat ((λ m, (Map_entries m).*2) <$> progArrays).

(** A host on which every collector succeeds: the maps 5, 7 and 9, the
    pinned program [event_execve] that refers to map 5, the pinned program
    array [execve_calls] (map 9) whose slot 0 holds program 42, which
    refers to map 7, and the pinned map [execve_map] (map 5). *)
Definition host : Kernel :=
  Sim.kernel
    {| Sim.next := Sim.cursor [5; 7; 9];
       Sim.mapsByID := [(5, Ok (Sim.map 45 Hash 5 "execve_map" [] None));
                        (7, Ok (Sim.map 47 Array 7 "tg_conf_map" [] None));
                        (9, Ok (Sim.map 49 ProgramArray 9 "execve_calls" [(0, 42)] None))];
       Sim.progsByID := [(42, Ok (Sim.prog 33 [7]))];
       Sim.pinnedAsMap :=
         [("/sys/fs/bpf/tetragon/event_execve", Ok (Sim.garbage_map 34));
          ("/sys/fs/bpf/tetragon/execve_calls",
           Ok (Sim.map 32 ProgramArray 9 "execve_calls" [(0, 42)] None));
          ("/sys/fs/bpf/tetragon/execve_map", Ok (Sim.map 35 Hash 5 "execve_map" [] None))];
       Sim.pinnedAsProg :=
         [("/sys/fs/bpf/tetragon/event_execve", Ok (Sim.prog 30 [5]));
          ("/sys/fs/bpf/tetragon/execve_calls", Ok (Sim.garbage_prog 31));
          ("/sys/fs/bpf/tetragon/execve_map", Ok (Sim.garbage_prog 36))];
       Sim.fds := [(30, ("anon_inode:bpf-prog", text EmptyString));
                   (31, ("anon_inode:bpf-map", Sim.fdinfo "512"));
                   (32, ("anon_inode:bpf-map", Sim.fdinfo "512"));
                   (33, ("anon_inode:bpf-prog", text EmptyString));
                   (34, ("anon_inode:bpf-prog", text EmptyString));
                   (35, ("anon_inode:bpf-map", Sim.fdinfo "4096"));
                   (36, ("anon_inode:bpf-map", Sim.fdinfo "4096"));
                   (45, ("anon_inode:bpf-map", Sim.fdinfo "4096"));
                   (47, ("anon_inode:bpf-map", Sim.fdinfo "8192"));
                   (49, ("anon_inode:bpf-map", Sim.fdinfo "512"))];
       Sim.tree :=
         [("/sys/fs/bpf/tetragon",
           [("/sys/fs/bpf/tetragon", Some true);
            ("/sys/fs/bpf/tetragon/event_execve", Some false);
            ("/sys/fs/bpf/tetragon/execve_calls", Some false);
            ("/sys/fs/bpf/tetragon/execve_map", Some false)])] |}.

(** The number that the decimal digits [d] denote after the digits already
    read as [acc]. *)
Fixpoint decimal_value (d : Decimal.uint) (acc : Z) : Z :=
  match d with
  | Decimal.Nil => acc
  | Decimal.D0 d => decimal_value d (10 * acc)
  | Decimal.D1 d => decimal_value d (10 * acc + 1)
  | Decimal.D2 d => decimal_value d (10 * acc + 2)
  | Decimal.D3 d => decimal_value d (10 * acc + 3)
  | Decimal.D4 d => decimal_value d (10 * acc + 4)
  | Decimal.D5 d => decimal_value d (10 * acc + 5)
  | Decimal.D6 d => decimal_value d (10 * acc + 6)
  | Decimal.D7 d => decimal_value d (10 * acc + 7)
  | Decimal.D8 d => decimal_value d (10 * acc + 8)
  | Decimal.D9 d => decimal_value d (10 * acc + 9)
  end.

(** Strings of ASCII bytes none of which is a space, and strings of spaces
    and tabs. *)
Fixpoint plain (s : string) : bool :=
  match s with
  | EmptyString => true
  | String c s' => (byte_val c <? 0x80) && negb (IsSpace (byte_val c)) && plain s'
  end.

Fixpoint blank (s : string) : bool :=
  match s with
  | EmptyString => true
  | String c s' =>
    (bool_decide (c = " "%char) || bool_decide (c = "009"%char)) && blank s'
  end.

(** [n] times the byte [c], then [tail]: lines that outgrow the buffer of a
    scanner. *)
Definition padded (c : ascii) (n : positive) (tail : string) : string :=
  Pos.iter (String c) tail n.

(** Strings without a newline. *)
Fixpoint one_line (s : string) : bool :=
  match s with
  | EmptyString => true
  | String c s' => negb (bool_decide (c = "010"%char)) && one_line s'
  end.

(** A directory with the pinned program [event_execve], which refers to
    map 5, the pinned map [execve_map] (map 5) and a pinned object [locked]
    that neither loader may open ([EACCES]). *)
Definition denied_pin : Kernel :=
  Sim.kernel
    {| Sim.next := Sim.cursor [];
       Sim.mapsByID := [(5, Ok (Sim.map 45 Hash 5 "execve_map" [] None))];
       Sim.progsByID := [];
       Sim.pinnedAsMap :=
         [("/sys/fs/bpf/tetragon/event_execve", Ok (Sim.garbage_map 34));
          ("/sys/fs/bpf/tetragon/execve_map", Ok (Sim.map 35 Hash 5 "execve_map" [] None));
          ("/sys/fs/bpf/tetragon/locked", Err (Errno 13))];
       Sim.pinnedAsProg :=
         [("/sys/fs/bpf/tetragon/event_execve", Ok (Sim.prog 30 [5]));
          ("/sys/fs/bpf/tetragon/execve_map", Ok (Sim.garbage_prog 36));
          ("/sys/fs/bpf/tetragon/locked", Err (Errno 13))];
       Sim.fds := [(30, ("anon_inode:bpf-prog", text EmptyString));
                   (34, ("anon_inode:bpf-prog", text EmptyString));
                   (35, ("anon_inode:bpf-map", Sim.fdinfo "4096"));
                   (36, ("anon_inode:bpf-map", Sim.fdinfo "4096"));
                   (45, ("anon_inode:bpf-map", Sim.fdinfo "4096"))];
       Sim.tree :=
         [("/sys/fs/bpf/tetragon",
           [("/sys/fs/bpf/tetragon", Some true);
            ("/sys/fs/bpf/tetragon/event_execve", Some false);
            ("/sys/fs/bpf/tetragon/execve_map", Some false);
            ("/sys/fs/bpf/tetragon/locked", Some false)])] |}.

(** * Properties *)

(** ** Set algebra *)

Section SetAlgebraFacts.
Context {T : Type}.

(** One [range] loop that copies the entries of [m] selected by [keep]
    into [ret]. *)
Lemma copy_loop_lookup (keep : Z → bool) (m ret : gmap Z T) (j : Z) :
  map_fold (λ i v ret, if keep i then <[i := v]> ret else ret) ret m !! j
  = match m !! j with
    | Some v => if keep j then Some v else ret !! j
    | None => ret !! j
    end.
Proof.
  apply (map_fold_weak_ind (λ r m, r !! j =
    match m !! j with
    | Some v => if keep j then Some v else ret !! j
    | None => ret !! j
    end)).
  - by rewrite lookup_empty.
  - intros i x m' r Hi IH.
    destruct (decide (i = j)) as [->|Hne].
    + rewrite lookup_insert_eq. rewrite Hi in IH.
      destruct (keep j); [by rewrite lookup_insert_eq | done].
    + rewrite lookup_insert_ne by done.
      destruct (keep i); [by rewrite lookup_insert_ne | done].
Qed.

(** The same loop run in any order of iteration gives the same map. *)
Lemma range_any_order (keep : Z → bool) (m ret : gmap Z T) (order : list (Z * T)) :
  order ≡ₚ map_to_list m →
  foldl (λ ret '(i, v), if keep i then <[i := v]> ret else ret) ret order
  = map_fold (λ i v ret, if keep i then <[i := v]> ret else ret) ret m.
Proof.
  intros Hperm. apply map_eq. intros j. rewrite copy_loop_lookup.
  assert (Hnd : NoDup order.*1).
  { rewrite Hperm. apply NoDup_fst_map_to_list. }
  assert (Hm : ∀ v, m !! j = Some v ↔ (j, v) ∈ order).
  { intros v. rewrite Hperm. by rewrite elem_of_map_to_list. }
  clear Hperm. revert ret m Hm. induction order as [|[i v] order IH]; intros ret m Hm.
  - simpl. destruct (m !! j) as [v|] eqn:E; [|done].
    pose proof (proj1 (Hm v) eq_refl) as Hin. by apply elem_of_nil in Hin.
  - simpl. inversion Hnd as [|? ? Hi Hnd']; subst.
    rewrite (IH Hnd' _ (delete i m)).
    + destruct (decide (i = j)) as [->|Hne].
      * rewrite lookup_delete_eq.
        assert (m !! j = Some v) as -> by (apply Hm; left).
        destruct (keep j); [by rewrite lookup_insert_eq | done].
      * rewrite lookup_delete_ne by done.
        destruct (m !! j); destruct (keep i); rewrite ?lookup_insert_ne; done.
    + intros w. destruct (decide (i = j)) as [->|Hne].
      * rewrite lookup_delete_eq. split; [done|]. intros Hin.
        exfalso. apply Hi. apply list_elem_of_fmap. by exists (j, w).
      * rewrite lookup_delete_ne by done. rewrite Hm. split.
        -- intros Hin. apply elem_of_cons in Hin as [?|?]; [congruence | done].
        -- intros Hin. by right.
Qed.

Lemma exists_in_Some (m : gmap Z T) i v : m !! i = Some v → exists_in m i = true.
Proof. intros H. apply bool_decide_eq_true. eauto. Qed.

Lemma exists_in_None (m : gmap Z T) i : m !! i = None → exists_in m i = false.
Proof. intros H. apply bool_decide_eq_false. rewrite H. by intros [? ?]. Qed.

Lemma inter_lookup (m1 m2 : gmap Z T) j :
  inter m1 m2 !! j =
  match m2 !! j with Some _ => m1 !! j | None => None end.
Proof.
  unfold inter. rewrite copy_loop_lookup, lookup_empty.
  destruct (m2 !! j) eqn:E2.
  - rewrite (exists_in_Some _ _ _ E2). by destruct (m1 !! j).
  - rewrite (exists_in_None _ _ E2). by destruct (m1 !! j).
Qed.

Lemma diff_lookup (m1 m2 : gmap Z T) j :
  diff m1 m2 !! j =
  match m2 !! j with Some _ => None | None => m1 !! j end.
Proof.
  unfold diff.
  rewrite (copy_loop_lookup (λ i, negb (exists_in m2 i))), lookup_empty.
  destruct (m2 !! j) eqn:E2.
  - rewrite (exists_in_Some _ _ _ E2). by destruct (m1 !! j).
  - rewrite (exists_in_None _ _ E2). by destruct (m1 !! j).
Qed.

Lemma exter_lookup (m1 m2 : gmap Z T) j :
  exter m1 m2 !! j =
  match m1 !! j, m2 !! j with
  | Some v, None => Some v
  | None, Some v => Some v
  | _, _ => None
  end.
Proof.
  unfold exter.
  rewrite (copy_loop_lookup (λ i, negb (exists_in m1 i))).
  rewrite (copy_loop_lookup (λ i, negb (exists_in m2 i))), lookup_empty.
  destruct (m1 !! j) eqn:E1, (m2 !! j) eqn:E2;
    rewrite ?(exists_in_Some _ _ _ E1), ?(exists_in_Some _ _ _ E2),
            ?(exists_in_None _ _ E1), ?(exists_in_None _ _ E2); done.
Qed.

Lemma union_lookup (m1 m2 : gmap Z T) j :
  union m1 m2 !! j =
  match m2 !! j with Some v => Some v | None => m1 !! j end.
Proof.
  unfold union.
  rewrite (copy_loop_lookup (λ _, true) m2).
  rewrite (copy_loop_lookup (λ _, true) m1), lookup_empty.
  destruct (m2 !! j); [done|]. by destruct (m1 !! j).
Qed.

End SetAlgebraFacts.

(** C3, as stated, fails: on a key of both inputs [union] carries the value
    of its second argument and [inter] the value of its first. With
    [A = {1 ↦ "a"}] and [B = {1 ↦ "b"}], [union A B] is [{1 ↦ "b"}] while
    [diff A B ∪ inter A B ∪ diff B A] is [{1 ↦ "a"}]. *)
Lemma union_decomposition_counterexample :
  let A : gmap Z string := {[ 1 := "a" ]} in
  let B : gmap Z string := {[ 1 := "b" ]} in
  union A B !! 1 = Some "b"
  ∧ (diff A B ∪ inter A B ∪ diff B A) !! 1 = Some "a"
  ∧ union A B ≠ diff A B ∪ inter A B ∪ diff B A.
Proof.
  intros A B.
  assert (HA : A !! 1 = Some "a") by apply lookup_singleton_eq.
  assert (HB : B !! 1 = Some "b") by apply lookup_singleton_eq.
  assert (Hu : union A B !! 1 = Some "b") by (by rewrite union_lookup, HB).
  assert (Hr : (diff A B ∪ inter A B ∪ diff B A) !! 1 = Some "a").
  { rewrite !lookup_union, !diff_lookup, inter_lookup, HA, HB. done. }
  split; [done|]. split; [done|].
  intros Heq. rewrite Heq, Hr in Hu. discriminate.
Qed.

(** C3 (amended): [union A B] has exactly the keys of [diff A B],
    [inter A B] and [diff B A] together; these three are pairwise disjoint;
    [union A B] is the disjoint union of [diff A B], [inter B A] and
    [diff B A], where [inter B A] has the keys of [inter A B] with the
    values of [B]; and the equation with [inter A B] holds exactly when [A]
    and [B] agree on the keys they share. *)
Theorem union_decomposition {T : Type} (A B : gmap Z T) :
  dom (union A B) = dom (diff A B) ∪ dom (inter A B) ∪ dom (diff B A)
  ∧ diff A B ##ₘ inter A B
  ∧ diff A B ##ₘ diff B A
  ∧ inter A B ##ₘ diff B A
  ∧ dom (inter B A) = dom (inter A B)
  ∧ union A B = diff A B ∪ inter B A ∪ diff B A
  ∧ (union A B = diff A B ∪ inter A B ∪ diff B A
     ↔ ∀ i a b, A !! i = Some a → B !! i = Some b → a = b).
Proof.
  assert (Hdisj1 : diff A B ##ₘ inter A B).
  { apply map_disjoint_spec. intros i x y.
    rewrite diff_lookup, inter_lookup. by destruct (B !! i). }
  assert (Hdisj2 : diff A B ##ₘ diff B A).
  { apply map_disjoint_spec. intros i x y.
    rewrite !diff_lookup. destruct (B !! i), (A !! i); congruence. }
  assert (Hdisj3 : inter A B ##ₘ diff B A).
  { apply map_disjoint_spec. intros i x y.
    rewrite diff_lookup, inter_lookup. destruct (B !! i), (A !! i); congruence. }
  assert (Hdom : dom (inter B A) = dom (inter A B)).
  { apply set_eq. intros i. rewrite !elem_of_dom, !inter_lookup.
    destruct (A !! i), (B !! i); split; intros [? ?]; (discriminate || eauto). }
  assert (Heq : union A B = diff A B ∪ inter B A ∪ diff B A).
  { apply map_eq. intros i.
    rewrite union_lookup, !lookup_union, !diff_lookup, inter_lookup.
    by destruct (A !! i), (B !! i). }
  split; [|split; [done|split; [done|split; [done|split; [done|split; [done|]]]]]].
  - apply set_eq. intros i.
    rewrite !elem_of_union, !elem_of_dom, union_lookup, !diff_lookup, inter_lookup.
    destruct (A !! i) eqn:EA, (B !! i) eqn:EB; split; intros H;
      repeat match goal with
             | H : _ ∨ _ |- _ => destruct H
             | H : is_Some None |- _ => by destruct H
             end; eauto.
  - split.
    + intros H i a b Ha Hb.
      apply (f_equal (.!! i)) in H.
      rewrite union_lookup, !lookup_union, !diff_lookup, inter_lookup, Ha, Hb in H.
      cbv in H. congruence.
    + intros H. apply map_eq. intros i.
      rewrite union_lookup, !lookup_union, !diff_lookup, inter_lookup.
      destruct (A !! i) as [a|] eqn:EA, (B !! i) as [b|] eqn:EB; try done.
      cbv. f_equal. symmetry. by apply (H i).
Qed.

(** C9: [exter] is commutative, as maps: both results hold a key exactly
    when one of the inputs holds it and the other does not, with the value
    of the input that holds it. *)
Theorem exter_comm {T : Type} (A B : gmap Z T) :
  exter A B = exter B A
  ∧ ∀ i v, exter A B !! i = Some v
           ↔ (A !! i = Some v ∧ B !! i = None) ∨ (A !! i = None ∧ B !! i = Some v).
Proof.
  split.
  - apply map_eq. intros i. rewrite !exter_lookup.
    by destruct (A !! i), (B !! i).
  - intros i v. rewrite exter_lookup.
    destruct (A !! i), (B !! i); split;
      try (intros [[? ?]|[? ?]]); try intros ?; try congruence; eauto.
Qed.

(** ** The fdinfo parser *)

Lemma selected_fields (line : string) :
  selected line = true →
  ∃ f1 rest, Fields line = "memlock:" :: f1 :: rest.
Proof.
  unfold selected. intros H. apply andb_prop in H as [Hlen H0].
  apply bool_decide_eq_true in Hlen. apply bool_decide_eq_true in H0.
  destruct (Fields line) as [|f0 [|f1 rest]]; simpl in *; try lia.
  injection H0 as ->. eauto.
Qed.

(** The loop in terms of the scanned tokens: the first selected one decides
    the result, and no index is out of range. *)
Lemma parseMemlock_scan_find (lines : list string) (readErr : option error) :
  parseMemlock_scan lines readErr =
  Some (match find selected (scanned lines readErr).1 with
        | Some line => converted line
        | None => not_found (scanned lines readErr).2
        end).
Proof.
  induction lines as [|l lines IH]; simpl.
  - by destruct readErr.
  - destruct (token l) as [line|] eqn:Etok; simpl; [|done].
    destruct (scanned lines readErr) as [texts err] eqn:Esc. simpl in *.
    destruct (selected line) eqn:Esel.
    + destruct (selected_fields _ Esel) as (f1 & rest & Hf).
      unfold converted. rewrite Hf. simpl.
      by destruct (Atoi f1) as [n [e|]].
    + rewrite IH. unfold selected in Esel.
      destruct (bool_decide (1 < length (Fields line))%nat) eqn:Elen; [|done].
      simpl in Esel. apply bool_decide_eq_false in Esel.
      destruct (Fields line) as [|f0 fs]; simpl in *; [done|].
      rewrite bool_decide_eq_false_2; [done|]. intros ->. by apply Esel.
Qed.

Lemma find_selected_app (pre post : list string) (line : string) :
  Forall (λ l, selected l = false) pre →
  selected line = true →
  find selected (pre ++ line :: post) = Some line.
Proof.
  induction 1 as [|l pre Hl _ IH]; intros Hsel; simpl.
  - by rewrite Hsel.
  - rewrite Hl. by apply IH.
Qed.

Lemma find_selected_none (texts : list string) :
  Forall (λ l, selected l = false) texts → find selected texts = None.
Proof. induction 1 as [|l texts Hl _ IH]; simpl; [done|]. by rewrite Hl. Qed.

(** The examples of the specification. *)
Example parse_4096 :
  parseMemlockFromFDInfoReader (text "pos:	0
flags:	02000002
map_type:	1
memlock:    4096
map_id:	7
") = Some (4096, None).
Proof. vm_compute. reflexivity. Qed.

Example parse_no_memlock_line :
  parseMemlockFromFDInfoReader (text "pos:	0
flags:	02000002
") = Some (0, Some (errorString "didn't find memlock field")).
Proof. vm_compute. reflexivity. Qed.

Example parse_notanumber :
  parseMemlockFromFDInfoReader (text "memlock: notanumber")
  = Some (0, Some (wrapError "failed converting memlock to int: %w"
                     (NumError ErrSyntax))).
Proof. vm_compute. reflexivity. Qed.

Example parse_read_error :
  parseMemlockFromFDInfoReader {| r_data := "pos:	0
"; r_err := Some EIO |}
  = Some (0, Some (wrapError "failed to scan: %w" EIO)).
Proof. vm_compute. reflexivity. Qed.

(** The line [memlock:] alone is passed over. *)
Example parse_lone_memlock :
  parseMemlockFromFDInfoReader (text "memlock:
memlock: 7
") = Some (7, None).
Proof. vm_compute. reflexivity. Qed.

Lemma string_app_assoc (a b c : string) : (a +:+ b) +:+ c = a +:+ (b +:+ c).
Proof.
  induction a as [|x a IH]; [done|].
  change (String x ((a +:+ b) +:+ c) = String x (a +:+ b +:+ c)). by rewrite IH.
Qed.

Lemma string_app_empty_r (a : string) : a +:+ EmptyString = a.
Proof.
  induction a as [|x a IH]; [done|].
  change (String x (a +:+ EmptyString) = String x a). by rewrite IH.
Qed.

Lemma FieldsFrom_plain (s rest : string) (space : bool) (cur : option string) :
  s ≠ EmptyString → plain s = true →
  FieldsFrom (s +:+ rest) 0 space cur
  = FieldsFrom rest 0 false (Some (default EmptyString cur +:+ s)).
Proof.
  revert space cur. induction s as [|c s IH]; intros space cur Hne Hs; [done|].
  cbn [plain] in Hs. apply andb_true_iff in Hs as [Hc Hs].
  apply andb_true_iff in Hc as [Hascii Hsp]. apply negb_true_iff in Hsp.
  change (String c s +:+ rest) with (String c (s +:+ rest)).
  cbn [FieldsFrom]. unfold DecodeRune. rewrite Hascii, Hsp. cbn [Nat.pred].
  destruct s as [|c' s'].
  - done.
  - rewrite IH by done. cbn [default]. unfold snoc.
    unfold Datatypes.id. by rewrite string_app_assoc.
Qed.

Lemma FieldsFrom_blank (s rest : string) (space : bool) :
  blank s = true →
  FieldsFrom (s +:+ rest) 0 space None = FieldsFrom rest 0 space None.
Proof.
  revert space. induction s as [|c s IH]; intros space Hs; [done|].
  cbn [blank] in Hs. apply andb_true_iff in Hs as [Hc Hs].
  change (String c s +:+ rest) with (String c (s +:+ rest)).
  cbn [FieldsFrom].
  assert (DecodeRune (byte_val c) (bytes_of (s +:+ rest)) = (byte_val c, 1%nat)
          ∧ IsSpace (byte_val c) = true) as [-> ->].
  { apply orb_true_iff in Hc as [Hc|Hc]; apply bool_decide_eq_true in Hc;
      subst c; by vm_compute. }
  cbn [Nat.pred]. rewrite (IH true Hs).
  destruct rest; [done|]. done.
Qed.

Lemma FieldsFrom_blank_ends (s rest f : string) (space : bool) :
  s ≠ EmptyString → blank s = true →
  FieldsFrom (s +:+ rest) 0 space (Some f) = f :: FieldsFrom rest 0 true None.
Proof.
  destruct s as [|c s]; intros Hne Hs; [done|].
  cbn [blank] in Hs. apply andb_true_iff in Hs as [Hc Hs].
  change (String c s +:+ rest) with (String c (s +:+ rest)).
  cbn [FieldsFrom].
  assert (DecodeRune (byte_val c) (bytes_of (s +:+ rest)) = (byte_val c, 1%nat)
          ∧ IsSpace (byte_val c) = true) as [-> ->].
  { apply orb_true_iff in Hc as [Hc|Hc]; apply bool_decide_eq_true in Hc;
      subst c; by vm_compute. }
  cbn [Nat.pred]. by rewrite FieldsFrom_blank.
Qed.

Lemma split_lines_one_line (s rest cur : string) :
  one_line s = true →
  split_lines (s +:+ String "010" rest) cur
  = (cur +:+ s) :: split_lines rest EmptyString.
Proof.
  revert cur. induction s as [|c s IH]; intros cur Hs.
  - change (EmptyString +:+ String "010" rest) with (String "010" rest).
    cbn [split_lines]. rewrite bool_decide_eq_true_2 by done.
    by rewrite string_app_empty_r.
  - cbn [one_line] in Hs. apply andb_true_iff in Hs as [Hc Hs].
    apply negb_true_iff, bool_decide_eq_false in Hc.
    change (String c s +:+ String "010" rest)
      with (String c (s +:+ String "010" rest)).
    cbn [split_lines]. rewrite bool_decide_eq_false_2 by done.
    rewrite IH by done. unfold snoc. by rewrite string_app_assoc.
Qed.

Lemma token_short (l : string) :
  Z.of_nat (String.length l) < MaxScanTokenSize → token l = Some (dropCR l).
Proof. intros Hl. unfold token. by rewrite (proj2 (Z.leb_gt _ _) Hl). Qed.

Lemma token_long (l : string) :
  MaxScanTokenSize ≤ Z.of_nat (String.length l) → token l = None.
Proof. intros Hl. unfold token. by rewrite (proj2 (Z.leb_le _ _) Hl). Qed.

(** A first line that does not fit the buffer of the scanner ends the scan,
    whatever comes after it. *)
Lemma parseMemlock_long_first_line (l rest : string) (readErr : option error) :
  one_line l = true → token l = None →
  parseMemlockFromFDInfoReader
    {| r_data := l +:+ String "010" rest; r_err := readErr |}
  = Some (0, Some (wrapError "failed to scan: %w" ErrTooLong)).
Proof.
  intros Hl Htok. unfold parseMemlockFromFDInfoReader, NewScanner.
  cbn [sc_lines sc_readErr r_data r_err].
  rewrite split_lines_one_line by done.
  change (EmptyString +:+ l) with l. cbn [parseMemlock_scan]. by rewrite Htok.
Qed.

(** A read error that cuts the line [memlock: 4096] short is not reported:
    the scanner delivers what was read of the line, and the function
    returns at that line, before it looks at [scanner.Err()]. *)
Example parse_read_error_in_memlock_line :
  parseMemlockFromFDInfoReader {| r_data := "memlock: 40"; r_err := Some EIO |}
  = Some (40, None).
Proof. vm_compute. reflexivity. Qed.

(** C5, as stated, fails. The second field is read by [strconv.Atoi], which
    takes a sign, so the number returned can be negative. The scan does not
    stop at the first line whose first field is [memlock:] when that line
    has no second field: it goes on to the lines after it. And a line of
    64 KiB before the line [memlock: 7] ends the scan with an error, though
    the stream has that line and no read fails. *)
Lemma parseMemlock_counterexample :
  (∃ memlock,
     parseMemlockFromFDInfoReader (text "memlock: -4096") = Some (memlock, None)
     ∧ ¬ (0 ≤ memlock))
  ∧ (Fields "memlock:" = ["memlock:"]
     ∧ parseMemlockFromFDInfoReader (text "memlock:
memlock: 7
") = Some (7, None))
  ∧ (Fields "memlock: 7" = ["memlock:"; "7"]
     ∧ parseMemlockFromFDInfoReader
         (text (padded "x" 65536 EmptyString +:+ String "010" "memlock: 7"))
       = Some (0, Some (wrapError "failed to scan: %w" ErrTooLong))).
Proof.
  split; [|split].
  - exists (-4096). split; [vm_compute; reflexivity | lia].
  - split; vm_compute; reflexivity.
  - split; [vm_compute; reflexivity|].
    apply (parseMemlock_long_first_line (padded "x" 65536 EmptyString)
             "memlock: 7" None); vm_compute; reflexivity.
Qed.

(** C5 (amended): on a stream that is read to its end without a read
    error, the parser stops at the first scanned line that has at least two
    fields and whose first field is [memlock:], and returns what
    [strconv.Atoi] makes of the second field: a decimal number with an
    optional sign, in the range of [int], negative or not; it fails when
    [Atoi] fails. On every stream, when the scan ends without such a line,
    it fails: with the error of the scanner (the read error, or a line too
    long for it) if there is one, and with "didn't find memlock field"
    otherwise. What is returned after a read error when such a line was
    scanned is left open. *)
Theorem parseMemlockFromFDInfoReader_spec (r : Reader)
    (texts : list string) (err : option error) :
  scanned (sc_lines (NewScanner r)) (sc_readErr (NewScanner r)) = (texts, err) →
  (r_err r = None →
   ∀ pre line post,
     texts = pre ++ line :: post →
     Forall (λ l, selected l = false) pre →
     selected line = true →
     ∃ f1, Fields line !! 1%nat = Some f1 ∧
       parseMemlockFromFDInfoReader r =
       Some (match Atoi f1 with
             | (_, Some e) =>
               (0, Some (wrapError "failed converting memlock to int: %w" e))
             | (memlock, None) => (memlock, None)
             end))
  ∧ (Forall (λ l, selected l = false) texts →
     parseMemlockFromFDInfoReader r =
     Some (0, Some (match err with
                    | Some e => wrapError "failed to scan: %w" e
                    | None => errorString "didn't find memlock field"
                    end))).
Proof.
  intros Hsc. unfold parseMemlockFromFDInfoReader.
  rewrite parseMemlock_scan_find, Hsc. simpl. split.
  - intros _ pre line post -> Hpre Hsel.
    rewrite (find_selected_app _ _ _ Hpre Hsel).
    destruct (selected_fields _ Hsel) as (f1 & rest & Hf).
    exists f1. unfold converted. rewrite Hf. done.
  - intros Hnone. rewrite (find_selected_none _ Hnone). by destruct err.
Qed.

Lemma parseMemlockFromFDInfoReader_spec_witness :
  parseMemlockFromFDInfoReader (text "pos:	0
memlock:    4096
map_id:	7
") = Some (4096, None).
Proof.
  destruct (parseMemlockFromFDInfoReader_spec
              (text "pos:	0
memlock:    4096
map_id:	7
") ["pos:	0"; "memlock:    4096"; "map_id:	7"] None) as [Hfound _].
  { vm_compute. reflexivity. }
  destruct (Hfound eq_refl ["pos:	0"] "memlock:    4096" ["map_id:	7"])
    as (f1 & Hf1 & Hres).
  { reflexivity. }
  { repeat constructor. }
  { vm_compute. reflexivity. }
  vm_compute in Hf1. injection Hf1 as <-. exact Hres.
Defined.

Lemma parseMemlockFromFDInfoReader_returns (r : Reader) :
  is_Some (parseMemlockFromFDInfoReader r).
Proof.
  unfold parseMemlockFromFDInfoReader. rewrite parseMemlock_scan_find. eauto.
Qed.

(** C10, as stated, fails: a line whose only field is [memlock:] is not
    passed over when it is 64 KiB long or longer. The scanner stops at it
    with [ErrTooLong], and the line [memlock: 7] after it is not read. *)
Lemma parseMemlock_lone_field_counterexample :
  Fields (padded " " 65536 EmptyString +:+ "memlock:") = ["memlock:"]
  ∧ parseMemlockFromFDInfoReader
      (text ((padded " " 65536 EmptyString +:+ "memlock:")
             +:+ String "010" "memlock: 7"))
    = Some (0, Some (wrapError "failed to scan: %w" ErrTooLong))
  ∧ parseMemlockFromFDInfoReader (text "memlock: 7") = Some (7, None).
Proof.
  split; [|split].
  - unfold Fields. rewrite FieldsFrom_blank by (vm_compute; reflexivity).
    vm_compute. reflexivity.
  - apply (parseMemlock_long_first_line
             (padded " " 65536 EmptyString +:+ "memlock:") "memlock: 7" None);
      vm_compute; reflexivity.
  - vm_compute. reflexivity.
Qed.

(** C10 (amended): the parser never panics: it returns on every stream. A
    line shorter than 64 KiB, the limit of the scanner, with [memlock:] as
    its only field is passed over: the result is the one of the stream
    without that line. A line of 64 KiB or more is not passed over, whatever
    its fields: when the scan reaches it, it ends with the error of the
    scanner. *)
Theorem parseMemlock_lone_field_skipped :
  (∀ r, is_Some (parseMemlockFromFDInfoReader r))
  ∧ (∀ pre l post readErr,
       Z.of_nat (String.length l) < MaxScanTokenSize →
       Fields (dropCR l) = ["memlock:"] →
       parseMemlock_scan (pre ++ l :: post) readErr
       = parseMemlock_scan (pre ++ post) readErr)
  ∧ (∀ pre l post readErr,
       Forall (λ p, Z.of_nat (String.length p) < MaxScanTokenSize
                    ∧ selected (dropCR p) = false) pre →
       MaxScanTokenSize ≤ Z.of_nat (String.length l) →
       parseMemlock_scan (pre ++ l :: post) readErr
       = Some (0, Some (wrapError "failed to scan: %w" ErrTooLong))).
Proof.
  split; [|split].
  - apply parseMemlockFromFDInfoReader_returns.
  - intros pre l post readErr Hshort Hf. apply token_short in Hshort.
    induction pre as [|a pre IH]; simpl.
    + rewrite Hshort, Hf. done.
    + rewrite IH. done.
  - intros pre l post readErr Hpre Hlong. apply token_long in Hlong.
    induction Hpre as [|p pre [Hp Hsel] _ IH]; simpl.
    + by rewrite Hlong.
    + rewrite (token_short _ Hp). unfold selected in Hsel.
      destruct (bool_decide (1 < length (Fields (dropCR p)))%nat) eqn:Hlen;
        [|exact IH].
      destruct (Fields (dropCR p)) as [|f0 fs] eqn:Hf; [done|].
      cbn in Hsel |- *.
      destruct (bool_decide (f0 = "memlock:")) eqn:Hf0; [|exact IH].
      apply bool_decide_eq_true in Hf0. subst f0.
      by rewrite bool_decide_eq_true_2 in Hsel.
Qed.

Lemma parseMemlock_lone_field_skipped_witness :
  parseMemlock_scan ["pos:	0"; "memlock:"; "memlock: 7"] None
  = parseMemlock_scan ["pos:	0"; "memlock: 7"] None.
Proof.
  apply (proj1 (proj2 parseMemlock_lone_field_skipped) ["pos:	0"] "memlock:"
           ["memlock: 7"] None).
  - vm_compute. reflexivity.
  - vm_compute. reflexivity.
Defined.

(** ** The map enumerator *)

Section FindAllMapsFacts.
Variable k : Kernel.

Lemma parseMemlockFromFDInfo_returns (fd : Z) :
  is_Some (parseMemlockFromFDInfo k fd).
Proof.
  unfold parseMemlockFromFDInfo. destruct (os_Open k _); [|eauto].
  apply parseMemlockFromFDInfoReader_returns.
Qed.

Lemma last_cons_default (l : list Z) (a d : Z) :
  List.last (a :: l) d = List.last l a.
Proof.
  revert a d. induction l as [|b l IH]; intros a d; [done|].
  change (List.last (a :: b :: l) d) with (List.last (b :: l) d).
  by rewrite !IH.
Qed.

(** As long as the cursor yields IDs whose maps can be inspected, the loop
    goes on: it appends their records, defers the release of their handles
    and releases none. *)
Lemma FindAllMaps_loop_steps (ids : list Z) :
  ∀ (records : list ExtendedMapInfo) (prev : Z) (fuel : nat)
    (mapInfos : list ExtendedMapInfo) (defers : list nat) (trace : list Event),
  cursor_yields k prev ids →
  Forall2 (inspected k) ids records →
  FindAllMaps_loop k (length ids + fuel) prev mapInfos defers trace
  = FindAllMaps_loop k fuel (List.last ids prev) (mapInfos ++ records)
      (rev (seq (length defers) (length ids)) ++ defers)
      (trace ++ steps prev ids (length defers)).
Proof.
  induction ids as [|id ids IH]; intros records prev fuel mapInfos defers trace Hcur Hins.
  - inversion Hins; subst. simpl. by rewrite !app_nil_r.
  - inversion Hins as [|? record ? records' (m & Hopen & Hinfo & Hmem) Hins']; subst.
    destruct Hcur as [Hnext Hcur].
    change (length (id :: ids) + fuel)%nat with (S (length ids + fuel)).
    cbn [FindAllMaps_loop]. rewrite Hnext, Hopen, Hinfo, Hmem. cbn [mbind option_bind].
    rewrite (IH records' id fuel _ _ _ Hcur Hins').
    rewrite last_cons_default. destruct record as [info memlock].
    cbn [length seq rev steps MapInfo_ Memlock].
    by rewrite <- !app_assoc.
Qed.

Lemma FindAllMaps_loop_not_found (prev : Z) (e : error) (fuel : nat)
    (mapInfos : list ExtendedMapInfo) (defers : list nat) (trace : list Event) :
  MapGetNextID k prev = Err e →
  errors_Is e ENOENT = true →
  FindAllMaps_loop k (S fuel) prev mapInfos defers trace
  = Some ((mapInfos, None), (trace ++ [EvNextID prev]) ++ (EvClose <$> defers)).
Proof. intros Hnext His. cbn [FindAllMaps_loop]. by rewrite Hnext, His. Qed.

Lemma FindAllMaps_loop_cursor_error (prev : Z) (e : error) (fuel : nat)
    (mapInfos : list ExtendedMapInfo) (defers : list nat) (trace : list Event) :
  MapGetNextID k prev = Err e →
  errors_Is e ENOENT = false →
  FindAllMaps_loop k (S fuel) prev mapInfos defers trace
  = Some (([], Some (wrapError "didn't receive ENOENT at the end of iteration: %w" e)),
          (trace ++ [EvNextID prev]) ++ (EvClose <$> defers)).
Proof. intros Hnext His. cbn [FindAllMaps_loop]. by rewrite Hnext, His. Qed.

Lemma FindAllMaps_loop_inspection_fails (prev id : Z) (err : error) (fuel : nat)
    (mapInfos : list ExtendedMapInfo) (defers : list nat) (trace : list Event) :
  MapGetNextID k prev = Ok id →
  inspection_fails k id err →
  ∃ trace', FindAllMaps_loop k (S fuel) prev mapInfos defers trace
            = Some (([], Some err), trace').
Proof.
  intros Hnext Hfail. cbn [FindAllMaps_loop]. rewrite Hnext.
  destruct Hfail as [(e & Hopen & ->)|[(m & e & Hopen & Hinfo & ->)
                    |(m & info & n & e & Hopen & Hinfo & Hmem & ->)]].
  - rewrite Hopen. unfold return_. eauto.
  - rewrite Hopen, Hinfo. unfold return_. eauto.
  - rewrite Hopen, Hinfo, Hmem. unfold return_. simpl. eauto.
Qed.

Lemma opened_app (t1 t2 : list Event) : opened (t1 ++ t2) = opened t1 ++ opened t2.
Proof. apply omap_app. Qed.

Lemma closed_app (t1 t2 : list Event) : closed (t1 ++ t2) = closed t1 ++ closed t2.
Proof. apply omap_app. Qed.

Lemma closed_EvClose (defers : list nat) : closed (EvClose <$> defers) = defers.
Proof. induction defers as [|h defers IH]; simpl; [done|]. by f_equal. Qed.

Lemma opened_EvClose (defers : list nat) : opened (EvClose <$> defers) = [].
Proof. induction defers as [|h defers IH]; simpl; done. Qed.

(** Every return of the loop runs the deferred calls, and nothing is
    released before: the trace is a part without [EvClose], in which the
    handles are numbered as they are opened, and then the release of all of
    them, last opened first. *)
Lemma FindAllMaps_loop_releases (fuel : nat) :
  ∀ (mapID : Z) (mapInfos : list ExtendedMapInfo) (defers : list nat)
    (trace : list Event) res trace',
  closed trace = [] →
  opened trace = rev defers →
  defers = rev (seq 0 (length defers)) →
  FindAllMaps_loop k fuel mapID mapInfos defers trace = Some (res, trace') →
  ∃ body n, trace' = body ++ (EvClose <$> rev (seq 0 n))
            ∧ closed body = [] ∧ opened body = seq 0 n.
Proof.
  induction fuel as [|fuel IH];
    intros mapID mapInfos defers trace res trace' Hcl Hop Hdef Hrun; [done|].
  assert (Hret : ∀ (v : list ExtendedMapInfo * option error) defers0 trace0,
    closed trace0 = [] → opened trace0 = rev defers0 →
    defers0 = rev (seq 0 (length defers0)) →
    return_ v defers0 trace0 = Some (res, trace') →
    ∃ body n, trace' = body ++ (EvClose <$> rev (seq 0 n))
              ∧ closed body = [] ∧ opened body = seq 0 n).
  { intros v defers0 trace0 Hcl0 Hop0 Hdef0 Hr. unfold return_ in Hr.
    injection Hr as _ <-. exists trace0, (length defers0).
    rewrite <- Hdef0. split; [done|]. split; [done|].
    rewrite Hop0, Hdef0 at 1. by rewrite rev_involutive. }
  cbn [FindAllMaps_loop] in Hrun.
  assert (Hcl1 : closed (trace ++ [EvNextID mapID]) = [])
    by (by rewrite closed_app, Hcl).
  assert (Hop1 : opened (trace ++ [EvNextID mapID]) = rev defers)
    by (by rewrite opened_app, Hop, app_nil_r).
  destruct (MapGetNextID k mapID) as [id|e].
  2: { destruct (errors_Is e ENOENT); eapply Hret; eauto. }
  destruct (NewMapFromID k id) as [m|e]; [|eapply Hret; eauto].
  assert (Hcl2 : closed ((trace ++ [EvNextID mapID]) ++ [EvOpen (length defers) id]) = [])
    by (by rewrite closed_app, Hcl1).
  assert (Hop2 : opened ((trace ++ [EvNextID mapID]) ++ [EvOpen (length defers) id])
                 = rev (length defers :: defers))
    by (by rewrite opened_app, Hop1).
  assert (Hdef2 : length defers :: defers
                  = rev (seq 0 (length (length defers :: defers)))).
  { cbn [length]. rewrite seq_S, rev_app_distr. simpl. by rewrite <- Hdef. }
  destruct (Map_Info m) as [info|e]; [|eapply Hret; eauto].
  destruct (parseMemlockFromFDInfo k (Map_FD m)) as [[memlock [e|]]|];
    cbn [mbind option_bind] in Hrun; [eapply Hret; eauto| |done].
  eapply IH; eauto.
Qed.

End FindAllMapsFacts.

(** C4: when the cursor yields the IDs [ids] and the map of each can be
    inspected, a not-found answer ([ENOENT], wrapped or not) to the next
    request ends the enumeration with the records of [ids], in the order of
    the cursor; any other error of the cursor, and a failure to open the
    next map, to read its metadata or to read its memlock, ends it with an
    error and no record. The loop returns as soon as the fuel exceeds the
    number of IDs. *)
Theorem FindAllMaps_ends (k : Kernel) (ids : list Z) (records : list ExtendedMapInfo) :
  cursor_yields k 0 ids →
  Forall2 (inspected k) ids records →
  (∀ e fuel,
     MapGetNextID k (List.last ids 0) = Err e →
     errors_Is e ENOENT = true →
     (length ids < fuel)%nat →
     FindAllMaps k fuel = Some (records, None))
  ∧ (∀ e fuel,
     MapGetNextID k (List.last ids 0) = Err e →
     errors_Is e ENOENT = false →
     (length ids < fuel)%nat →
     FindAllMaps k fuel
     = Some ([], Some (wrapError "didn't receive ENOENT at the end of iteration: %w" e)))
  ∧ (∀ id err fuel,
     MapGetNextID k (List.last ids 0) = Ok id →
     inspection_fails k id err →
     (length ids < fuel)%nat →
     FindAllMaps k fuel = Some ([], Some err)).
Proof.
  intros Hcur Hins.
  assert (Hfuel : ∀ fuel, (length ids < fuel)%nat →
            ∃ fuel', fuel = (length ids + S fuel')%nat).
  { intros fuel Hlt. exists (fuel - length ids - 1)%nat. lia. }
  repeat split.
  - intros e fuel Hnext His Hlt. destruct (Hfuel fuel Hlt) as [fuel' ->].
    unfold FindAllMaps, FindAllMaps_run.
    rewrite (FindAllMaps_loop_steps k ids records 0 _ _ _ _ Hcur Hins).
    by rewrite (FindAllMaps_loop_not_found k _ e _ _ _ _ Hnext His).
  - intros e fuel Hnext His Hlt. destruct (Hfuel fuel Hlt) as [fuel' ->].
    unfold FindAllMaps, FindAllMaps_run.
    rewrite (FindAllMaps_loop_steps k ids records 0 _ _ _ _ Hcur Hins).
    by rewrite (FindAllMaps_loop_cursor_error k _ e _ _ _ _ Hnext His).
  - intros id err fuel Hnext Hfail Hlt. destruct (Hfuel fuel Hlt) as [fuel' ->].
    unfold FindAllMaps, FindAllMaps_run.
    rewrite (FindAllMaps_loop_steps k ids records 0 _ _ _ _ Hcur Hins).
    destruct (FindAllMaps_loop_inspection_fails k _ id err fuel'
                ([] ++ records) (rev (seq 0 (length ids)) ++ [])
                ([] ++ steps 0 ids 0) Hnext Hfail) as [trace' Hrun].
    simpl in *. by rewrite Hrun.
Qed.

Lemma FindAllMaps_ends_witness :
  FindAllMaps three_maps 4
  = Some ([Sim.record Hash 1 "execve_map" 4096;
           Sim.record Array 2 "tg_conf_map" 8192;
           Sim.record Hash 3 "execve_map" 12288], None).
Proof.
  refine (proj1 (FindAllMaps_ends three_maps [1; 2; 3] _ _ _)
            (wrapError "get next id: %w" ENOENT) 4%nat _ _ _).
  - vm_compute. done.
  - repeat constructor.
    + exists (Sim.map 11 Hash 1 "execve_map" [] None). vm_compute. done.
    + exists (Sim.map 12 Array 2 "tg_conf_map" [] None). vm_compute. done.
    + exists (Sim.map 13 Hash 3 "execve_map" [] None). vm_compute. done.
  - vm_compute. reflexivity.
  - vm_compute. reflexivity.
  - simpl. lia.
Defined.

(** The example of the specification with a cursor that fails on its second
    call: no record is returned. *)
Example FindAllMaps_failing_cursor :
  FindAllMaps failing_cursor 4
  = Some ([], Some (wrapError "didn't receive ENOENT at the end of iteration: %w" EIO)).
Proof. vm_compute. reflexivity. Qed.

(** Whatever the kernel, a run that returns has released every handle it
    opened, once, and all of them at the return: none before. *)
Lemma FindAllMaps_releases_at_return (k : Kernel) (fuel : nat) res (trace : list Event) :
  FindAllMaps_run k fuel = Some (res, trace) →
  ∃ body n, trace = body ++ (EvClose <$> rev (seq 0 n))
            ∧ closed body = [] ∧ opened body = seq 0 n.
Proof. intros Hrun. by eapply (FindAllMaps_loop_releases k fuel 0 [] [] []). Qed.

(** C8 fails on the code: [defer m.Close()] stands in the body of the [for]
    loop, so the handles are released when [FindAllMaps] returns and not
    when their iteration ends. With the maps 1, 2 and 3, the handle of map 1
    is still open at the second, third and fourth requests to the cursor. Each
    handle is released once, at the return. *)
Theorem FindAllMaps_handles_held_until_return :
  ∃ res trace,
    FindAllMaps_run three_maps 4 = Some (res, trace)
    ∧ trace = [EvNextID 0; EvOpen 0 1; EvNextID 1; EvOpen 1 2;
               EvNextID 2; EvOpen 2 3; EvNextID 3;
               EvClose 2; EvClose 1; EvClose 0]
    ∧ released_promptly trace = false
    ∧ closed trace = rev (opened trace).
Proof. eexists _, _. split; [vm_compute; reflexivity|]. by vm_compute. Qed.

(** ** The pinned-tree walker *)

Lemma walk_app {S} (fn : string → option bool → S → option (S * option error))
    (pre post : list (string * option bool)) (st st' : S) :
  walk fn pre st = Some (st', None) →
  walk fn (pre ++ post) st = walk fn post st'.
Proof.
  revert st. induction pre as [|[path d] pre IH]; intros st Hpre; simpl in *.
  - by injection Hpre as ->.
  - destruct (fn path d st) as [[st1 [e|]]|]; simpl in *; [done| |done].
    by apply IH.
Qed.






(** On a library that returns a handle for a pinned program, the program is
    passed over and the map after it is reported. *)
Example FindPinnedMaps_skips_non_map :
  FindPinnedMaps garbage_load TetragonBPFFS
  = Some ([Sim.record Hash 7 "execve_map" 4096], None).
Proof. vm_compute. reflexivity. Qed.

(** ** The pinned-program reference resolver *)

(** When [Next] returns [true], [Err] is [nil]: the check of [Err] in the
    body of the loop never finds an error. *)
Lemma MapIterator_Next_true_no_error (it it' : MapIterator) (kv : Z * Z) :
  MapIterator_Next it = (Some kv, it') → MapIterator_Err it' = None.
Proof.
  unfold MapIterator_Next, MapIterator_Err.
  destruct (bool_decide (is_Some (mi_err it)) || mi_done it); [done|].
  destruct (mi_entries it) as [|kv' rest].
  - by destruct (mi_fail it).
  - by intros [= _ <-].
Qed.

Lemma progArray_loop_step (fuel : nat) (key value : Z) (rest : list (Z * Z))
    (fail : option error) (progIDs : list Z) :
  progArray_loop (S fuel)
    {| mi_entries := (key, value) :: rest; mi_fail := fail;
       mi_err := None; mi_done := false |} progIDs
  = progArray_loop fuel
      {| mi_entries := rest; mi_fail := fail; mi_err := None; mi_done := false |}
      (progIDs ++ [value]).
Proof. reflexivity. Qed.

(** The loop over an iterator ends within its fuel and never returns an
    error, whether the iteration ends with the map or with a failure: the
    program IDs delivered before the end are the result. *)
Lemma progArray_loop_result (entries : list (Z * Z)) (fail : option error) :
  ∀ progIDs,
  progArray_loop (S (length entries))
    {| mi_entries := entries; mi_fail := fail; mi_err := None; mi_done := false |}
    progIDs
  = Some (progIDs ++ entries.*2, None).
Proof.
  induction entries as [|[key value] entries IH]; intros progIDs.
  - cbn. destruct fail; cbn; by rewrite app_nil_r.
  - cbn [length]. rewrite progArray_loop_step, IH. by rewrite <- app_assoc.
Qed.

(** C2 fails on the code: the check of [progArrayIterator.Err()] stands in
    the body of the loop, where the error is always [nil], and is missing
    after the loop, where [Next] has returned [false] because of the error.
    An iteration that fails ends the loop like the end of the map: the
    function goes on with the program IDs read before the failure. With a
    program array that delivers slot 0 and then fails with [EIO], the
    result is the one of the array that ends after slot 0, and no error. *)
Theorem mapIDsFromPinnedProgs_iteration_error_lost :
  (∀ (progArray : Map) (progIDs : list Z),
     progArray_loop (S (length (Map_entries progArray))) (Map_Iterate progArray) progIDs
     = Some (progIDs ++ (Map_entries progArray).*2, None))
  ∧ mapIDsFromPinnedProgs (tail_calls (Some EIO)) TetragonBPFFS
    = mapIDsFromPinnedProgs (tail_calls None) TetragonBPFFS
  ∧ ∃ ids, mapIDsFromPinnedProgs (tail_calls (Some EIO)) TetragonBPFFS = Some (ids, None)
           ∧ ids ≡ₚ [5; 7].
Proof.
  split; [|split].
  - intros progArray progIDs. apply progArray_loop_result.
  - vm_compute. reflexivity.
  - exists [7; 5]. split; [vm_compute; reflexivity | apply perm_swap].
Qed.

(** The callback of the resolver at a directory, at a pinned program and at
    a pinned program array. *)
Lemma mapIDsFromPinnedProgs_fn_dir (k : Kernel) (path : string)
    (st : gset Z * list (option Map)) :
  mapIDsFromPinnedProgs_fn k path (Some true) st = Some (st, None).
Proof. by destruct st. Qed.

Lemma mapIDsFromPinnedProgs_fn_prog (k : Kernel) (path : string) (prog : Program)
    (ids : list Z) (mapSet : gset Z) (progArrays : list (option Map)) :
  LoadPinnedProgram k path = Ok prog →
  isProg k (Program_FD prog) = (true, None) →
  Program_Info prog = Ok {| maps := Some ids |} →
  mapIDsFromPinnedProgs_fn k path (Some false) (mapSet, progArrays)
  = Some ((add_ids mapSet (Keys (add_ids ∅ ids)), progArrays), None).
Proof.
  intros Hload Hprog Hinfo. unfold mapIDsFromPinnedProgs_fn, mapIDsFromProgs.
  simpl. by rewrite Hload, Hprog, Hinfo.
Qed.

Lemma mapIDsFromPinnedProgs_fn_array (k : Kernel) (path : string) (handle : Program)
    (progArray : Map) (mapSet : gset Z) (progArrays : list (option Map)) :
  LoadPinnedProgram k path = Ok handle →
  isProg k (Program_FD handle) = (false, None) →
  isMap k (Program_FD handle) = (true, None) →
  LoadPinnedMap k path = Ok progArray →
  Map_Type progArray = ProgramArray →
  mapIDsFromPinnedProgs_fn k path (Some false) (mapSet, progArrays)
  = Some ((mapSet, progArrays ++ [Some progArray]), None).
Proof.
  intros Hload Hprog Hmap Hpinned Htype. unfold mapIDsFromPinnedProgs_fn.
  simpl. rewrite Hload, Hprog, Hmap, Hpinned, Htype. done.
Qed.

Lemma tailCalls_loop_one (k : Kernel) (progID : Z) (prog : Program) (ids : list Z)
    (mapSet : gset Z) :
  NewProgramFromID k (to_uint32 progID) = Ok prog →
  Program_Info prog = Ok {| maps := Some ids |} →
  tailCalls_loop k [progID] mapSet = (add_ids mapSet (Keys (add_ids ∅ ids)), None).
Proof.
  intros Hnew Hinfo. unfold tailCalls_loop, mapIDsFromProgs.
  by rewrite Hnew, Hinfo.
Qed.

(** C6: in a directory that holds a pinned program referring to map 5 and
    a pinned program array whose only entry is slot 0 with program 42,
    which refers to map 7, visited in either order, the resolver returns
    the IDs 5 and 7, each once. *)
Theorem mapIDsFromPinnedProgs_tail_call (k : Kernel) (root progPath arrayPath : string)
    (entries : list (string * option bool))
    (prog handle prog42 : Program) (progArray : Map) :
  WalkDir k root = (root, Some true) :: entries →
  entries ≡ₚ [(progPath, Some false); (arrayPath, Some false)] →
  LoadPinnedProgram k progPath = Ok prog →
  isProg k (Program_FD prog) = (true, None) →
  Program_Info prog = Ok {| maps := Some [5] |} →
  LoadPinnedProgram k arrayPath = Ok handle →
  isProg k (Program_FD handle) = (false, None) →
  isMap k (Program_FD handle) = (true, None) →
  LoadPinnedMap k arrayPath = Ok progArray →
  Map_Type progArray = ProgramArray →
  Map_entries progArray = [(0, 42)] →
  NewProgramFromID k 42 = Ok prog42 →
  Program_Info prog42 = Ok {| maps := Some [7] |} →
  ∃ ids, mapIDsFromPinnedProgs k root = Some (ids, None) ∧ ids ≡ₚ [5; 7].
Proof.
  intros Htree Hperm Hprog HisProg Hinfo Hhandle HnotProg HisMap Harray Htype
         Hentries H42 Hinfo42.
  assert (Hwalk : walk (mapIDsFromPinnedProgs_fn k) (WalkDir k root) (∅, [])
                  = Some ((add_ids ∅ (Keys (add_ids ∅ [5])), [Some progArray]), None)).
  { rewrite Htree. cbn [walk]. rewrite mapIDsFromPinnedProgs_fn_dir.
    cbn [mbind option_bind].
    symmetry in Hperm. apply Permutation_length_2_inv in Hperm as [-> | ->]; cbn [walk].
    - rewrite (mapIDsFromPinnedProgs_fn_prog k _ prog [5]) by done.
      cbn [mbind option_bind].
      rewrite (mapIDsFromPinnedProgs_fn_array k _ handle progArray) by done.
      done.
    - rewrite (mapIDsFromPinnedProgs_fn_array k _ handle progArray) by done.
      cbn [mbind option_bind].
      rewrite (mapIDsFromPinnedProgs_fn_prog k _ prog [5]) by done.
      done. }
  assert (Hloop : progIDs_loop [Some progArray] [] = Some ([42], None)).
  { cbn [progIDs_loop]. unfold Map_Iterate. rewrite Hentries.
    by rewrite (progArray_loop_result [(0, 42)]). }
  exists [7; 5]. split; [|apply perm_swap].
  unfold mapIDsFromPinnedProgs. rewrite Hwalk. cbn [mbind option_bind].
  rewrite Hloop. cbn [mbind option_bind].
  rewrite (tailCalls_loop_one k 42 prog42 [7]) by done.
  vm_compute. reflexivity.
Qed.

Lemma mapIDsFromPinnedProgs_tail_call_witness :
  ∃ ids, mapIDsFromPinnedProgs (tail_calls None) TetragonBPFFS = Some (ids, None)
         ∧ ids ≡ₚ [5; 7].
Proof.
  apply (mapIDsFromPinnedProgs_tail_call (tail_calls None) TetragonBPFFS
           "/sys/fs/bpf/tetragon/event_execve" "/sys/fs/bpf/tetragon/execve_calls"
           [("/sys/fs/bpf/tetragon/event_execve", Some false);
            ("/sys/fs/bpf/tetragon/execve_calls", Some false)]
           (Sim.prog 30 [5]) (Sim.garbage_prog 31) (Sim.prog 33 [7])
           (Sim.map 32 ProgramArray 9 "execve_calls" [(0, 42)] None));
    first [reflexivity | vm_compute; reflexivity].
Defined.

(** ** The aggregation by name *)

Lemma wrap_int_add_l (a b : Z) : wrap_int (wrap_int a + b) = wrap_int (a + b).
Proof.
  unfold wrap_int. f_equal.
  replace ((a + 2 ^ 63) `mod` 2 ^ 64 - 2 ^ 63 + b + 2 ^ 63)
    with ((a + 2 ^ 63) `mod` 2 ^ 64 + b) by lia.
  rewrite Zplus_mod_idemp_l. f_equal. lia.
Qed.

Lemma wrap_int_small (a : Z) : min_int ≤ a ≤ max_int → wrap_int a = a.
Proof.
  unfold wrap_int, min_int, max_int. intros H.
  rewrite Z.mod_small by lia. lia.
Qed.

Lemma foldl_int_add (l : list Z) (a : Z) :
  foldl int_add (wrap_int a) l = wrap_int (a + Zsum l).
Proof.
  revert a. induction l as [|x l IH]; intros a; simpl.
  - by rewrite Z.add_0_r.
  - unfold int_add at 2. rewrite wrap_int_add_l, IH. f_equal. lia.
Qed.

Lemma sum_int_Zsum (l : list Z) : sum_int l = wrap_int (Zsum l).
Proof.
  unfold sum_int. change 0 with (wrap_int 0) at 1. by rewrite foldl_int_add.
Qed.

Lemma Zsum_perm (l1 l2 : list Z) : l1 ≡ₚ l2 → Zsum l1 = Zsum l2.
Proof. induction 1; simpl; lia. Qed.

Lemma Zsum_nonneg (l : list Z) : Forall (λ x, 0 ≤ x) l → 0 ≤ Zsum l.
Proof. induction 1; simpl; lia. Qed.

Lemma TotalByteMemlock_sum (infos : list ExtendedMapInfo) :
  TotalByteMemlock infos = wrap_int (Zsum (Memlock <$> infos)).
Proof.
  rewrite <- sum_int_Zsum. unfold TotalByteMemlock, sum_int.
  generalize 0. induction infos as [|info infos IH]; intros a; simpl; [done|].
  apply IH.
Qed.

Lemma aggregated_memlock_insert_None (set : gmap string aggregated)
    (name : string) (e : aggregated) :
  set !! name = None →
  aggregated_memlock (<[name := e]> set) = Memlock e.1 + aggregated_memlock set.
Proof.
  intros Hnone. unfold aggregated_memlock, range_values.
  erewrite Zsum_perm; [|by rewrite map_to_list_insert]. done.
Qed.

Lemma aggregated_memlock_delete (set : gmap string aggregated)
    (name : string) (e : aggregated) :
  set !! name = Some e →
  aggregated_memlock set = Memlock e.1 + aggregated_memlock (delete name set).
Proof.
  intros Hsome.
  rewrite <- (aggregated_memlock_insert_None (delete name set) name e)
    by apply lookup_delete_eq.
  by rewrite insert_delete_id.
Qed.

Lemma aggregated_memlock_insert_Some (set : gmap string aggregated)
    (name : string) (e e' : aggregated) :
  set !! name = Some e →
  aggregated_memlock (<[name := e']> set)
  = Memlock e'.1 - Memlock e.1 + aggregated_memlock set.
Proof.
  intros Hsome.
  rewrite (aggregated_memlock_delete set name e Hsome).
  rewrite <- insert_delete_eq.
  rewrite aggregated_memlock_insert_None by apply lookup_delete_eq. lia.
Qed.

(** One iteration of the loop adds the memlock of the record to the total
    of its name, with the wrap-around of [int], and to [total]. *)
Lemma aggregate_step_memlock (set : gmap string aggregated) (total : Z)
    (m : ExtendedMapInfo) :
  wrap_int (aggregated_memlock (aggregate_step (set, total) m).1)
  = wrap_int (aggregated_memlock set + Memlock m)
  ∧ (aggregate_step (set, total) m).2 = int_add total (Memlock m).
Proof.
  unfold aggregate_step.
  destruct (set !! Name (MapInfo_ m)) as [[e count]|] eqn:Hname; simpl.
  - split; [|done].
    rewrite (aggregated_memlock_insert_Some _ _ _ _ Hname). simpl.
    unfold int_add.
    replace (wrap_int (Memlock e + Memlock m) - Memlock e + aggregated_memlock set)
      with (wrap_int (Memlock e + Memlock m) + (aggregated_memlock set - Memlock e))
      by lia.
    rewrite wrap_int_add_l. f_equal. lia.
  - split; [|done].
    rewrite (aggregated_memlock_insert_None _ _ _ Hname). simpl. f_equal. lia.
Qed.

Lemma aggregate_loop_memlock (records : list ExtendedMapInfo) :
  ∀ (set : gmap string aggregated) (total : Z),
  wrap_int (aggregated_memlock (foldl aggregate_step (set, total) records).1)
  = wrap_int (aggregated_memlock set + Zsum (Memlock <$> records))
  ∧ (foldl aggregate_step (set, total) records).2
    = foldl int_add total (Memlock <$> records).
Proof.
  induction records as [|m records IH]; intros set total.
  - simpl. by rewrite Z.add_0_r.
  - change (foldl aggregate_step (set, total) (m :: records))
      with (foldl aggregate_step (aggregate_step (set, total) m) records).
    change (Zsum (Memlock <$> m :: records))
      with (Memlock m + Zsum (Memlock <$> records)).
    change (foldl int_add total (Memlock <$> m :: records))
      with (foldl int_add (int_add total (Memlock m)) (Memlock <$> records)).
    destruct (aggregate_step_memlock set total m) as [Hset Htotal].
    destruct (aggregate_step (set, total) m) as [set' total'] eqn:Hstep.
    simpl in Hset, Htotal.
    destruct (IH set' total') as [IHset IHtotal]. split.
    + rewrite IHset, <- wrap_int_add_l, Hset, wrap_int_add_l. f_equal. lia.
    + by rewrite IHtotal, Htotal.
Qed.

Lemma aggregated_memlock_nonneg (set : gmap string aggregated) :
  map_Forall (λ _ e, 0 ≤ Memlock e.1) set → 0 ≤ aggregated_memlock set.
Proof.
  intros Hall. apply Zsum_nonneg. unfold range_values.
  apply Forall_fmap, Forall_fmap. apply map_Forall_to_list in Hall.
  eapply Forall_impl; [exact Hall|]. by intros [name e].
Qed.

(** Without overflow the totals are exact. *)
Lemma aggregate_loop_exact (records : list ExtendedMapInfo) :
  ∀ (set : gmap string aggregated) (total : Z),
  map_Forall (λ _ e, 0 ≤ Memlock e.1) set →
  Forall (λ m, 0 ≤ Memlock m) records →
  aggregated_memlock set + Zsum (Memlock <$> records) ≤ max_int →
  aggregated_memlock (foldl aggregate_step (set, total) records).1
  = aggregated_memlock set + Zsum (Memlock <$> records).
Proof.
  induction records as [|m records IH]; intros set total Hset Hrec Hmax.
  - simpl. lia.
  - change (foldl aggregate_step (set, total) (m :: records))
      with (foldl aggregate_step (aggregate_step (set, total) m) records).
    change (Zsum (Memlock <$> m :: records))
      with (Memlock m + Zsum (Memlock <$> records)) in *.
    inversion Hrec as [|? ? Hm Hrec']; subst.
    assert (Hrest : 0 ≤ Zsum (Memlock <$> records)).
    { apply Zsum_nonneg. by apply Forall_fmap. }
    assert (Hagg : 0 ≤ aggregated_memlock set) by by apply aggregated_memlock_nonneg.
    unfold aggregate_step.
    destruct (set !! Name (MapInfo_ m)) as [[e count]|] eqn:Hname.
    + assert (He : 0 ≤ Memlock e) by apply (Hset _ _ Hname).
      assert (Hdel : 0 ≤ aggregated_memlock (delete (Name (MapInfo_ m)) set)).
      { apply aggregated_memlock_nonneg. by apply map_Forall_delete. }
      pose proof (aggregated_memlock_delete _ _ _ Hname) as Hsum. simpl in Hsum.
      assert (Hexact : int_add (Memlock e) (Memlock m) = Memlock e + Memlock m).
      { apply wrap_int_small. unfold min_int. lia. }
      rewrite IH; [| |done|].
      * rewrite (aggregated_memlock_insert_Some _ _ _ _ Hname). simpl.
        rewrite Hexact. lia.
      * apply map_Forall_insert_2; [|done]. simpl. rewrite Hexact. lia.
      * rewrite (aggregated_memlock_insert_Some _ _ _ _ Hname). simpl.
        rewrite Hexact. lia.
    + rewrite IH; [| |done|].
      * rewrite (aggregated_memlock_insert_None _ _ _ Hname). simpl. lia.
      * by apply map_Forall_insert_2.
      * rewrite (aggregated_memlock_insert_None _ _ _ Hname). simpl. lia.
Qed.

Lemma TotalMemlock_aggregatedMaps (TypeString : Z → string) (sorted : list aggregated) :
  TotalMemlock <$> aggregatedMaps TypeString sorted
  = (λ e : aggregated, Memlock e.1) <$> sorted.
Proof. unfold aggregatedMaps. by rewrite <- list_fmap_compose. Qed.

(** Whatever the order in which the loop visits the union collection
    ([records]) and whatever the order in which the aggregated entries are
    left ([sorted]), the sum of their [TotalMemlock] is the sum of the
    [Memlock] of the union collection, and so is [total]: the sums being
    those of the program, in [int] ([TotalByteMemlock]). When the memlocks
    are not negative and their sum fits an [int], nothing wraps around and
    the sums are equal in [Z]. *)
Lemma aggregate_sums (TypeString : Z → string)
    (union : gmap Z ExtendedMapInfo)
    (records : list ExtendedMapInfo) (sorted : list aggregated) :
  records ≡ₚ range_values union →
  sorted ≡ₚ range_values (aggregate records).1 →
  sum_int (TotalMemlock <$> aggregatedMaps TypeString sorted)
  = TotalByteMemlock (range_values union)
  ∧ (aggregate records).2 = TotalByteMemlock (range_values union)
  ∧ (Forall (λ m, 0 ≤ Memlock m) (range_values union) →
     Zsum (Memlock <$> range_values union) ≤ max_int →
     Zsum (TotalMemlock <$> aggregatedMaps TypeString sorted)
     = Zsum (Memlock <$> range_values union)).
Proof.
  intros Hrecords Hsorted.
  assert (Hsum : Zsum (Memlock <$> records) = Zsum (Memlock <$> range_values union))
    by (apply Zsum_perm; by rewrite Hrecords).
  assert (Hagg : Zsum (TotalMemlock <$> aggregatedMaps TypeString sorted)
                 = aggregated_memlock (aggregate records).1).
  { rewrite TotalMemlock_aggregatedMaps. unfold aggregated_memlock.
    apply Zsum_perm. by rewrite Hsorted. }
  destruct (aggregate_loop_memlock records ∅ 0) as [Hset Htotal].
  fold (aggregate records) in Hset, Htotal.
  rewrite TotalByteMemlock_sum, <- Hsum. split; [|split].
  - rewrite sum_int_Zsum, Hagg, Hset. f_equal.
  - rewrite Htotal. apply sum_int_Zsum.
  - intros Hnonneg Hmax. rewrite Hagg. unfold aggregate.
    rewrite aggregate_loop_exact.
    + done.
    + apply map_Forall_empty.
    + by rewrite Hrecords.
    + unfold aggregated_memlock, range_values. rewrite map_to_list_empty. simpl. lia.
Qed.

(** The report on these records, as pinned maps and as maps of pinned
    programs: two aggregated entries, the larger first. *)
Example report_two_names :
  AggregatedMaps <$> (report Sim.TypeString [] (range_values two_names)
                        (range_values two_names)).1
  = Some [ {| am_Name := "execve_map"; am_Type := "Hash"; am_KeySize := 4;
              am_ValueSize := 8; am_MaxEntries := 1024; Count := 2;
              TotalMemlock := 16384 |};
           {| am_Name := "tg_conf_map"; am_Type := "Array"; am_KeySize := 4;
              am_ValueSize := 8; am_MaxEntries := 1024; Count := 1;
              TotalMemlock := 8192 |} ].
Proof. vm_compute. reflexivity. Qed.

(** * Further properties *)

(** ** Set algebra: sizes, edge inputs, composition *)

Lemma inter_diff_partition {T : Type} (A B : gmap Z T) :
  inter A B ∪ diff A B = A ∧ inter A B ##ₘ diff A B.
Proof.
  split.
  - apply map_eq. intros i. rewrite lookup_union, inter_lookup, diff_lookup.
    by destruct (A !! i), (B !! i).
  - apply map_disjoint_spec. intros i x y. rewrite inter_lookup, diff_lookup.
    by destruct (B !! i).
Qed.

Lemma exter_two_diffs {T : Type} (A B : gmap Z T) :
  exter A B = diff A B ∪ diff B A ∧ diff A B ##ₘ diff B A.
Proof.
  split.
  - apply map_eq. intros i. rewrite lookup_union, exter_lookup, !diff_lookup.
    by destruct (A !! i), (B !! i).
  - apply map_disjoint_spec. intros i x y. rewrite !diff_lookup.
    destruct (A !! i), (B !! i); congruence.
Qed.

Lemma union_right_diff {T : Type} (A B : gmap Z T) :
  union A B = B ∪ diff A B ∧ B ##ₘ diff A B.
Proof.
  split.
  - apply map_eq. intros i. rewrite lookup_union, union_lookup, diff_lookup.
    by destruct (A !! i), (B !! i).
  - apply map_disjoint_spec. intros i x y. rewrite diff_lookup.
    destruct (B !! i); congruence.
Qed.

Lemma inter_size_comm {T : Type} (A B : gmap Z T) :
  size (inter A B) = size (inter B A).
Proof.
  rewrite <- !size_dom. f_equal. apply set_eq. intros i.
  rewrite !elem_of_dom, !inter_lookup.
  destruct (A !! i), (B !! i); split; intros [? ?]; (discriminate || eauto).
Qed.

Lemma set_sizes {T : Type} (A B : gmap Z T) :
  (size (inter A B) + size (diff A B) = size A)%nat
  ∧ (size (union A B) = size B + size (diff A B))%nat
  ∧ (size (exter A B) + size (inter A B) = size (union A B))%nat
  ∧ (size (exter A B) = size (diff A B) + size (diff B A))%nat.
Proof.
  destruct (inter_diff_partition A B) as [HA HAd].
  destruct (inter_diff_partition B A) as [HB HBd].
  destruct (exter_two_diffs A B) as [He Hed].
  destruct (union_right_diff A B) as [Hu Hud].
  assert (H1 : (size (inter A B) + size (diff A B) = size A)%nat).
  { rewrite <- HA at 3. by rewrite map_size_disj_union. }
  assert (H2 : (size (union A B) = size B + size (diff A B))%nat).
  { rewrite Hu. by rewrite map_size_disj_union. }
  assert (H3 : (size (inter B A) + size (diff B A) = size B)%nat).
  { rewrite <- HB at 3. by rewrite map_size_disj_union. }
  assert (H4 : (size (exter A B) = size (diff A B) + size (diff B A))%nat).
  { rewrite He. by rewrite map_size_disj_union. }
  pose proof (inter_size_comm A B). repeat split; lia.
Qed.

(** X1: the sizes that the report prints are tied together. The keys of
    [A] are split between [inter A B] and [diff A B]; [union A B] has the
    keys of [B] and those of [diff A B]; and [exter A B] has the keys of
    [union A B] that are not in [inter A B]. *)
Theorem set_algebra_sizes {T : Type} (A B : gmap Z T) :
  (size (inter A B) + size (diff A B) = size A)%nat
  ∧ (size (union A B) = size B + size (diff A B))%nat
  ∧ (size (exter A B) + size (inter A B) = size (union A B))%nat
  ∧ (size (exter A B) = size (diff A B) + size (diff B A))%nat.
Proof. apply set_sizes. Qed.

(** X2: on one collection taken twice, [diff] and [exter] are empty and
    [union] and [inter] give the collection back; with an empty collection
    on either side, [inter] is empty, [union] and [exter] give the other
    side, [diff] gives its first argument. *)
Theorem set_algebra_edge_inputs {T : Type} (A : gmap Z T) :
  (diff A A = ∅ ∧ exter A A = ∅ ∧ union A A = A ∧ inter A A = A)
  ∧ (inter A ∅ = ∅ ∧ inter ∅ A = ∅)
  ∧ (diff A ∅ = A ∧ diff ∅ A = ∅)
  ∧ (union A ∅ = A ∧ union ∅ A = A)
  ∧ (exter A ∅ = A ∧ exter ∅ A = A).
Proof.
  repeat split; apply map_eq; intros i;
    rewrite ?diff_lookup, ?exter_lookup, ?union_lookup, ?inter_lookup,
            ?lookup_empty; by destruct (A !! i).
Qed.

(** X3: the operations compose: [exter] is the two [diff]s put together,
    and also what [diff] leaves of the [union] when the [inter] is taken
    away; [diff] twice by the same collection changes nothing more, and
    [inter] with the first argument takes nothing away. No operation
    invents an entry: [inter A B] and [diff A B] are parts of [A], and
    [union A B] holds [B] as it is. *)
Theorem set_algebra_composition {T : Type} (A B : gmap Z T) :
  exter A B = diff A B ∪ diff B A
  ∧ exter A B = diff (union A B) (inter A B)
  ∧ diff (diff A B) B = diff A B
  ∧ inter (inter A B) A = inter A B
  ∧ diff A (diff A B) = inter A B
  ∧ inter A B ⊆ A ∧ diff A B ⊆ A ∧ B ⊆ union A B.
Proof.
  split; [apply exter_two_diffs|].
  repeat split;
    try (apply map_eq; intros i;
         rewrite ?diff_lookup, ?exter_lookup, ?union_lookup, ?inter_lookup,
                 ?diff_lookup, ?inter_lookup;
         by destruct (A !! i), (B !! i)).
  - apply map_subseteq_spec. intros i x. rewrite inter_lookup.
    by destruct (B !! i).
  - apply map_subseteq_spec. intros i x. rewrite diff_lookup.
    by destruct (B !! i).
  - apply map_subseteq_spec. intros i x Hx. by rewrite union_lookup, Hx.
Qed.

(** ** [TotalByteMemlock] *)

Lemma wrap_int_add_both (a b : Z) :
  wrap_int (wrap_int a + wrap_int b) = wrap_int (a + b).
Proof.
  rewrite wrap_int_add_l, (Z.add_comm a), wrap_int_add_l. f_equal. lia.
Qed.

Lemma wrap_int_range (a : Z) : min_int ≤ wrap_int a ≤ max_int.
Proof.
  unfold wrap_int, min_int, max_int.
  pose proof (Z.mod_pos_bound (a + 2 ^ 63) (2 ^ 64)). lia.
Qed.

(** X4: [TotalByteMemlock] is 0 on no record, adds up over a list split in
    two (with the wrap-around of [int]), does not depend on the order of
    the records, always is an [int], and is the sum in [Z] when the
    memlocks are not negative and their sum fits an [int]. *)
Theorem TotalByteMemlock_laws (l1 l2 : list ExtendedMapInfo) :
  TotalByteMemlock [] = 0
  ∧ TotalByteMemlock (l1 ++ l2) = int_add (TotalByteMemlock l1) (TotalByteMemlock l2)
  ∧ (l1 ≡ₚ l2 → TotalByteMemlock l1 = TotalByteMemlock l2)
  ∧ min_int ≤ TotalByteMemlock l1 ≤ max_int
  ∧ (Forall (λ m, 0 ≤ Memlock m) l1 →
     Zsum (Memlock <$> l1) ≤ max_int →
     TotalByteMemlock l1 = Zsum (Memlock <$> l1)).
Proof.
  split; [done|]. split; [|split; [|split]].
  - rewrite !TotalByteMemlock_sum. unfold int_add.
    rewrite wrap_int_add_both. f_equal.
    rewrite fmap_app. induction (Memlock <$> l1) as [|x l IH]; simpl; lia.
  - intros Hperm. rewrite !TotalByteMemlock_sum. f_equal.
    apply Zsum_perm. by rewrite Hperm.
  - rewrite TotalByteMemlock_sum. apply wrap_int_range.
  - intros Hpos Hmax. rewrite TotalByteMemlock_sum. apply wrap_int_small.
    assert (0 ≤ Zsum (Memlock <$> l1)) by (apply Zsum_nonneg; by apply Forall_fmap).
    unfold min_int. lia.
Qed.

Lemma TotalByteMemlock_laws_witness :
  TotalByteMemlock [Sim.record Hash 1 "execve_map" 4096;
                    Sim.record Array 2 "tg_conf_map" 8192] = 12288.
Proof.
  refine (proj2 (proj2 (proj2 (proj2 (TotalByteMemlock_laws
            [Sim.record Hash 1 "execve_map" 4096;
             Sim.record Array 2 "tg_conf_map" 8192] [])))) _ _).
  - repeat constructor; simpl; lia.
  - vm_compute. discriminate.
Defined.

(** ** Keying by ID and the report *)

(** The records whose ID the kernel reported. *)
Lemma keyByID_app (msg : string) (infos : list ExtendedMapInfo)
    (info : ExtendedMapInfo) :
  ∀ set,
  keyByID msg (infos ++ [info]) set =
  match keyByID msg infos set with
  | (set', Some err) => (set', Some err)
  | (set', None) =>
    if bool_decide (0 < id (MapInfo_ info))
    then (<[id (MapInfo_ info) := info]> set', None)
    else (set', Some (errorString msg))
  end.
Proof.
  induction infos as [|r infos IH]; intros set; simpl.
  - unfold MapInfo_ID. by destruct (bool_decide (0 < id (MapInfo_ info))).
  - unfold MapInfo_ID. destruct (bool_decide (0 < id (MapInfo_ r))); simpl; [|done].
    apply IH.
Qed.

Lemma keyByID_lookup (msg : string) (infos : list ExtendedMapInfo) :
  Forall (λ r, 0 < id (MapInfo_ r)) infos →
  ∃ m, keyByID msg infos ∅ = (m, None)
       ∧ ∀ i, m !! i = last (filter (λ r, id (MapInfo_ r) = i) infos).
Proof.
  induction infos as [|info infos IH] using rev_ind; intros Hall.
  - exists ∅. split; [done|]. intros i. by rewrite lookup_empty.
  - apply Forall_app in Hall as [Hall Hinfo]. rewrite Forall_singleton in Hinfo.
    destruct (IH Hall) as (m & Hm & Hlook).
    exists (<[id (MapInfo_ info) := info]> m). split.
    + rewrite keyByID_app, Hm. by rewrite bool_decide_eq_true_2.
    + intros i. rewrite filter_app, filter_cons, filter_nil.
      destruct (decide (id (MapInfo_ info) = i)) as [<-|Hne].
      * by rewrite lookup_insert_eq, last_snoc.
      * rewrite lookup_insert_ne by done. by rewrite app_nil_r.
Qed.

Lemma keyByID_error (msg : string) (infos : list ExtendedMapInfo) :
  ∀ set,
  Exists (λ r, id (MapInfo_ r) ≤ 0) infos →
  ∃ set', keyByID msg infos set = (set', Some (errorString msg)).
Proof.
  induction infos as [|info infos IH]; intros set Hex.
  - by apply Exists_nil in Hex.
  - simpl. unfold MapInfo_ID.
    destruct (decide (0 < id (MapInfo_ info))) as [Hpos|Hneg].
    + rewrite bool_decide_eq_true_2 by done. simpl. apply IH.
      apply Exists_cons in Hex as [?|?]; [lia|done].
    + rewrite bool_decide_eq_false_2 by done. simpl. eauto.
Qed.

Lemma size_list_to_set_le (l : list Z) :
  (size (list_to_set l : gset Z) ≤ length l)%nat.
Proof.
  induction l as [|x l IH].
  - by rewrite list_to_set_nil, size_empty.
  - rewrite list_to_set_cons, size_union_alt, size_singleton. cbn [length].
    assert ((size (list_to_set l ∖ {[x]} : gset Z) ≤ size (list_to_set l : gset Z))%nat)
      by (apply subseteq_size; intros y Hy; by apply elem_of_difference in Hy as [? _]).
    lia.
Qed.

(** X5: keying a list of records by ID succeeds exactly when every record
    has an ID (a positive one); the collection then holds, under each ID of
    the list, the last record of the list with that ID, and nothing else.
    A record without ID gives the error of the loop. *)
Theorem keyByID_spec (msg : string) (infos : list ExtendedMapInfo) :
  (Forall (λ r, 0 < id (MapInfo_ r)) infos →
   ∃ m, keyByID msg infos ∅ = (m, None)
        ∧ (∀ i, m !! i = last (filter (λ r, id (MapInfo_ r) = i) infos))
        ∧ dom m = list_to_set ((λ r, id (MapInfo_ r)) <$> infos)
        ∧ (size m ≤ length infos)%nat)
  ∧ (Exists (λ r, id (MapInfo_ r) ≤ 0) infos →
     ∃ m, keyByID msg infos ∅ = (m, Some (errorString msg))).
Proof.
  split; [|apply keyByID_error].
  intros Hall. destruct (keyByID_lookup msg infos Hall) as (m & Hm & Hlook).
  exists m. split; [done|]. split; [done|].
  assert (Hdom : dom m = list_to_set ((λ r, id (MapInfo_ r)) <$> infos)).
  { apply set_eq. intros i. rewrite elem_of_dom, Hlook, elem_of_list_to_set.
    rewrite list_elem_of_fmap. split.
    - intros [r Hr]. apply last_Some in Hr as [l' Hr].
      assert (Hin : r ∈ filter (λ r, id (MapInfo_ r) = i) infos)
        by (rewrite Hr; apply elem_of_app; right; left).
      apply list_elem_of_filter in Hin as [Hid Hin]. eauto.
    - intros (r & -> & Hin).
      destruct (filter (λ r0, id (MapInfo_ r0) = id (MapInfo_ r)) infos)
        as [|x l] eqn:Hf using rev_ind.
      + assert (Hin' : r ∈ filter (λ r0, id (MapInfo_ r0) = id (MapInfo_ r)) infos)
          by (by apply list_elem_of_filter).
        rewrite Hf in Hin'. by apply elem_of_nil in Hin'.
      + rewrite last_snoc. eauto. }
  split; [done|].
  rewrite <- size_dom, Hdom. etransitivity; [apply size_list_to_set_le|].
  by rewrite length_fmap.
Qed.

Lemma keyByID_spec_witness :
  ∃ m, keyByID "no ID" [Sim.record Hash 1 "execve_map" 4096;
                        Sim.record Hash 1 "execve_map" 8192] ∅ = (m, None)
       ∧ m !! 1 = Some (Sim.record Hash 1 "execve_map" 8192).
Proof.
  destruct (proj1 (keyByID_spec "no ID"
              [Sim.record Hash 1 "execve_map" 4096;
               Sim.record Hash 1 "execve_map" 8192])) as (m & Hm & Hlook & _).
  { repeat constructor. }
  exists m. split; [exact Hm|]. rewrite Hlook. reflexivity.
Defined.

Lemma keyByID_ok_inv (msg : string) (infos : list ExtendedMapInfo) :
  ∀ set m,
  keyByID msg infos set = (m, None) → Forall (λ r, 0 < id (MapInfo_ r)) infos.
Proof.
  induction infos as [|info infos IH]; intros set m Hkey; [constructor|].
  simpl in Hkey. unfold MapInfo_ID in Hkey.
  destruct (decide (0 < id (MapInfo_ info))) as [Hpos|Hneg].
  - rewrite bool_decide_eq_true_2 in Hkey by done. simpl in Hkey.
    constructor; [done|]. by eapply IH.
  - rewrite bool_decide_eq_false_2 in Hkey by done. simpl in Hkey. discriminate.
Qed.

(** A keyed collection holds each record under its own ID. *)
Lemma keyByID_values (msg : string) (infos : list ExtendedMapInfo)
    (m : gmap Z ExtendedMapInfo) (i : Z) (r : ExtendedMapInfo) :
  keyByID msg infos ∅ = (m, None) →
  m !! i = Some r →
  id (MapInfo_ r) = i ∧ 0 < i ∧ r ∈ infos.
Proof.
  intros Hkey Hr. pose proof (keyByID_ok_inv _ _ _ _ Hkey) as Hall.
  destruct (keyByID_lookup msg infos Hall) as (m' & Hm' & Hlook).
  rewrite Hkey in Hm'. injection Hm' as <-.
  rewrite Hlook in Hr. apply last_Some in Hr as [l' Hr].
  assert (Hin : r ∈ filter (λ r, id (MapInfo_ r) = i) infos)
    by (rewrite Hr; apply elem_of_app; right; left).
  apply list_elem_of_filter in Hin as [Hid Hin].
  split; [done|]. split; [|done].
  rewrite Forall_forall in Hall. rewrite <- Hid. by apply Hall.
Qed.

Lemma diffMaps_loop_ok (TypeString : Z → string) (ds : list ExtendedMapInfo) :
  ∀ out,
  Forall (λ r, 0 < id (MapInfo_ r)) ds →
  diffMaps_loop TypeString ds out
  = (out ++ ((λ d, toDiffMap TypeString (id (MapInfo_ d)) d) <$> ds), None).
Proof.
  induction ds as [|d ds IH]; intros out Hall; simpl.
  - by rewrite app_nil_r.
  - inversion Hall as [|? ? Hd Hds]; subst. unfold MapInfo_ID.
    rewrite bool_decide_eq_true_2 by done. simpl.
    rewrite IH by done. by rewrite <- app_assoc.
Qed.

Lemma diff_values_have_ID (msg : string) (infos : list ExtendedMapInfo)
    (A B : gmap Z ExtendedMapInfo) :
  keyByID msg infos ∅ = (A, None) →
  Forall (λ r, 0 < id (MapInfo_ r)) (range_values (diff A B)).
Proof.
  intros Hkey. unfold range_values. apply Forall_fmap, Forall_forall.
  intros [i r] Hin. apply elem_of_map_to_list in Hin.
  rewrite diff_lookup in Hin. destruct (B !! i); [done|].
  destruct (keyByID_values _ _ _ _ _ Hkey Hin) as (Hid & Hpos & _).
  simpl. by rewrite Hid.
Qed.

(** What [report] returns, by the IDs of its two lists. *)
Lemma report_cases (TypeString : Z → string)
    (allMaps pinnedProgsMaps pinnedMaps : list ExtendedMapInfo) :
  (Exists (λ r, id (MapInfo_ r) ≤ 0) pinnedProgsMaps ∧
   report TypeString allMaps pinnedProgsMaps pinnedMaps
   = (None, Some (errorString
        "failed retrieving progs ID, need >= 4.13, kernel is too old")))
  ∨ (Forall (λ r, 0 < id (MapInfo_ r)) pinnedProgsMaps ∧
     Exists (λ r, id (MapInfo_ r) ≤ 0) pinnedMaps ∧
     report TypeString allMaps pinnedProgsMaps pinnedMaps
     = (None, Some (errorString
          "failed retrieving map ID, need >= 4.13, kernel is too old")))
  ∨ (∃ progsSet mapsSet,
       keyByID "failed retrieving progs ID, need >= 4.13, kernel is too old"
         pinnedProgsMaps ∅ = (progsSet, None)
       ∧ keyByID "failed retrieving map ID, need >= 4.13, kernel is too old"
           pinnedMaps ∅ = (mapsSet, None)
       ∧ report TypeString allMaps pinnedProgsMaps pinnedMaps
         = (Some {|
              TotalByteMemlock_AllMaps := TotalByteMemlock allMaps;
              TotalByteMemlock_PinnedProgsMaps := TotalByteMemlock pinnedProgsMaps;
              TotalByteMemlock_PinnedMaps := TotalByteMemlock pinnedMaps;
              MapsStats_PinnedProgsMaps := len progsSet;
              MapsStats_PinnedMaps := Z.of_nat (length pinnedMaps);
              MapsStats_Inter := len (inter mapsSet progsSet);
              MapsStats_Exter := len (exter mapsSet progsSet);
              MapsStats_Union := len (union mapsSet progsSet);
              MapsStats_Diff := len (diff mapsSet progsSet);
              DiffMaps := (λ d, toDiffMap TypeString (id (MapInfo_ d)) d)
                          <$> range_values (diff mapsSet progsSet);
              AggregatedMaps :=
                aggregatedMaps TypeString
                  (merge_sort by_memlock
                     (range_values (aggregate (range_values (union mapsSet progsSet))).1))
            |}, None)).
Proof.
  destruct (decide (Forall (λ r, 0 < id (MapInfo_ r)) pinnedProgsMaps)) as [Hpp|Hpp].
  2: { left. apply not_Forall_Exists in Hpp; [|apply _].
       assert (Hex : Exists (λ r, id (MapInfo_ r) ≤ 0) pinnedProgsMaps).
       { eapply Exists_impl; [exact Hpp|]. simpl. intros r Hr. lia. }
       split; [done|]. unfold report.
       destruct (keyByID_error
         "failed retrieving progs ID, need >= 4.13, kernel is too old" _ ∅ Hex)
         as [set' Hk]. by rewrite Hk. }
  destruct (keyByID_lookup
    "failed retrieving progs ID, need >= 4.13, kernel is too old" _ Hpp)
    as (progsSet & HprogsSet & _).
  destruct (decide (Forall (λ r, 0 < id (MapInfo_ r)) pinnedMaps)) as [Hpm|Hpm].
  2: { right. left. apply not_Forall_Exists in Hpm; [|apply _].
       assert (Hex : Exists (λ r, id (MapInfo_ r) ≤ 0) pinnedMaps).
       { eapply Exists_impl; [exact Hpm|]. simpl. intros r Hr. lia. }
       split; [done|]. split; [done|]. unfold report. rewrite HprogsSet.
       destruct (keyByID_error
         "failed retrieving map ID, need >= 4.13, kernel is too old" _ ∅ Hex)
         as [set' Hk]. by rewrite Hk. }
  destruct (keyByID_lookup
    "failed retrieving map ID, need >= 4.13, kernel is too old" _ Hpm)
    as (mapsSet & HmapsSet & _).
  right. right. exists progsSet, mapsSet. split; [done|]. split; [done|].
  unfold report. rewrite HprogsSet, HmapsSet.
  rewrite (diffMaps_loop_ok TypeString _ [])
    by (by eapply diff_values_have_ID).
  by destruct (aggregate (range_values (union mapsSet progsSet))).
Qed.

(** C7: in every report that the report builder makes, the sum of
    [TotalMemlock] over [AggregatedMaps] is the sum of [Memlock] over the
    union collection, which holds the pinned maps and the maps of the pinned
    programs by ID: the sums being those of the program, in [int]
    ([TotalByteMemlock]), and equal in [Z] when the memlocks are not
    negative and their sum fits an [int]. It is so for every union
    collection, whatever the order in which the loop visits it ([records])
    and whatever the order in which the aggregated entries are left
    ([sorted]); the variable [total] of the loop is that sum too. *)
Theorem aggregation_preserves_memlock (TypeString : Z → string) :
  (∀ allMaps pinnedProgsMaps pinnedMaps out,
     report TypeString allMaps pinnedProgsMaps pinnedMaps = (Some out, None) →
     ∃ progsSet mapsSet,
       keyByID "failed retrieving progs ID, need >= 4.13, kernel is too old"
         pinnedProgsMaps ∅ = (progsSet, None)
       ∧ keyByID "failed retrieving map ID, need >= 4.13, kernel is too old"
           pinnedMaps ∅ = (mapsSet, None)
       ∧ sum_int (TotalMemlock <$> AggregatedMaps out)
         = TotalByteMemlock (range_values (union mapsSet progsSet))
       ∧ (Forall (λ m, 0 ≤ Memlock m) (range_values (union mapsSet progsSet)) →
          Zsum (Memlock <$> range_values (union mapsSet progsSet)) ≤ max_int →
          Zsum (TotalMemlock <$> AggregatedMaps out)
          = Zsum (Memlock <$> range_values (union mapsSet progsSet))))
  ∧ (∀ (unionSet : gmap Z ExtendedMapInfo)
       (records : list ExtendedMapInfo) (sorted : list aggregated),
       records ≡ₚ range_values unionSet →
       sorted ≡ₚ range_values (aggregate records).1 →
       sum_int (TotalMemlock <$> aggregatedMaps TypeString sorted)
       = TotalByteMemlock (range_values unionSet)
       ∧ (aggregate records).2 = TotalByteMemlock (range_values unionSet)
       ∧ (Forall (λ m, 0 ≤ Memlock m) (range_values unionSet) →
          Zsum (Memlock <$> range_values unionSet) ≤ max_int →
          Zsum (TotalMemlock <$> aggregatedMaps TypeString sorted)
          = Zsum (Memlock <$> range_values unionSet))).
Proof.
  split; [|intros unionSet records sorted; apply aggregate_sums].
  intros allMaps pinnedProgsMaps pinnedMaps out Hreport.
  destruct (report_cases TypeString allMaps pinnedProgsMaps pinnedMaps)
    as [[_ Hr]|[(_ & _ & Hr)|(progsSet & mapsSet & Hp & Hm & Hr)]];
    rewrite Hr in Hreport; [discriminate|discriminate|].
  injection Hreport as <-. cbn [AggregatedMaps].
  exists progsSet, mapsSet. split; [done|]. split; [done|].
  destruct (aggregate_sums TypeString (union mapsSet progsSet)
              (range_values (union mapsSet progsSet))
              (merge_sort by_memlock
                 (range_values (aggregate (range_values (union mapsSet progsSet))).1)))
    as (Hint & _ & Hexact); [done|apply merge_sort_Permutation|].
  by split.
Qed.

Lemma aggregation_preserves_memlock_witness :
  ∃ out,
    report Sim.TypeString []
      [Sim.record Hash 1 "execve_map" 4096; Sim.record Array 2 "tg_conf_map" 8192]
      [Sim.record Hash 3 "execve_map" 12288; Sim.record Hash 1 "execve_map" 4096]
    = (Some out, None)
    ∧ ∃ progsSet mapsSet,
        keyByID "failed retrieving progs ID, need >= 4.13, kernel is too old"
          [Sim.record Hash 1 "execve_map" 4096; Sim.record Array 2 "tg_conf_map" 8192]
          ∅ = (progsSet, None)
        ∧ keyByID "failed retrieving map ID, need >= 4.13, kernel is too old"
            [Sim.record Hash 3 "execve_map" 12288; Sim.record Hash 1 "execve_map" 4096]
            ∅ = (mapsSet, None)
        ∧ sum_int (TotalMemlock <$> AggregatedMaps out)
          = TotalByteMemlock (range_values (union mapsSet progsSet))
        ∧ (Forall (λ m, 0 ≤ Memlock m) (range_values (union mapsSet progsSet)) →
           Zsum (Memlock <$> range_values (union mapsSet progsSet)) ≤ max_int →
           Zsum (TotalMemlock <$> AggregatedMaps out)
           = Zsum (Memlock <$> range_values (union mapsSet progsSet))).
Proof.
  eexists. split; [vm_compute; reflexivity|].
  apply (proj1 (aggregation_preserves_memlock Sim.TypeString) []
           [Sim.record Hash 1 "execve_map" 4096; Sim.record Array 2 "tg_conf_map" 8192]
           [Sim.record Hash 3 "execve_map" 12288; Sim.record Hash 1 "execve_map" 4096]).
  vm_compute. reflexivity.
Defined.

Lemma ID_Forall_Exists (infos : list ExtendedMapInfo) :
  Forall (λ r, 0 < id (MapInfo_ r)) infos →
  Exists (λ r, id (MapInfo_ r) ≤ 0) infos → False.
Proof.
  intros Hall Hex. apply Exists_exists in Hex as (r & Hin & Hr).
  rewrite Forall_forall in Hall. specialize (Hall r Hin). simpl in *. lia.
Qed.

(** X6: the report is made exactly when every record of the two lists has
    an ID. A record without ID among the maps of the pinned programs gives
    the error about the progs ID, whatever the pinned maps are; otherwise a
    record without ID among the pinned maps gives the error about the map
    ID. The third check of an ID, on the records of the diff, never fails:
    these records were keyed by their ID. *)
Theorem report_outcome (TypeString : Z → string)
    (allMaps pinnedProgsMaps pinnedMaps : list ExtendedMapInfo) :
  (Forall (λ r, 0 < id (MapInfo_ r)) pinnedProgsMaps →
   Forall (λ r, 0 < id (MapInfo_ r)) pinnedMaps →
   ∃ out, report TypeString allMaps pinnedProgsMaps pinnedMaps = (Some out, None))
  ∧ (Exists (λ r, id (MapInfo_ r) ≤ 0) pinnedProgsMaps →
     report TypeString allMaps pinnedProgsMaps pinnedMaps
     = (None, Some (errorString
          "failed retrieving progs ID, need >= 4.13, kernel is too old")))
  ∧ (Forall (λ r, 0 < id (MapInfo_ r)) pinnedProgsMaps →
     Exists (λ r, id (MapInfo_ r) ≤ 0) pinnedMaps →
     report TypeString allMaps pinnedProgsMaps pinnedMaps
     = (None, Some (errorString
          "failed retrieving map ID, need >= 4.13, kernel is too old"))).
Proof.
  destruct (report_cases TypeString allMaps pinnedProgsMaps pinnedMaps)
    as [[Hex ->]|[(Hall & Hex & ->)|(progsSet & mapsSet & Hp & Hm & ->)]].
  - split; [|split].
    + intros Hall _. destruct (ID_Forall_Exists _ Hall Hex).
    + done.
    + intros Hall _. destruct (ID_Forall_Exists _ Hall Hex).
  - split; [|split].
    + intros _ Hall'. destruct (ID_Forall_Exists _ Hall' Hex).
    + intros Hex'. destruct (ID_Forall_Exists _ Hall Hex').
    + done.
  - split; [|split].
    + eauto.
    + intros Hex. destruct (ID_Forall_Exists _ (keyByID_ok_inv _ _ _ _ Hp) Hex).
    + intros _ Hex. destruct (ID_Forall_Exists _ (keyByID_ok_inv _ _ _ _ Hm) Hex).
Qed.

Lemma report_outcome_witness :
  report Sim.TypeString [] [Sim.record Hash 1 "execve_map" 4096]
    [Sim.record Hash 0 "old_kernel" 4096]
  = (None, Some (errorString
       "failed retrieving map ID, need >= 4.13, kernel is too old")).
Proof.
  apply (proj2 (proj2 (report_outcome Sim.TypeString []
           [Sim.record Hash 1 "execve_map" 4096]
           [Sim.record Hash 0 "old_kernel" 4096]))).
  - repeat constructor.
  - left. simpl. lia.
Defined.

Lemma keyByID_is_Some (msg : string) (infos : list ExtendedMapInfo)
    (m : gmap Z ExtendedMapInfo) (i : Z) :
  keyByID msg infos ∅ = (m, None) →
  is_Some (m !! i) ↔ i ∈ (λ r, id (MapInfo_ r)) <$> infos.
Proof.
  intros Hkey. split.
  - intros [r Hr]. destruct (keyByID_values _ _ _ _ _ Hkey Hr) as (Hid & _ & Hin).
    apply list_elem_of_fmap. eauto.
  - intros Hin. apply list_elem_of_fmap in Hin as (r & -> & Hin).
    pose proof (keyByID_ok_inv _ _ _ _ Hkey) as Hall.
    destruct (keyByID_lookup msg infos Hall) as (m' & Hm' & Hlook).
    rewrite Hkey in Hm'. injection Hm' as <-. rewrite Hlook.
    assert (Hin' : r ∈ filter (λ r0, id (MapInfo_ r0) = id (MapInfo_ r)) infos)
      by (by apply list_elem_of_filter).
    destruct (filter (λ r0, id (MapInfo_ r0) = id (MapInfo_ r)) infos)
      as [|x l _] using rev_ind.
    + by apply elem_of_nil in Hin'.
    + rewrite last_snoc. eauto.
Qed.

Lemma keyByID_size (msg : string) (infos : list ExtendedMapInfo)
    (m : gmap Z ExtendedMapInfo) :
  keyByID msg infos ∅ = (m, None) → (size m ≤ length infos)%nat.
Proof.
  intros Hkey. rewrite <- size_dom.
  assert (Hdom : dom m = list_to_set ((λ r, id (MapInfo_ r)) <$> infos)).
  { apply set_eq. intros i.
    rewrite elem_of_dom, elem_of_list_to_set. by apply keyByID_is_Some with msg. }
  rewrite Hdom. etransitivity; [apply size_list_to_set_le|]. by rewrite length_fmap.
Qed.

(** X7: in every report, the statistics agree with each other: the union
    counts the maps of the pinned programs and the diff; the symmetric
    difference counts the union without the intersection; the intersection
    and the diff together count the distinct IDs of the pinned maps, which
    can be fewer than [PinnedMaps], the length of the list; and [DiffMaps]
    has one entry per ID of the diff. *)
Theorem report_stats (TypeString : Z → string)
    (allMaps pinnedProgsMaps pinnedMaps : list ExtendedMapInfo)
    (out : MapsChecksOutput) :
  report TypeString allMaps pinnedProgsMaps pinnedMaps = (Some out, None) →
  MapsStats_Union out = MapsStats_PinnedProgsMaps out + MapsStats_Diff out
  ∧ MapsStats_Exter out = MapsStats_Union out - MapsStats_Inter out
  ∧ MapsStats_Inter out + MapsStats_Diff out ≤ MapsStats_PinnedMaps out
  ∧ MapsStats_PinnedProgsMaps out ≤ Z.of_nat (length pinnedProgsMaps)
  ∧ Z.of_nat (length (DiffMaps out)) = MapsStats_Diff out
  ∧ TotalByteMemlock_AllMaps out = TotalByteMemlock allMaps.
Proof.
  intros Hrep.
  destruct (report_cases TypeString allMaps pinnedProgsMaps pinnedMaps)
    as [[_ Hr]|[(_ & _ & Hr)|(progsSet & mapsSet & Hp & Hm & Hr)]];
    rewrite Hr in Hrep; try discriminate.
  injection Hrep as <-. cbn.
  destruct (set_sizes mapsSet progsSet) as (H1 & H2 & H3 & H4).
  pose proof (keyByID_size _ _ _ Hp). pose proof (keyByID_size _ _ _ Hm).
  unfold len, range_values. rewrite !length_fmap, length_map_to_list.
  repeat split; lia.
Qed.

Lemma report_stats_witness :
  ∃ out, report Sim.TypeString [] [Sim.record Hash 1 "execve_map" 4096]
           [Sim.record Hash 1 "execve_map" 4096; Sim.record Hash 1 "execve_map" 4096;
            Sim.record Array 2 "tg_conf_map" 8192] = (Some out, None)
    ∧ MapsStats_Inter out + MapsStats_Diff out ≤ MapsStats_PinnedMaps out
    ∧ MapsStats_PinnedMaps out = 3 ∧ MapsStats_Inter out = 1 ∧ MapsStats_Diff out = 1.
Proof.
  eexists. split; [vm_compute; reflexivity|]. split; [|by vm_compute].
  eapply (report_stats Sim.TypeString [] [Sim.record Hash 1 "execve_map" 4096]
           [Sim.record Hash 1 "execve_map" 4096; Sim.record Hash 1 "execve_map" 4096;
            Sim.record Array 2 "tg_conf_map" 8192]).
  vm_compute. reflexivity.
Defined.

(** X8: [DiffMaps] lists the pinned maps that no pinned program uses: its
    IDs are the IDs of the pinned maps that are not IDs of the maps of the
    pinned programs, each once, and each entry carries the fields of a
    pinned map with that ID. *)
Theorem report_DiffMaps (TypeString : Z → string)
    (allMaps pinnedProgsMaps pinnedMaps : list ExtendedMapInfo)
    (out : MapsChecksOutput) :
  report TypeString allMaps pinnedProgsMaps pinnedMaps = (Some out, None) →
  NoDup (dm_ID <$> DiffMaps out)
  ∧ (∀ i, i ∈ dm_ID <$> DiffMaps out
          ↔ i ∈ (λ r, id (MapInfo_ r)) <$> pinnedMaps
            ∧ i ∉ (λ r, id (MapInfo_ r)) <$> pinnedProgsMaps)
  ∧ (∀ d, d ∈ DiffMaps out →
          ∃ r, r ∈ pinnedMaps ∧ d = toDiffMap TypeString (id (MapInfo_ r)) r).
Proof.
  intros Hrep.
  destruct (report_cases TypeString allMaps pinnedProgsMaps pinnedMaps)
    as [[_ Hr]|[(_ & _ & Hr)|(progsSet & mapsSet & Hp & Hm & Hr)]];
    rewrite Hr in Hrep; try discriminate.
  injection Hrep as <-. cbn [DiffMaps].
  assert (Hids : dm_ID <$> ((λ d, toDiffMap TypeString (id (MapInfo_ d)) d)
                            <$> range_values (diff mapsSet progsSet))
                 = (map_to_list (diff mapsSet progsSet)).*1).
  { unfold range_values. rewrite <- !list_fmap_compose.
    apply list_fmap_ext_elem_of || apply Forall_fmap_ext_1.
    apply Forall_forall. intros [i r] Hin. apply elem_of_map_to_list in Hin.
    rewrite diff_lookup in Hin. destruct (progsSet !! i); [done|].
    simpl. by destruct (keyByID_values _ _ _ _ _ Hm Hin) as (-> & _). }
  split; [|split].
  - rewrite Hids. apply NoDup_fst_map_to_list.
  - intros i. rewrite Hids.
    rewrite <- (keyByID_is_Some _ _ _ i Hm).
    assert (Hnot : i ∉ (λ r, id (MapInfo_ r)) <$> pinnedProgsMaps
                   ↔ progsSet !! i = None).
    { rewrite <- (keyByID_is_Some _ _ _ i Hp). rewrite eq_None_not_Some. done. }
    rewrite Hnot. rewrite list_elem_of_fmap. split.
    + intros ([j r] & -> & Hin). apply elem_of_map_to_list in Hin.
      rewrite diff_lookup in Hin. simpl.
      destruct (progsSet !! j); [done|]. eauto.
    + intros [[r Hr'] Hnone]. exists (i, r). split; [done|].
      apply elem_of_map_to_list. by rewrite diff_lookup, Hnone.
  - intros d Hd. apply list_elem_of_fmap in Hd as (r & -> & Hin).
    unfold range_values in Hin. apply list_elem_of_fmap in Hin as ([i r'] & -> & Hin).
    apply elem_of_map_to_list in Hin. rewrite diff_lookup in Hin.
    destruct (progsSet !! i); [done|].
    destruct (keyByID_values _ _ _ _ _ Hm Hin) as (_ & _ & Hmem). eauto.
Qed.

Lemma report_DiffMaps_witness :
  ∃ out, report Sim.TypeString [] [Sim.record Hash 1 "execve_map" 4096]
           [Sim.record Hash 1 "execve_map" 4096;
            Sim.record Array 2 "tg_conf_map" 8192] = (Some out, None)
    ∧ NoDup (dm_ID <$> DiffMaps out)
    ∧ dm_ID <$> DiffMaps out = [2].
Proof.
  eexists. split; [vm_compute; reflexivity|]. split; [|by vm_compute].
  eapply (report_DiffMaps Sim.TypeString [] [Sim.record Hash 1 "execve_map" 4096]
           [Sim.record Hash 1 "execve_map" 4096;
            Sim.record Array 2 "tg_conf_map" 8192]).
  vm_compute. reflexivity.
Defined.

(** ** The aggregated entries, name by name *)

Lemma aggregate_snoc (records : list ExtendedMapInfo) (m : ExtendedMapInfo) :
  aggregate (records ++ [m]) = aggregate_step (aggregate records) m.
Proof. unfold aggregate. by rewrite foldl_app. Qed.

Lemma foldl_count (rs : list ExtendedMapInfo) (c : Z) :
  foldl (λ count _, int_add count 1) (wrap_int c) rs
  = wrap_int (c + Z.of_nat (length rs)).
Proof.
  revert c. induction rs as [|r rs IH]; intros c; simpl.
  - by rewrite Z.add_0_r.
  - unfold int_add at 2. rewrite wrap_int_add_l, IH. f_equal. lia.
Qed.

(** The entry of [aggregatedMapsSet] under a name, from the records of that
    name in the order of the loop. *)
Lemma aggregate_lookup (records : list ExtendedMapInfo) (name : string) :
  (aggregate records).1 !! name =
  match filter (λ r, Name (MapInfo_ r) = name) records with
  | [] => None
  | r :: rs =>
    Some ({| MapInfo_ := MapInfo_ r;
             Memlock := foldl int_add (Memlock r) (Memlock <$> rs) |},
          foldl (λ count _, int_add count 1) 1 rs)
  end.
Proof.
  induction records as [|m records IH] using rev_ind.
  - done.
  - rewrite aggregate_snoc, filter_app, filter_cons, filter_nil.
    destruct (aggregate records) as [set total] eqn:Hagg. simpl in IH.
    unfold aggregate_step.
    destruct (decide (Name (MapInfo_ m) = name)) as [Hname|Hname].
    + subst name.
      destruct (filter (λ r, Name (MapInfo_ r) = Name (MapInfo_ m)) records)
        as [|r rs] eqn:Hf; rewrite IH; simpl.
      * rewrite lookup_insert_eq. by destruct m.
      * rewrite lookup_insert_eq. by rewrite fmap_app, !foldl_app.
    + rewrite app_nil_r.
      destruct (set !! Name (MapInfo_ m)) as [[e count]|]; simpl;
        by rewrite lookup_insert_ne.
Qed.

(** X9: the aggregated entry of a name exists exactly when a record of the
    union has that name. It carries the metadata of the first such record
    that the loop visits, the sum of the memlocks of all of them, added in
    [int] in the order of the visit, and their number as count. *)
Theorem aggregate_by_name (records : list ExtendedMapInfo) (name : string) :
  (aggregate records).1 !! name =
  match filter (λ r, Name (MapInfo_ r) = name) records with
  | [] => None
  | r :: rs =>
    Some ({| MapInfo_ := MapInfo_ r;
             Memlock := foldl int_add (Memlock r) (Memlock <$> rs) |},
          wrap_int (Z.of_nat (length (r :: rs))))
  end.
Proof.
  rewrite aggregate_lookup.
  destruct (filter (λ r, Name (MapInfo_ r) = name) records) as [|r rs]; [done|].
  do 2 f_equal.
  change (foldl (λ count _, int_add count 1) 1 rs)
    with (foldl (λ count (_ : ExtendedMapInfo), int_add count 1) (wrap_int 1) rs).
  rewrite foldl_count. f_equal. cbn [length]. lia.
Qed.

Lemma aggregate_keyed_by_name (records : list ExtendedMapInfo) (name : string)
    (e : aggregated) :
  (aggregate records).1 !! name = Some e →
  Name (MapInfo_ e.1) = name
  ∧ ∃ r, r ∈ records ∧ MapInfo_ e.1 = MapInfo_ r.
Proof.
  rewrite aggregate_lookup.
  destruct (filter (λ r, Name (MapInfo_ r) = name) records) as [|r rs] eqn:Hf;
    [done|].
  intros [= <-]. simpl.
  assert (Hin : r ∈ filter (λ r, Name (MapInfo_ r) = name) records)
    by (rewrite Hf; left).
  apply list_elem_of_filter in Hin as [Hname Hin]. eauto.
Qed.

Lemma by_memlock_total : Total by_memlock.
Proof. intros a b. unfold by_memlock. lia. Qed.

(** X10: the aggregated maps of the report come sorted by descending
    [TotalMemlock], no name occurs twice among them, and each carries the
    name and the metadata of one record of the two lists. *)
Theorem report_AggregatedMaps (TypeString : Z → string)
    (allMaps pinnedProgsMaps pinnedMaps : list ExtendedMapInfo)
    (out : MapsChecksOutput) :
  report TypeString allMaps pinnedProgsMaps pinnedMaps = (Some out, None) →
  Sorted (λ a b, TotalMemlock b ≤ TotalMemlock a) (AggregatedMaps out)
  ∧ NoDup (am_Name <$> AggregatedMaps out)
  ∧ (∀ a, a ∈ AggregatedMaps out →
          ∃ r, (r ∈ pinnedMaps ∨ r ∈ pinnedProgsMaps)
               ∧ am_Name a = Name (MapInfo_ r)
               ∧ am_KeySize a = KeySize (MapInfo_ r)
               ∧ am_ValueSize a = ValueSize (MapInfo_ r)
               ∧ am_MaxEntries a = MaxEntries (MapInfo_ r)).
Proof.
  intros Hrep.
  destruct (report_cases TypeString allMaps pinnedProgsMaps pinnedMaps)
    as [[_ Hr]|[(_ & _ & Hr)|(progsSet & mapsSet & Hp & Hm & Hr)]];
    rewrite Hr in Hrep; try discriminate.
  injection Hrep as <-. cbn [AggregatedMaps].
  set (records := range_values (union mapsSet progsSet)).
  set (set := (aggregate records).1).
  split; [|split].
  - unfold aggregatedMaps. apply (Sorted_fmap _ by_memlock); [by intros a b|].
    apply Sorted_merge_sort. apply by_memlock_total.
  - unfold aggregatedMaps. rewrite <- list_fmap_compose.
    rewrite merge_sort_Permutation. unfold range_values.
    rewrite <- list_fmap_compose.
    assert (Heq : (am_Name ∘ toAggregatedMap TypeString ∘ snd) <$> map_to_list set
                  = (map_to_list set).*1).
    { apply list_fmap_ext_elem_of || apply Forall_fmap_ext_1.
      apply Forall_forall. intros [name e] Hin. apply elem_of_map_to_list in Hin.
      simpl. by destruct (aggregate_keyed_by_name _ _ _ Hin) as [-> _]. }
    rewrite Heq. apply NoDup_fst_map_to_list.
  - intros a Ha. unfold aggregatedMaps in Ha.
    apply list_elem_of_fmap in Ha as (e & -> & He).
    rewrite merge_sort_Permutation in He. unfold range_values in He.
    apply list_elem_of_fmap in He as ([name e'] & -> & He).
    apply elem_of_map_to_list in He.
    destruct (aggregate_keyed_by_name _ _ _ He) as (_ & r & Hr' & Hinfo).
    unfold records, range_values in Hr'.
    apply list_elem_of_fmap in Hr' as ([i r'] & -> & Hr').
    apply elem_of_map_to_list in Hr'. rewrite union_lookup in Hr'.
    exists r'. simpl in *. rewrite Hinfo. split; [|done].
    destruct (progsSet !! i) as [v|] eqn:Hv.
    + injection Hr' as ->. right.
      by destruct (keyByID_values _ _ _ _ _ Hp Hv) as (_ & _ & ?).
    + left. by destruct (keyByID_values _ _ _ _ _ Hm Hr') as (_ & _ & ?).
Qed.

Lemma report_AggregatedMaps_witness :
  ∃ out, report Sim.TypeString [] (range_values two_names) (range_values two_names)
         = (Some out, None)
    ∧ Sorted (λ a b, TotalMemlock b ≤ TotalMemlock a) (AggregatedMaps out)
    ∧ TotalMemlock <$> AggregatedMaps out = [16384; 8192].
Proof.
  eexists. split; [vm_compute; reflexivity|]. split; [|by vm_compute].
  eapply (report_AggregatedMaps Sim.TypeString []
            (range_values two_names) (range_values two_names)).
  vm_compute. reflexivity.
Defined.

(** ** The map enumerator: termination, soundness, release *)

Section FindAllMapsMore.
Variable k : Kernel.

Lemma FindAllMaps_loop_more_fuel (fuel : nat) :
  ∀ mapID mapInfos defers trace res,
  FindAllMaps_loop k fuel mapID mapInfos defers trace = Some res →
  FindAllMaps_loop k (S fuel) mapID mapInfos defers trace = Some res.
Proof.
  induction fuel as [|fuel IH]; intros mapID mapInfos defers trace res Hrun; [done|].
  cbn [FindAllMaps_loop] in Hrun. cbn [FindAllMaps_loop].
  destruct (MapGetNextID k mapID) as [id|e]; [|done].
  destruct (NewMapFromID k id) as [m|e]; [|done].
  destruct (Map_Info m) as [info|e]; [|done].
  destruct (parseMemlockFromFDInfo k (Map_FD m)) as [[memlock [e|]]|];
    cbn [mbind option_bind] in *; [done| |done].
  by apply IH.
Qed.

Lemma FindAllMaps_loop_fuel_le (fuel fuel' : nat) mapID mapInfos defers trace res :
  (fuel ≤ fuel')%nat →
  FindAllMaps_loop k fuel mapID mapInfos defers trace = Some res →
  FindAllMaps_loop k fuel' mapID mapInfos defers trace = Some res.
Proof.
  induction 1 as [|fuel' _ IH]; [done|].
  intros Hrun. by apply FindAllMaps_loop_more_fuel, IH.
Qed.

Lemma FindAllMaps_loop_terminates (n : nat) :
  (∀ prev id, MapGetNextID k prev = Ok id → prev < id < 2 ^ 32) →
  ∀ mapID mapInfos defers trace,
  2 ^ 32 - mapID ≤ Z.of_nat n →
  ∃ fuel res, FindAllMaps_loop k fuel mapID mapInfos defers trace = Some res.
Proof.
  intros Hcursor. induction n as [|n IH]; intros mapID mapInfos defers trace Hn.
  - exists 1%nat. cbn [FindAllMaps_loop].
    destruct (MapGetNextID k mapID) as [id|e] eqn:Hnext.
    + apply Hcursor in Hnext. lia.
    + destruct (errors_Is e ENOENT); unfold return_; eauto.
  - destruct (MapGetNextID k mapID) as [id|e] eqn:Hnext.
    2: { exists 1%nat. cbn [FindAllMaps_loop]. rewrite Hnext.
         destruct (errors_Is e ENOENT); unfold return_; eauto. }
    destruct (NewMapFromID k id) as [m|e] eqn:Hopen.
    2: { exists 1%nat. cbn [FindAllMaps_loop]. rewrite Hnext, Hopen.
         unfold return_; eauto. }
    destruct (Map_Info m) as [info|e] eqn:Hinfo.
    2: { exists 1%nat. cbn [FindAllMaps_loop]. rewrite Hnext, Hopen, Hinfo.
         unfold return_; eauto. }
    destruct (parseMemlockFromFDInfo_returns k (Map_FD m)) as [[memlock err] Hmem].
    destruct err as [e|].
    { exists 1%nat. cbn [FindAllMaps_loop]. rewrite Hnext, Hopen, Hinfo, Hmem.
      unfold return_; simpl; eauto. }
    pose proof (Hcursor _ _ Hnext) as Hid.
    destruct (IH id (mapInfos ++ [{| MapInfo_ := info; Memlock := memlock |}])
                (length defers :: defers)
                ((trace ++ [EvNextID mapID]) ++ [EvOpen (length defers) id]))
      as (fuel & res & Hrun); [lia|].
    exists (S fuel), res. cbn [FindAllMaps_loop].
    rewrite Hnext, Hopen, Hinfo, Hmem. exact Hrun.
Qed.

(** What a return of the loop tells about the kernel: with an error, no
    record; without, the records are those of IDs that the cursor yielded
    in turn, up to a not-found answer. *)
Lemma FindAllMaps_loop_sound (fuel : nat) :
  ∀ mapID mapInfos defers trace records err trace',
  FindAllMaps_loop k fuel mapID mapInfos defers trace
    = Some ((records, err), trace') →
  match err with
  | Some _ => records = []
  | None =>
    ∃ ids new e,
      records = mapInfos ++ new
      ∧ cursor_yields k mapID ids
      ∧ Forall2 (inspected k) ids new
      ∧ MapGetNextID k (List.last ids mapID) = Err e
      ∧ errors_Is e ENOENT = true
  end.
Proof.
  induction fuel as [|fuel IH];
    intros mapID mapInfos defers trace records err trace' Hrun; [done|].
  cbn [FindAllMaps_loop] in Hrun.
  destruct (MapGetNextID k mapID) as [id|e] eqn:Hnext.
  2: { destruct (errors_Is e ENOENT) eqn:His; unfold return_ in Hrun;
         injection Hrun as <- <- _; [|done].
       exists [], [], e. by rewrite app_nil_r. }
  destruct (NewMapFromID k id) as [m|e] eqn:Hopen;
    [|unfold return_ in Hrun; by injection Hrun as <- <- _].
  destruct (Map_Info m) as [info|e] eqn:Hinfo;
    [|unfold return_ in Hrun; by injection Hrun as <- <- _].
  destruct (parseMemlockFromFDInfo k (Map_FD m)) as [[memlock [e|]]|] eqn:Hmem;
    cbn [mbind option_bind] in Hrun;
    [unfold return_ in Hrun; by injection Hrun as <- <- _| |done].
  specialize (IH _ _ _ _ _ _ _ Hrun). destruct err as [e|]; [done|].
  destruct IH as (ids & new & e & -> & Hcur & Hins & Hlast & His).
  exists (id :: ids), ({| MapInfo_ := info; Memlock := memlock |} :: new), e.
  split; [by rewrite <- app_assoc|]. split; [done|]. split.
  - constructor; [|done]. exists m. eauto.
  - by rewrite last_cons_default.
Qed.

End FindAllMapsMore.

(** X11: the enumeration returns on every kernel whose cursor answers with
    an ID greater than the one it is given, map IDs being 32 bits wide; and
    once it returns, more fuel changes nothing. *)
Theorem FindAllMaps_terminates (k : Kernel) :
  (∀ prev id, MapGetNextID k prev = Ok id → prev < id < 2 ^ 32) →
  ∃ fuel result,
    FindAllMaps k fuel = Some result
    ∧ ∀ fuel', (fuel ≤ fuel')%nat → FindAllMaps k fuel' = Some result.
Proof.
  intros Hcursor.
  destruct (FindAllMaps_loop_terminates k (Z.to_nat (2 ^ 32)) Hcursor 0 [] [] [])
    as (fuel & [result trace] & Hrun); [lia|].
  exists fuel, result. unfold FindAllMaps, FindAllMaps_run. split.
  - by rewrite Hrun.
  - intros fuel' Hle. by rewrite (FindAllMaps_loop_fuel_le k _ _ _ _ _ _ _ Hle Hrun).
Qed.

Lemma FindAllMaps_terminates_witness :
  ∃ fuel result, FindAllMaps three_maps fuel = Some result
    ∧ ∀ fuel', (fuel ≤ fuel')%nat → FindAllMaps three_maps fuel' = Some result.
Proof.
  apply (FindAllMaps_terminates three_maps).
  intros prev id. cbn.
  repeat match goal with
         | |- context [prev <? ?n] =>
           destruct (Z.ltb_spec prev n)
         end; intros Heq; inversion Heq; lia.
Defined.

(** X12: what [FindAllMaps] returns is never partial and never made up.
    With an error it returns no record. Without, the records are those of
    the maps whose IDs the cursor yielded from 0 on, one per ID and in that
    order, each read from its own map, and the cursor ended with
    [ENOENT]. *)
Theorem FindAllMaps_sound (k : Kernel) (fuel : nat)
    (records : list ExtendedMapInfo) (err : option error) :
  FindAllMaps k fuel = Some (records, err) →
  match err with
  | Some _ => records = []
  | None =>
    ∃ ids e,
      cursor_yields k 0 ids
      ∧ Forall2 (inspected k) ids records
      ∧ MapGetNextID k (List.last ids 0) = Err e
      ∧ errors_Is e ENOENT = true
  end.
Proof.
  unfold FindAllMaps, FindAllMaps_run. intros Hrun.
  destruct (FindAllMaps_loop k fuel 0 [] [] []) as [[[records' err'] trace]|] eqn:Hloop;
    [|done].
  injection Hrun as -> ->.
  pose proof (FindAllMaps_loop_sound k _ _ _ _ _ _ _ _ Hloop) as Hs.
  destruct err; [done|].
  destruct Hs as (ids & new & e & -> & ?). eauto.
Qed.

Lemma FindAllMaps_sound_witness :
  ∃ ids e, cursor_yields three_maps 0 ids
    ∧ Forall2 (inspected three_maps) ids
        [Sim.record Hash 1 "execve_map" 4096;
         Sim.record Array 2 "tg_conf_map" 8192;
         Sim.record Hash 3 "execve_map" 12288]
    ∧ MapGetNextID three_maps (List.last ids 0) = Err e
    ∧ errors_Is e ENOENT = true.
Proof.
  apply (FindAllMaps_sound three_maps 4 _ None). vm_compute. reflexivity.
Defined.

(** X13: on every return of [FindAllMaps], with or without an error, each
    handle that was opened has been closed exactly once, the last opened
    first, and all of that at the return: nothing is closed before the last
    request to the cursor. *)
Theorem FindAllMaps_release_discipline (k : Kernel) (fuel : nat)
    (result : list ExtendedMapInfo * option error) (trace : list Event) :
  FindAllMaps_run k fuel = Some (result, trace) →
  closed trace = rev (opened trace)
  ∧ NoDup (opened trace)
  ∧ ∃ body, trace = body ++ (EvClose <$> rev (opened trace)) ∧ closed body = [].
Proof.
  intros Hrun.
  destruct (FindAllMaps_loop_releases k fuel 0 [] [] [] result trace)
    as (body & n & -> & Hclosed & Hopened); try done.
  rewrite closed_app, opened_app, Hclosed, Hopened, closed_EvClose, opened_EvClose.
  rewrite app_nil_r. split; [done|]. split; [apply NoDup_seq|]. eauto.
Qed.

Lemma FindAllMaps_release_discipline_witness :
  closed [EvNextID 0; EvOpen 0 1; EvNextID 1; EvClose 0]
  = rev (opened [EvNextID 0; EvOpen 0 1; EvNextID 1; EvClose 0]).
Proof.
  apply (FindAllMaps_release_discipline failing_cursor 4
           ([], Some (wrapError "didn't receive ENOENT at the end of iteration: %w" EIO))).
  vm_compute. reflexivity.
Defined.

(** ** The pinned-tree walker, entry by entry *)

Lemma FindPinnedMaps_fn_visited (k : Kernel) (entry : string * option bool)
    (o : option ExtendedMapInfo) (infos : list ExtendedMapInfo) :
  visited k entry o →
  FindPinnedMaps_fn k entry.1 entry.2 infos
  = Some (infos ++ option_list o, None).
Proof.
  unfold FindPinnedMaps_fn.
  intros [path|path m Hload Hmap|path m [info memlock] Hload Hmap Hinfo Hmem]; simpl.
  - by rewrite app_nil_r.
  - by rewrite Hload, Hmap, app_nil_r.
  - simpl in *. by rewrite Hload, Hmap, Hinfo, Hmem.
Qed.

Lemma FindPinnedMaps_fn_fails (k : Kernel) (entry : string * option bool)
    (err : error) (infos : list ExtendedMapInfo) :
  visit_fails k entry err →
  FindPinnedMaps_fn k entry.1 entry.2 infos = Some (infos, Some err).
Proof.
  unfold FindPinnedMaps_fn.
  intros [path e Hload|path m b e Hload Hmap|path m e Hload Hmap Hinfo
         |path m info n e Hload Hmap Hinfo Hmem]; simpl.
  - by rewrite Hload.
  - rewrite Hload, Hmap. by destruct b.
  - by rewrite Hload, Hmap, Hinfo.
  - by rewrite Hload, Hmap, Hinfo, Hmem.
Qed.

Lemma walk_visited (k : Kernel) (entries : list (string * option bool)) :
  ∀ outcomes infos,
  Forall2 (visited k) entries outcomes →
  walk (FindPinnedMaps_fn k) entries infos = Some (infos ++ omap (λ o, o) outcomes, None).
Proof.
  induction entries as [|[path d] entries IH]; intros outcomes infos Hall.
  - inversion Hall; subst. simpl. by rewrite app_nil_r.
  - inversion Hall as [|? o ? outcomes' Hv Hall']; subst.
    pose proof (FindPinnedMaps_fn_visited k (path, d) o infos Hv) as Hfn.
    cbn [fst snd] in Hfn. cbn [walk]. rewrite Hfn.
    cbn [mbind option_bind]. rewrite (IH _ _ Hall').
    destruct o; simpl; by rewrite <- ?app_assoc, ?app_nil_r.
Qed.

(** X14: when every entry of the walk is a directory, a pinned object that
    [isMap] does not take for a map, or a pinned map whose metadata and
    memlock can be read, [FindPinnedMaps] returns the records of the pinned
    maps, one per map and in the order of the walk, and no error. *)
Theorem FindPinnedMaps_records (k : Kernel) (root : string)
    (outcomes : list (option ExtendedMapInfo)) :
  Forall2 (visited k) (WalkDir k root) outcomes →
  FindPinnedMaps k root = Some (omap (λ o, o) outcomes, None).
Proof.
  intros Hall. unfold FindPinnedMaps. by rewrite (walk_visited k _ _ [] Hall).
Qed.

Lemma FindPinnedMaps_records_witness :
  FindPinnedMaps garbage_load TetragonBPFFS
  = Some ([Sim.record Hash 7 "execve_map" 4096], None).
Proof.
  apply (FindPinnedMaps_records garbage_load TetragonBPFFS
           [None; None; Some (Sim.record Hash 7 "execve_map" 4096)]).
  constructor; [apply visited_dir|].
  constructor; [apply (visited_not_map _ _ (Sim.garbage_map 20)); reflexivity|].
  constructor; [|constructor].
  apply (visited_map _ _ (Sim.map 21 Hash 7 "execve_map" [] None));
    vm_compute; reflexivity.
Defined.

(** X15: the first entry at which the callback fails ends the walk, and
    [FindPinnedMaps] returns the error and none of the records found before
    it. The error is the one of the failure: wrapped for a failed load, a
    failed read of the metadata or of the memlock, and as [isMap] returned
    it when the classification itself fails. *)
Theorem FindPinnedMaps_first_failure (k : Kernel) (root : string)
    (pre post : list (string * option bool)) (entry : string * option bool)
    (outcomes : list (option ExtendedMapInfo)) (err : error) :
  WalkDir k root = pre ++ entry :: post →
  Forall2 (visited k) pre outcomes →
  visit_fails k entry err →
  FindPinnedMaps k root = Some ([], Some err).
Proof.
  intros Htree Hpre Hfail. unfold FindPinnedMaps. rewrite Htree.
  rewrite (walk_app _ _ _ _ _ (walk_visited k _ _ [] Hpre)).
  destruct entry as [path d]. cbn [walk].
  pose proof (FindPinnedMaps_fn_fails k (path, d) err ([] ++ omap (λ o, o) outcomes) Hfail)
    as Hfn.
  cbn [fst snd] in Hfn. by rewrite Hfn.
Qed.

Lemma FindPinnedMaps_first_failure_witness :
  FindPinnedMaps refusing_load TetragonBPFFS
  = Some ([], Some (wrapError "failed to load pinned map %q: %w"
                      (errorString "%s is not a Map"))).
Proof.
  apply (FindPinnedMaps_first_failure refusing_load TetragonBPFFS
           [("/sys/fs/bpf/tetragon", Some true)]
           [("/sys/fs/bpf/tetragon/execve_map", Some false)]
           ("/sys/fs/bpf/tetragon/event_execve", Some false) [None]).
  - reflexivity.
  - constructor; [apply visited_dir | constructor].
  - apply fails_load. reflexivity.
Defined.

(** ** The pinned-program reference resolver, entry by entry *)

Lemma add_ids_union (ids : list Z) :
  ∀ mapSet : gset Z, add_ids mapSet ids = mapSet ∪ list_to_set ids.
Proof.
  induction ids as [|x ids IH]; intros mapSet; simpl.
  - apply set_eq. intros y. rewrite elem_of_union, elem_of_empty. tauto.
  - rewrite IH. apply set_eq. intros y.
    rewrite !elem_of_union, elem_of_singleton. tauto.
Qed.

Lemma add_ids_Keys (mapSet : gset Z) (ids : list Z) :
  add_ids mapSet (Keys (add_ids ∅ ids)) = mapSet ∪ list_to_set ids.
Proof.
  rewrite !add_ids_union. unfold Keys. apply set_eq. intros y.
  rewrite !elem_of_union, !elem_of_list_to_set, elem_of_elements,
          elem_of_union, elem_of_list_to_set, elem_of_empty. tauto.
Qed.

(** X16: [mapIDsFromProgs] returns the map IDs of the program without
    repetition: each ID that the program refers to, once. It fails, with no
    ID, on a nil program, when the program info cannot be read, and when
    the kernel did not report the map IDs. *)
Theorem mapIDsFromProgs_spec (prog : Program) :
  mapIDsFromProgs None = ([], Some (errorString "prog is nil"))
  ∧ (∀ e, Program_Info prog = Err e →
          mapIDsFromProgs (Some prog)
          = ([], Some (wrapError "failed to retrieve prog info: %w" e)))
  ∧ (Program_Info prog = Ok {| maps := None |} →
     mapIDsFromProgs (Some prog)
     = ([], Some (errorString "can't link prog to map IDs, field available from 4.15")))
  ∧ (∀ ids, Program_Info prog = Ok {| maps := Some ids |} →
            ∃ l, mapIDsFromProgs (Some prog) = (l, None)
                 ∧ NoDup l ∧ (∀ x, x ∈ l ↔ x ∈ ids)).
Proof.
  split; [done|]. unfold mapIDsFromProgs. split; [|split].
  - by intros e ->.
  - by intros ->.
  - intros ids ->. simpl. eexists. split; [done|]. unfold Keys. split.
    + apply NoDup_elements.
    + intros x. rewrite elem_of_elements, add_ids_union, elem_of_union,
        elem_of_list_to_set, elem_of_empty. tauto.
Qed.

Lemma mapIDsFromProgs_spec_witness :
  ∃ l, mapIDsFromProgs (Some (Sim.prog 30 [5; 7; 5])) = (l, None)
       ∧ NoDup l ∧ (∀ x, x ∈ l ↔ x ∈ [5; 7; 5]).
Proof.
  apply (proj2 (proj2 (proj2 (mapIDsFromProgs_spec (Sim.prog 30 [5; 7; 5]))))).
  reflexivity.
Defined.

Lemma mapIDsFromPinnedProgs_fn_resolved (k : Kernel) (path : string) (d : option bool)
    (o : list Z * list Map) (mapSet : gset Z) (progArrays : list (option Map)) :
  resolved k (path, d) o →
  mapIDsFromPinnedProgs_fn k path d (mapSet, progArrays)
  = Some ((mapSet ∪ list_to_set o.1, progArrays ++ (Some <$> o.2)), None).
Proof.
  intros Hres.
  assert (Hempty : mapSet ∪ list_to_set [] = mapSet).
  { apply set_eq. intros y. rewrite elem_of_union, list_to_set_nil, elem_of_empty.
    tauto. }
  inversion Hres as [path'|path' prog ids Hload Hprog Hinfo
                    |path' handle m Hload Hprog Hmap Hpinned Htype
                    |path' handle m Hload Hprog Hmap Hpinned Htype
                    |path' handle Hload Hprog Hmap]; subst; cbn [fst snd fmap list_fmap].
  - rewrite mapIDsFromPinnedProgs_fn_dir. by rewrite Hempty, app_nil_r.
  - rewrite (mapIDsFromPinnedProgs_fn_prog k _ prog ids) by done.
    by rewrite add_ids_Keys, app_nil_r.
  - rewrite (mapIDsFromPinnedProgs_fn_array k _ handle m) by done.
    by rewrite Hempty.
  - rewrite Hempty, app_nil_r.
    unfold mapIDsFromPinnedProgs_fn. simpl. rewrite Hload, Hprog, Hmap, Hpinned.
    by rewrite bool_decide_eq_false_2.
  - rewrite Hempty, app_nil_r.
    unfold mapIDsFromPinnedProgs_fn. simpl. by rewrite Hload, Hprog, Hmap.
Qed.

Lemma walk_resolved (k : Kernel) (entries : list (string * option bool)) :
  ∀ outcomes mapSet progArrays,
  Forall2 (resolved k) entries outcomes →
  walk (mapIDsFromPinnedProgs_fn k) entries (mapSet, progArrays)
  = Some ((mapSet ∪ list_to_set (concat outcomes.*1),
           progArrays ++ (Some <$> concat outcomes.*2)), None).
Proof.
  induction entries as [|[path d] entries IH]; intros outcomes mapSet progArrays Hall.
  - inversion Hall; subst. simpl. rewrite app_nil_r. do 3 f_equal.
    apply set_eq. intros y. rewrite elem_of_union, elem_of_empty. tauto.
  - inversion Hall as [|? o ? outcomes' Hres Hall']; subst.
    cbn [walk]. rewrite (mapIDsFromPinnedProgs_fn_resolved k _ _ o) by done.
    cbn [mbind option_bind]. rewrite (IH _ _ _ Hall').
    cbn [fmap list_fmap concat]. rewrite fmap_app, <- app_assoc.
    do 3 f_equal. apply set_eq. intros y.
    rewrite !elem_of_union, !elem_of_list_to_set, elem_of_app. tauto.
Qed.

Lemma progIDs_loop_delivered (progArrays : list Map) :
  ∀ progIDs,
  progIDs_loop (Some <$> progArrays) progIDs
  = Some (progIDs ++ delivered progArrays, None).
Proof.
  induction progArrays as [|m progArrays IH]; intros progIDs.
  - simpl. by rewrite app_nil_r.
  - cbn [fmap list_fmap progIDs_loop]. unfold Map_Iterate.
    rewrite progArray_loop_result. cbn [mbind option_bind].
    rewrite IH. unfold delivered. cbn [fmap list_fmap concat].
    by rewrite <- app_assoc.
Qed.

Lemma tailCalls_loop_all (k : Kernel) (progIDs : list Z) :
  ∀ tails mapSet,
  Forall2 (tail_call k) progIDs tails →
  tailCalls_loop k progIDs mapSet = (mapSet ∪ list_to_set (concat tails), None).
Proof.
  induction progIDs as [|progID progIDs IH]; intros tails mapSet Hall.
  - inversion Hall; subst. simpl. f_equal.
    apply set_eq. intros y. rewrite elem_of_union, elem_of_empty. tauto.
  - inversion Hall as [|? ids ? tails' (prog & Hnew & Hinfo) Hall']; subst.
    cbn [tailCalls_loop]. rewrite Hnew. unfold mapIDsFromProgs. rewrite Hinfo.
    cbn. fold (Keys (add_ids ∅ ids)). rewrite add_ids_Keys, (IH _ _ Hall').
    f_equal. apply set_eq. intros y.
    rewrite !elem_of_union, !elem_of_list_to_set, elem_of_app. tauto.
Qed.

(** X17: when every entry under the path is a directory, a pinned program,
    a pinned program array, a pinned map of another type or another pinned
    object, and every program that the program arrays deliver can be opened,
    the resolver returns, each once, the map IDs of the pinned programs and
    of the delivered programs, and nothing else. Whether the iteration of a
    program array ended with the map or failed makes no difference. *)
Theorem mapIDsFromPinnedProgs_result (k : Kernel) (root : string)
    (outcomes : list (list Z * list Map)) (tails : list (list Z)) :
  Forall2 (resolved k) (WalkDir k root) outcomes →
  Forall2 (tail_call k) (delivered (concat outcomes.*2)) tails →
  ∃ ids, mapIDsFromPinnedProgs k root = Some (ids, None)
         ∧ NoDup ids
         ∧ ∀ x, x ∈ ids ↔ x ∈ concat outcomes.*1 ∨ x ∈ concat tails.
Proof.
  intros Hwalk Htails. unfold mapIDsFromPinnedProgs.
  rewrite (walk_resolved k _ _ ∅ [] Hwalk). cbn [mbind option_bind app].
  rewrite (progIDs_loop_delivered _ []). cbn [mbind option_bind app].
  rewrite (tailCalls_loop_all k _ _ _ Htails).
  eexists. split; [done|]. unfold Keys. split; [apply NoDup_elements|].
  intros x. rewrite elem_of_elements, !elem_of_union, !elem_of_list_to_set,
    elem_of_empty. tauto.
Qed.

Lemma mapIDsFromPinnedProgs_result_witness :
  ∃ ids, mapIDsFromPinnedProgs (tail_calls (Some EIO)) TetragonBPFFS = Some (ids, None)
         ∧ NoDup ids
         ∧ ∀ x, x ∈ ids ↔ x ∈ [5] ∨ x ∈ [7].
Proof.
  apply (mapIDsFromPinnedProgs_result (tail_calls (Some EIO)) TetragonBPFFS
           [([], []); ([5], []);
            ([], [Sim.map 32 ProgramArray 9 "execve_calls" [(0, 42)] (Some EIO)])]
           [[7]]).
  - constructor; [apply resolved_dir|].
    constructor; [apply (resolved_prog _ _ (Sim.prog 30 [5])); reflexivity|].
    constructor; [|constructor].
    apply (resolved_array _ _ (Sim.garbage_prog 31)); reflexivity.
  - constructor; [|constructor]. exists (Sim.prog 33 [7]). split; reflexivity.
Defined.

Lemma memlockInfos_loop_inspected (k : Kernel) (mapIDs : list Z) :
  ∀ records mapInfos,
  Forall2 (λ id record, inspected k (to_uint32 id) record) mapIDs records →
  memlockInfos_loop k mapIDs mapInfos = Some (mapInfos ++ records, None).
Proof.
  induction mapIDs as [|id mapIDs IH]; intros records mapInfos Hall.
  - inversion Hall; subst. simpl. by rewrite app_nil_r.
  - inversion Hall as [|? [info memlock] ? records' (m & Hopen & Hinfo & Hmem) Hall'];
      subst. simpl in Hinfo, Hmem.
    cbn [memlockInfos_loop]. unfold memlockInfoFromMapID.
    rewrite Hopen, Hmem. cbn [mbind option_bind]. rewrite Hinfo.
    cbn [mbind option_bind].
    rewrite (IH _ _ Hall'). by rewrite <- app_assoc.
Qed.

Lemma memlockInfos_loop_error (k : Kernel) (mapIDs : list Z) :
  ∀ mapInfos records e,
  memlockInfos_loop k mapIDs mapInfos = Some (records, Some e) → records = [].
Proof.
  induction mapIDs as [|id mapIDs IH]; intros mapInfos records e Hrun; [done|].
  cbn [memlockInfos_loop] in Hrun.
  destruct (memlockInfoFromMapID k id) as [[info [e'|]]|];
    cbn [mbind option_bind] in Hrun; [by injection Hrun as <- _| |done].
  by eapply IH.
Qed.

Lemma memlockInfos_loop_open_fails (k : Kernel) (pre : list Z) (id : Z)
    (post : list Z) (e : error) :
  ∀ records mapInfos,
  Forall2 (λ id record, inspected k (to_uint32 id) record) pre records →
  NewMapFromID k (to_uint32 id) = Err e →
  memlockInfos_loop k (pre ++ id :: post) mapInfos
  = Some ([], Some (wrapError "failed retrieving map memlock from ID: %w"
                      (wrapError "failed creating a map FD from ID: %w" e))).
Proof.
  induction pre as [|id' pre IH]; intros records mapInfos Hpre Hopen.
  - cbn [app memlockInfos_loop]. unfold memlockInfoFromMapID. by rewrite Hopen.
  - inversion Hpre as [|? [info memlock] ? records' (m & Ho & Hi & Hm) Hpre'];
      subst. simpl in Hi, Hm.
    cbn [app memlockInfos_loop]. unfold memlockInfoFromMapID at 1.
    rewrite Ho, Hm. cbn [mbind option_bind]. rewrite Hi.
    cbn [mbind option_bind]. by eapply IH.
Qed.

(** X18: [FindMapsUsedByPinnedProgs] opens the maps by the IDs that the
    resolver returned, in that order, and returns one record per ID. A map
    that cannot be opened any more ends it with an error and no record,
    whatever was read before. *)
Theorem FindMapsUsedByPinnedProgs_records (k : Kernel) (path : string) (ids : list Z) :
  mapIDsFromPinnedProgs k path = Some (ids, None) →
  (∀ records,
     Forall2 (λ id record, inspected k (to_uint32 id) record) ids records →
     FindMapsUsedByPinnedProgs k path = Some (records, None))
  ∧ (∀ pre id post records e,
       ids = pre ++ id :: post →
       Forall2 (λ id record, inspected k (to_uint32 id) record) pre records →
       NewMapFromID k (to_uint32 id) = Err e →
       FindMapsUsedByPinnedProgs k path
       = Some ([], Some (wrapError "failed retrieving map memlock from ID: %w"
                           (wrapError "failed creating a map FD from ID: %w" e)))).
Proof.
  intros Hids. unfold FindMapsUsedByPinnedProgs. rewrite Hids.
  cbn [mbind option_bind]. split.
  - intros records Hall. by rewrite (memlockInfos_loop_inspected k _ _ [] Hall).
  - intros pre id post records e -> Hpre Hopen.
    by apply (memlockInfos_loop_open_fails k pre id post e records).
Qed.

Lemma FindMapsUsedByPinnedProgs_records_witness :
  FindMapsUsedByPinnedProgs (tail_calls None) TetragonBPFFS
  = Some ([], Some (wrapError "failed retrieving map memlock from ID: %w"
                      (wrapError "failed creating a map FD from ID: %w" ENOENT))).
Proof.
  apply (proj2 (FindMapsUsedByPinnedProgs_records (tail_calls None) TetragonBPFFS
                  [7; 5] ltac:(vm_compute; reflexivity)) [] 7 [5] []).
  - reflexivity.
  - constructor.
  - reflexivity.
Defined.

(** X19: with an error the collectors return nothing, whatever they had
    collected before the failure: [FindPinnedMaps] and
    [FindMapsUsedByPinnedProgs] no record, [mapIDsFromPinnedProgs] no ID.
    And the IDs that [mapIDsFromPinnedProgs] returns are never repeated.
    (A result that comes without an error can still be incomplete: the IDs
    behind a program array whose iteration failed are missing from it.) *)
Theorem collectors_return_nothing_with_an_error (k : Kernel) (path : string) :
  (∀ records e, FindPinnedMaps k path = Some (records, Some e) → records = [])
  ∧ (∀ ids e, mapIDsFromPinnedProgs k path = Some (ids, Some e) → ids = [])
  ∧ (∀ records e, FindMapsUsedByPinnedProgs k path = Some (records, Some e) →
                  records = [])
  ∧ (∀ ids err, mapIDsFromPinnedProgs k path = Some (ids, err) → NoDup ids).
Proof.
  assert (Hids : ∀ ids err, mapIDsFromPinnedProgs k path = Some (ids, err) →
                            NoDup ids ∧ (is_Some err → ids = [])).
  { intros ids err Hrun. unfold mapIDsFromPinnedProgs in Hrun.
    destruct (walk _ _ _) as [[[mapSet progArrays] [e|]]|];
      cbn [mbind option_bind] in Hrun;
      [injection Hrun as <- <-; split; [constructor|done]| |done].
    destruct (progIDs_loop _ _) as [[progIDs [e|]]|];
      cbn [mbind option_bind] in Hrun;
      [injection Hrun as <- <-; split; [constructor|done]| |done].
    destruct (tailCalls_loop _ _ _) as [mapSet' [e|]];
      injection Hrun as <- <-.
    - split; [constructor|done].
    - split; [apply NoDup_elements|]. by intros [? ?]. }
  split; [|split; [|split]].
  - intros records e Hrun. unfold FindPinnedMaps in Hrun.
    destruct (walk _ _ _) as [[infos [e'|]]|]; cbn [mbind option_bind] in Hrun;
      [by injection Hrun as <- _|discriminate|done].
  - intros ids e Hrun. by apply (Hids ids (Some e)).
  - intros records e Hrun. unfold FindMapsUsedByPinnedProgs in Hrun.
    destruct (mapIDsFromPinnedProgs k path) as [[ids [e'|]]|];
      cbn [mbind option_bind] in Hrun; [by injection Hrun as <- _| |done].
    by eapply memlockInfos_loop_error.
  - intros ids err Hrun. by apply (Hids ids err).
Qed.

Lemma collectors_return_nothing_with_an_error_witness :
  (∃ records e,
     FindPinnedMaps denied_pin TetragonBPFFS = Some (records, Some e)
     ∧ records = [])
  ∧ (∃ ids e,
       mapIDsFromPinnedProgs denied_pin TetragonBPFFS = Some (ids, Some e)
       ∧ ids = [])
  ∧ (∃ records e,
       FindMapsUsedByPinnedProgs denied_pin TetragonBPFFS = Some (records, Some e)
       ∧ records = []).
Proof.
  pose proof (collectors_return_nothing_with_an_error denied_pin TetragonBPFFS)
    as (Hmaps & Hids & Hused & _).
  split; [|split].
  - eexists _, _. split; [vm_compute; reflexivity|].
    eapply Hmaps. vm_compute. reflexivity.
  - eexists _, _. split; [vm_compute; reflexivity|].
    eapply Hids. vm_compute. reflexivity.
  - eexists _, _. split; [vm_compute; reflexivity|].
    eapply Hused. vm_compute. reflexivity.
Defined.

(** X20: a root that cannot be examined makes the walkers panic:
    [filepath.WalkDir] then calls the callback with a nil entry and the
    error, and the callbacks ignore the error and call [d.IsDir()].
    [RunMapsChecks] does not get there: when [os.Stat] fails on the root it
    returns that error, before any other call and whatever the fuel. *)
Theorem walkers_need_the_root (k : Kernel) (root : string)
    (rest : list (string * option bool)) :
  WalkDir k root = (root, None) :: rest →
  FindPinnedMaps k root = None
  ∧ mapIDsFromPinnedProgs k root = None
  ∧ FindMapsUsedByPinnedProgs k root = None
  ∧ (∀ TypeString fuel e,
       os_Stat k TetragonBPFFS = Some e →
       RunMapsChecks TypeString k fuel
       = Some (None, Some (wrapError
           "make sure tetragon is running and you have enough permissions: %w" e))).
Proof.
  intros Htree.
  assert (Hids : mapIDsFromPinnedProgs k root = None)
    by (unfold mapIDsFromPinnedProgs; by rewrite Htree).
  split; [unfold FindPinnedMaps; by rewrite Htree|]. split; [done|]. split.
  - unfold FindMapsUsedByPinnedProgs. by rewrite Hids.
  - intros TypeString fuel e Hstat. unfold RunMapsChecks. by rewrite Hstat.
Qed.

Lemma walkers_need_the_root_witness :
  FindPinnedMaps three_maps "/sys/fs/bpf/tetragon" = None.
Proof.
  apply (walkers_need_the_root three_maps "/sys/fs/bpf/tetragon" []).
  reflexivity.
Defined.

(** X21: the classifier answers by one [readlink]: [isProg] and [isMap]
    fail together, with the same error, and never both say yes; a link
    [anon_inode:bpf-map] is a map and not a program, [anon_inode:bpf-prog]
    a program and not a map, any other link neither, without error. *)
Theorem classifier_exclusive (k : Kernel) (fd : Z) :
  (isProg k fd).2 = (isMap k fd).2
  ∧ (isProg k fd).1 && (isMap k fd).1 = false
  ∧ (is_Some (isMap k fd).2 → (isMap k fd).1 = false ∧ (isProg k fd).1 = false)
  ∧ (∀ link, os_Readlink k ("/proc/self/fd/" +:+ Sprintd fd) = Ok link →
       isMap k fd = (bool_decide (link = "anon_inode:bpf-map"), None)
       ∧ isProg k fd = (bool_decide (link = "anon_inode:bpf-prog"), None)).
Proof.
  unfold isProg, isMap, isBPFObject.
  destruct (os_Readlink k _) as [link|e]; simpl.
  - split; [done|]. split; [|split].
    + destruct (decide (link = "anon_inode:bpf-prog")) as [->|Hne].
      * by rewrite (bool_decide_eq_false_2 ("anon_inode:bpf-prog" = "anon_inode:bpf-map")),
          andb_false_r.
      * by rewrite (bool_decide_eq_false_2 (link = "anon_inode:bpf-prog")).
    + by intros [? ?].
    + by intros ? [= ->].
  - split; [done|]. split; [done|]. split; [done|]. by intros.
Qed.

Lemma classifier_exclusive_witness :
  isMap three_maps 11 = (true, None) ∧ isProg three_maps 11 = (false, None).
Proof.
  apply (proj2 (proj2 (proj2 (classifier_exclusive three_maps 11)))
           "anon_inode:bpf-map").
  reflexivity.
Defined.

(** ** The range of the parser's result *)

Lemma ParseUint_loop_range (s : string) :
  ∀ n un, 0 ≤ n ≤ 2 ^ 64 - 1 →
  ParseUint_loop s n = (un, None) → 0 ≤ un ≤ 2 ^ 64 - 1.
Proof.
  induction s as [|c s IH]; intros n un Hn Hrun; simpl in Hrun.
  - by injection Hrun as <-.
  - destruct ((byte_val c - 48 <? 0) || (9 <? byte_val c - 48)) eqn:Hd; [done|].
    apply orb_false_elim in Hd as [Hd0 Hd9].
    apply Z.ltb_ge in Hd0. apply Z.ltb_ge in Hd9.
    destruct (2 ^ 64 `div` 10 + 1 <=? n); [done|].
    destruct (2 ^ 64 - 1 <? n * 10 + (byte_val c - 48)) eqn:Hmax; [done|].
    apply Z.ltb_ge in Hmax. eapply IH; [|exact Hrun]. lia.
Qed.

Lemma Atoi_range (s : string) (n : Z) :
  Atoi s = (n, None) → min_int ≤ n ≤ max_int.
Proof.
  unfold Atoi, min_int, max_int. destruct s as [|c s]; [done|].
  set (neg := bool_decide (c = "-"%char)).
  set (digits := if neg || bool_decide (c = "+"%char) then s else String c s).
  destruct (ParseUint digits) as [un [e|]] eqn:Hparse.
  { destruct (bool_decide (e = ErrRange)); done. }
  assert (Hun : 0 ≤ un ≤ 2 ^ 64 - 1).
  { unfold ParseUint in Hparse. destruct digits; [done|].
    eapply ParseUint_loop_range; [|exact Hparse]. lia. }
  destruct neg; simpl.
  - destruct (2 ^ 63 <? un) eqn:Hcut; [done|]. apply Z.ltb_ge in Hcut.
    intros [= <-]. lia.
  - destruct (2 ^ 63 <=? un) eqn:Hcut; [done|]. apply Z.leb_gt in Hcut.
    intros [= <-]. lia.
Qed.

(** X22: whatever the stream, the parser returns 0 together with every
    error, and a number in the range of [int] otherwise; it never returns
    both a number and an error, or a number that [strconv.Atoi] did not
    accept. *)
Theorem parseMemlock_result_range (r : Reader) (memlock : Z) (err : option error) :
  parseMemlockFromFDInfoReader r = Some (memlock, err) →
  match err with
  | Some _ => memlock = 0
  | None => min_int ≤ memlock ≤ max_int
  end.
Proof.
  unfold parseMemlockFromFDInfoReader. rewrite parseMemlock_scan_find.
  destruct (find selected _) as [line|].
  - unfold converted.
    destruct (Atoi (nth 1 (Fields line) EmptyString)) as [n [e|]] eqn:Hatoi.
    + by intros [= <- <-].
    + intros [= <- <-]. by eapply Atoi_range.
  - unfold not_found. destruct (scanned _ _).2; by intros [= <- <-].
Qed.

Lemma parseMemlock_result_range_witness :
  min_int ≤ 9223372036854775807 ≤ max_int.
Proof.
  apply (parseMemlock_result_range (text "memlock: 9223372036854775807")
           9223372036854775807 None).
  vm_compute. reflexivity.
Defined.

(** ** [RunMapsChecks] *)

(** X23: [RunMapsChecks] returns a report or an error, never both and never
    neither. A report is the one made of what the three collectors
    returned without error, in the order [FindAllMaps],
    [FindMapsUsedByPinnedProgs], [FindPinnedMaps]; its three totals are the
    [TotalByteMemlock] of these three lists. *)
Theorem RunMapsChecks_outcome (TypeString : Z → string) (k : Kernel) (fuel : nat)
    (res : option MapsChecksOutput * option error) :
  RunMapsChecks TypeString k fuel = Some res →
  ((∃ e, res = (None, Some e))
   ∨ (∃ out allMaps pinnedProgsMaps pinnedMaps,
        res = (Some out, None)
        ∧ os_Stat k TetragonBPFFS = None
        ∧ FindAllMaps k fuel = Some (allMaps, None)
        ∧ FindMapsUsedByPinnedProgs k TetragonBPFFS = Some (pinnedProgsMaps, None)
        ∧ FindPinnedMaps k TetragonBPFFS = Some (pinnedMaps, None)
        ∧ report TypeString allMaps pinnedProgsMaps pinnedMaps = (Some out, None)
        ∧ TotalByteMemlock_AllMaps out = TotalByteMemlock allMaps
        ∧ TotalByteMemlock_PinnedProgsMaps out = TotalByteMemlock pinnedProgsMaps
        ∧ TotalByteMemlock_PinnedMaps out = TotalByteMemlock pinnedMaps)).
Proof.
  unfold RunMapsChecks. intros Hrun.
  destruct (os_Stat k TetragonBPFFS) as [e|] eqn:Hstat;
    [injection Hrun as <-; eauto|].
  destruct (FindAllMaps k fuel) as [[allMaps [e|]]|];
    cbn [mbind option_bind] in Hrun; [injection Hrun as <-; eauto| |done].
  destruct (FindMapsUsedByPinnedProgs k TetragonBPFFS) as [[pinnedProgsMaps [e|]]|];
    cbn [mbind option_bind] in Hrun; [injection Hrun as <-; eauto| |done].
  destruct (FindPinnedMaps k TetragonBPFFS) as [[pinnedMaps [e|]]|];
    cbn [mbind option_bind] in Hrun; [injection Hrun as <-; eauto| |done].
  injection Hrun as <-.
  destruct (report_cases TypeString allMaps pinnedProgsMaps pinnedMaps)
    as [[_ Hr]|[(_ & _ & Hr)|(progsSet & mapsSet & Hp & Hm & Hr)]];
    rewrite Hr; [eauto|eauto|].
  right. eexists _, allMaps, pinnedProgsMaps, pinnedMaps.
  repeat (split; [done|]). done.
Qed.

Lemma RunMapsChecks_outcome_witness :
  ∃ res, RunMapsChecks Sim.TypeString host 4 = Some res
    ∧ ((∃ e, res = (None, Some e))
       ∨ (∃ out allMaps pinnedProgsMaps pinnedMaps,
            res = (Some out, None)
            ∧ os_Stat host TetragonBPFFS = None
            ∧ FindAllMaps host 4 = Some (allMaps, None)
            ∧ FindMapsUsedByPinnedProgs host TetragonBPFFS
              = Some (pinnedProgsMaps, None)
            ∧ FindPinnedMaps host TetragonBPFFS = Some (pinnedMaps, None)
            ∧ report Sim.TypeString allMaps pinnedProgsMaps pinnedMaps
              = (Some out, None)
            ∧ TotalByteMemlock_AllMaps out = TotalByteMemlock allMaps
            ∧ TotalByteMemlock_PinnedProgsMaps out
              = TotalByteMemlock pinnedProgsMaps
            ∧ TotalByteMemlock_PinnedMaps out = TotalByteMemlock pinnedMaps)).
Proof.
  eexists. split; [vm_compute; reflexivity|].
  apply (RunMapsChecks_outcome Sim.TypeString host 4).
  vm_compute. reflexivity.
Defined.

(** ** Reading back what was printed *)

(** A line made of a first word, blanks and a second word has these two
    fields. *)
Lemma Fields_two_words (w1 sep w2 : string) :
  w1 ≠ EmptyString → plain w1 = true →
  sep ≠ EmptyString → blank sep = true →
  w2 ≠ EmptyString → plain w2 = true →
  Fields (w1 +:+ sep +:+ w2) = [w1; w2].
Proof.
  intros Hne1 Hw1 Hnes Hsep Hne2 Hw2. unfold Fields.
  rewrite FieldsFrom_plain by done. cbn [default].
  rewrite FieldsFrom_blank_ends by done.
  rewrite <- (string_app_empty_r w2) at 1.
  rewrite FieldsFrom_plain by done. done.
Qed.

Lemma plain_string_of_uint (d : Decimal.uint) :
  plain (NilEmpty.string_of_uint d) = true.
Proof.
  induction d; [done|..]; cbn [NilEmpty.string_of_uint plain]; by rewrite IHd.
Qed.

Lemma plain_Sprintd (n : Z) : plain (Sprintd n) = true ∧ Sprintd n ≠ EmptyString.
Proof.
  unfold Sprintd. destruct n as [|p|p]; [done|..]; cbn [Z.to_int NilEmpty.string_of_int].
  - split; [apply plain_string_of_uint|].
    pose proof (DecimalPos.Unsigned.to_uint_nonnil p) as Hnil.
    by destruct (Pos.to_uint p).
  - split; [|done]. cbn [plain]. by rewrite plain_string_of_uint.
Qed.

Lemma decimal_value_ge (d : Decimal.uint) (acc : Z) :
  0 ≤ acc → acc ≤ decimal_value d acc.
Proof.
  revert acc. induction d as [|d IH|d IH|d IH|d IH|d IH|d IH|d IH|d IH|d IH|d IH];
    intros acc Hacc; cbn [decimal_value]; [lia|..];
    (etrans; [|apply IH]; lia).
Qed.

Lemma ParseUint_loop_step (c : ascii) (s : string) (n : Z) :
  0 ≤ byte_val c - 48 ≤ 9 → 0 ≤ n → n * 10 + (byte_val c - 48) < 2 ^ 64 →
  ParseUint_loop (String c s) n = ParseUint_loop s (n * 10 + (byte_val c - 48)).
Proof.
  intros Hd Hn Hlt. cbn [ParseUint_loop]. cbv zeta.
  assert ((byte_val c - 48 <? 0) || (9 <? byte_val c - 48) = false) as ->.
  { apply orb_false_iff. split; apply Z.ltb_ge; lia. }
  assert ((2 ^ 64 `div` 10 + 1 <=? n) = false) as ->.
  { change (2 ^ 64 `div` 10 + 1) with 1844674407370955162.
    change (2 ^ 64) with 18446744073709551616 in Hlt. apply Z.leb_gt. lia. }
  assert ((2 ^ 64 - 1 <? n * 10 + (byte_val c - 48)) = false) as ->.
  { apply Z.ltb_ge. lia. }
  done.
Qed.


Ltac digit_value :=
  repeat match goal with
  | |- context [byte_val ?c - 48] =>
    let v := eval vm_compute in (byte_val c - 48) in
    change (byte_val c - 48) with v
  end.

Lemma ParseUint_loop_digits (d : Decimal.uint) (acc : Z) :
  0 ≤ acc → decimal_value d acc < 2 ^ 64 →
  ParseUint_loop (NilEmpty.string_of_uint d) acc = (decimal_value d acc, None).
Proof.
  revert acc. induction d as [|d IH|d IH|d IH|d IH|d IH|d IH|d IH|d IH|d IH|d IH];
    intros acc Hacc Hlt; cbn [decimal_value NilEmpty.string_of_uint] in *; [done|..];
    (match type of Hlt with
     | decimal_value _ ?a < _ =>
       pose proof (decimal_value_ge d a ltac:(lia)) as Hge;
       rewrite ParseUint_loop_step by (digit_value; lia);
       digit_value;
       replace (acc * 10 + _) with a by lia;
       apply IH; [lia|done]
     end).
Qed.

Lemma decimal_value_pos (d : Decimal.uint) (acc : positive) :
  decimal_value d (Z.pos acc) = Z.pos (Pos.of_uint_acc d acc).
Proof.
  revert acc. induction d as [|d IH|d IH|d IH|d IH|d IH|d IH|d IH|d IH|d IH|d IH];
    intros acc; cbn [decimal_value Pos.of_uint_acc]; [done|..];
    rewrite <- IH; f_equal; lia.
Qed.

Lemma decimal_value_0 (d : Decimal.uint) :
  decimal_value d 0 = Z.of_N (Pos.of_uint d).
Proof.
  induction d as [|d IH|d IH|d IH|d IH|d IH|d IH|d IH|d IH|d IH|d IH];
    cbn [decimal_value Pos.of_uint]; [done|done|..];
    (etrans; [|apply (decimal_value_pos d)]); done.
Qed.

Lemma decimal_value_to_uint (p : positive) :
  decimal_value (Pos.to_uint p) 0 = Z.pos p.
Proof. by rewrite decimal_value_0, DecimalPos.Unsigned.of_to. Qed.

Lemma Atoi_digits (d : Decimal.uint) :
  d ≠ Decimal.Nil → decimal_value d 0 < 2 ^ 63 →
  Atoi (NilEmpty.string_of_uint d) = (decimal_value d 0, None).
Proof.
  intros Hnil Hlt.
  assert (ParseUint_loop (NilEmpty.string_of_uint d) 0 = (decimal_value d 0, None))
    as Hloop.
  { apply ParseUint_loop_digits; [done|].
    change (2 ^ 63) with 9223372036854775808 in Hlt.
    change (2 ^ 64) with 18446744073709551616. lia. }
  assert ((2 ^ 63 <=? decimal_value d 0) = false) as Hfit by (apply Z.leb_gt; lia).
  destruct d; [done|..]; cbn [NilEmpty.string_of_uint] in *; unfold Atoi;
    rewrite !bool_decide_eq_false_2 by done; cbn [orb ParseUint];
    rewrite Hloop; cbn [negb andb]; by rewrite Hfit.
Qed.

Lemma Atoi_minus_digits (d : Decimal.uint) :
  d ≠ Decimal.Nil → decimal_value d 0 ≤ 2 ^ 63 →
  Atoi (String "-" (NilEmpty.string_of_uint d)) = (- decimal_value d 0, None).
Proof.
  intros Hnil Hle.
  assert (ParseUint_loop (NilEmpty.string_of_uint d) 0 = (decimal_value d 0, None))
    as Hloop.
  { apply ParseUint_loop_digits; [done|].
    change (2 ^ 63) with 9223372036854775808 in Hle.
    change (2 ^ 64) with 18446744073709551616. lia. }
  assert ((2 ^ 63 <? decimal_value d 0) = false) as Hfit by (apply Z.ltb_ge; lia).
  unfold Atoi. rewrite bool_decide_eq_true_2 by done. cbn [orb].
  assert (ParseUint (NilEmpty.string_of_uint d) = (decimal_value d 0, None)) as ->.
  { destruct d; [done|..]; exact Hloop. }
  cbn [negb andb]. by rewrite Hfit.
Qed.

(** [strconv.Atoi] reads back every [int] that [%d] prints. *)
Lemma Atoi_Sprintd (n : Z) :
  min_int ≤ n ≤ max_int → Atoi (Sprintd n) = (n, None).
Proof.
  intros [Hlo Hhi]. unfold min_int, max_int in *.
  change (2 ^ 63) with 9223372036854775808 in *.
  unfold Sprintd. destruct n as [|p|p]; [done|..];
    cbn [Z.to_int NilEmpty.string_of_int].
  - rewrite Atoi_digits; rewrite ?decimal_value_to_uint;
      [done|apply DecimalPos.Unsigned.to_uint_nonnil|].
    change (2 ^ 63) with 9223372036854775808. lia.
  - rewrite Atoi_minus_digits; rewrite ?decimal_value_to_uint;
      [done|apply DecimalPos.Unsigned.to_uint_nonnil|].
    change (2 ^ 63) with 9223372036854775808. lia.
Qed.

(** X24: the parser reads back what the kernel prints. When the first line
    with [memlock:] as the first of several fields is [memlock:], spaces or
    tabs, and an [int] printed in decimal, the parser returns that number
    and no error. *)
Theorem parseMemlock_reads_back (r : Reader) (pre post : list string)
    (sep : string) (n : Z) :
  (scanned (sc_lines (NewScanner r)) (sc_readErr (NewScanner r))).1
    = pre ++ ("memlock:" +:+ sep +:+ Sprintd n) :: post →
  Forall (λ l, selected l = false) pre →
  sep ≠ EmptyString → blank sep = true →
  min_int ≤ n ≤ max_int →
  parseMemlockFromFDInfoReader r = Some (n, None).
Proof.
  intros Hsc Hpre Hne Hsep Hn.
  destruct (plain_Sprintd n) as [Hplain Hdigits].
  assert (Fields ("memlock:" +:+ sep +:+ Sprintd n) = ["memlock:"; Sprintd n])
    as Hfields by (by apply Fields_two_words).
  unfold parseMemlockFromFDInfoReader.
  rewrite parseMemlock_scan_find, Hsc.
  rewrite find_selected_app; [|done|by unfold selected; rewrite Hfields].
  unfold converted. rewrite Hfields. cbn [nth].
  by rewrite Atoi_Sprintd.
Qed.

Lemma parseMemlock_reads_back_witness :
  parseMemlockFromFDInfoReader (Sim.fdinfo "4096") = Some (4096, None).
Proof.
  apply (parseMemlock_reads_back (Sim.fdinfo "4096")
           (take 8 (split_lines (r_data (Sim.fdinfo "4096")) EmptyString))
           (drop 9 (split_lines (r_data (Sim.fdinfo "4096")) EmptyString))
           (String "009" EmptyString) 4096).
  - vm_compute. reflexivity.
  - let pre := eval vm_compute in
      (take 8 (split_lines (r_data (Sim.fdinfo "4096")) EmptyString)) in
    change (Forall (λ l, selected l = false) pre).
    repeat (constructor; [vm_compute; reflexivity|]). constructor.
  - done.
  - reflexivity.
  - split; discriminate.
Defined.
